(** * Mentat: timer arithmetic, MIDI/OSC conversion and the module tree

    A shallow embedding of [mentat/timer.py], [mentat/midi.py] and
    [mentat/module.py].  The numbers of the timer are Python's: an [int]
    is an integer of any size and a [float] an IEEE 754 binary64 value,
    with the rounding of every operation ([PyNum], [Timer]).  The facts
    on the order of beat and cycle counts are proved on the same loops
    read over exact rationals ([TimerQ]).  Python exceptions are values
    of [exn]; a method that mutates its receiver returns the new
    receiver. *)

From Stdlib Require Import ZArith QArith Qround List String Ascii Bool Lia Lqa.
From Stdlib Require PrimFloat SpecFloat FloatOps.
Import ListNotations.

Local Open Scope string_scope.
Local Open Scope Z_scope.

Set Warnings "-register-all".

(** ** Python runtime: exceptions and results *)

Inductive exn : Type :=
| IndexError
| KeyError
| TypeError
| ValueError
| AttributeError
| ZeroDivisionError
| OverflowError.

Inductive res (A : Type) : Type :=
| Ok (a : A)
| Raise (e : exn).

Arguments Ok {A} a.
Arguments Raise {A} e.

Definition bind {A B : Type} (r : res A) (k : A -> res B) : res B :=
  match r with
  | Ok a => k a
  | Raise e => Raise e
  end.

Notation "x <- r ;; k" := (bind r (fun x => k))
  (at level 61, r at next level, right associativity).

(** [int(x)] on an exact rational: truncation toward zero. *)
Definition py_int (q : Q) : Z := Z.quot (Qnum q) (Zpos (Qden q)).

(** [a / b] on exact rationals: true division, raising on a zero
    divisor. *)
Definition py_div (a b : Q) : res Q :=
  if Qeq_bool b 0 then Raise ZeroDivisionError else Ok (a / b)%Q.

(** Python values that travel through parameters, states and messages. *)
Inductive value : Type :=
| VNone
| VInt (z : Z)
| VFloat (q : Q)
| VStr (s : string)
| VList (items : list value)
| VTuple (items : list value).

(** [d[key]] on a dict with string keys, kept in insertion order. *)
Fixpoint lookup {A : Type} (key : string) (d : list (string * A))
  : option A :=
  match d with
  | [] => None
  | (k, v) :: rest => if String.eqb k key then Some v else lookup key rest
  end.

Definition subscript {A : Type} (d : list (string * A)) (key : string)
  : res A :=
  match lookup key d with
  | Some v => Ok v
  | None => Raise KeyError
  end.

(** [l[i]] on a list. *)
Definition index {A : Type} (l : list A) (i : nat) : res A :=
  match nth_error l i with
  | Some v => Ok v
  | None => Raise IndexError
  end.

(** [[f(x) for x in l]] with an [f] that may raise. *)
Fixpoint map_res {A B : Type} (f : A -> res B) (l : list A) : res (list B) :=
  match l with
  | [] => Ok []
  | x :: rest => y <- f x ;; ys <- map_res f rest ;; Ok (y :: ys)
  end.

(** [a == b] on values: numbers compare by value across [int] and
    [float], sequences element by element, a list never equals a tuple. *)
Fixpoint value_eqb (a b : value) : bool :=
  let fix all_eqb (xs ys : list value) : bool :=
    match xs, ys with
    | [], [] => true
    | x :: xs', y :: ys' => value_eqb x y && all_eqb xs' ys'
    | _, _ => false
    end in
  match a, b with
  | VNone, VNone => true
  | VInt x, VInt y => Z.eqb x y
  | VInt x, VFloat y => Qeq_bool (inject_Z x) y
  | VFloat x, VInt y => Qeq_bool x (inject_Z y)
  | VFloat x, VFloat y => Qeq_bool x y
  | VStr x, VStr y => String.eqb x y
  | VList xs, VList ys => all_eqb xs ys
  | VTuple xs, VTuple ys => all_eqb xs ys
  | _, _ => false
  end.

(** Whether [hash(v)] succeeds: a list is unhashable, a tuple is hashable
    when its items are. *)
Fixpoint hashable (v : value) : bool :=
  match v with
  | VList _ => false
  | VTuple items => forallb hashable items
  | _ => true
  end.

(** [bool(v)] *)
Definition truthy (v : value) : bool :=
  match v with
  | VNone => false
  | VInt z => negb (Z.eqb z 0)
  | VFloat q => negb (Qeq_bool q 0)
  | VStr s => negb (String.eqb s "")
  | VList items | VTuple items =>
      match items with [] => false | _ => true end
  end.

(** The result of a method that mutates state and may raise: the state is
    kept in both cases, as the mutations made before a raise persist. *)
Inductive outcome (S : Type) : Type :=
| Done (s : S)
| Raised (e : exn) (s : S).

Arguments Done {S} s.
Arguments Raised {S} e s.

Definition state_of {S : Type} (o : outcome S) : S :=
  match o with Done s | Raised _ s => s end.

Definition and_then {S : Type} (o : outcome S) (k : S -> outcome S)
  : outcome S :=
  match o with
  | Done s => k s
  | Raised e s => Raised e s
  end.

(** ** Python runtime: [int] and [float] *)

Module PyNum.

Import PrimFloat SpecFloat FloatOps.

(** A Python number: an [int] of any size or a [float], which is an IEEE
    754 binary64 value. *)
Inductive num : Type :=
| Int (z : Z)
| Float (f : float).

Arguments Int z%_Z.
Arguments Float f%_float.

(** A [float] result of a conversion or of a division of two [int]s:
    one that is too large raises. *)
Definition of_spec (sf : spec_float) : res float :=
  match sf with
  | S754_infinity _ => Raise OverflowError
  | _ => Ok (SF2Prim sf)
  end.

(** [float(z)] on an [int]: the nearest binary64 value, ties to even. *)
Definition float_of_int (z : Z) : res float :=
  of_spec (binary_normalize prec emax z 0 false).

(** The conversion of an operand when the other one is a [float]. *)
Definition to_float (a : num) : res float :=
  match a with
  | Int z => float_of_int z
  | Float f => Ok f
  end.

(** [a + b], [a - b], [a * b]: exact on two [int]s, in binary64
    otherwise. *)
Definition arith (zop : Z -> Z -> Z) (fop : float -> float -> float)
  (a b : num) : res num :=
  match a, b with
  | Int x, Int y => Ok (Int (zop x y))
  | _, _ => fa <- to_float a ;; fb <- to_float b ;; Ok (Float (fop fa fb))
  end.

Definition plus : num -> num -> res num := arith Z.add PrimFloat.add.
Definition minus : num -> num -> res num := arith Z.sub PrimFloat.sub.
Definition times : num -> num -> res num := arith Z.mul PrimFloat.mul.

Definition spec_of_int (z : Z) : spec_float :=
  match z with
  | Z0 => S754_zero false
  | Zpos p => S754_finite false p 0
  | Zneg p => S754_finite true p 0
  end.

(** [a / b]: on two [int]s the quotient rounded once to the nearest
    binary64 value, in binary64 otherwise; a zero divisor raises. *)
Definition truediv (a b : num) : res num :=
  match a, b with
  | Int x, Int y =>
      if Z.eqb y 0 then Raise ZeroDivisionError
      else
        f <- of_spec (SFdiv prec emax (spec_of_int x) (spec_of_int y)) ;;
        Ok (Float f)
  | _, _ =>
      fa <- to_float a ;; fb <- to_float b ;;
      if PrimFloat.eqb fb zero then Raise ZeroDivisionError
      else Ok (Float (PrimFloat.div fa fb))
  end.

(** The value of a finite binary64 number given as sign, mantissa and
    exponent, compared with an integer. *)
Definition int_lt_finite (z : Z) (s : bool) (m : positive) (e : Z) : bool :=
  let v := if s then Zneg m else Zpos m in
  match e with
  | Zneg k => Z.ltb (Z.shiftl z (Zpos k)) v
  | _ => Z.ltb z (Z.shiftl v e)
  end.

Definition finite_lt_int (s : bool) (m : positive) (e : Z) (z : Z) : bool :=
  let v := if s then Zneg m else Zpos m in
  match e with
  | Zneg k => Z.ltb v (Z.shiftl z (Zpos k))
  | _ => Z.ltb (Z.shiftl v e) z
  end.

(** [a < b]: two [float]s compare in binary64, an [int] and a [float]
    by their exact values; nothing is less than, or greater than, a
    NaN. *)
Definition less_than (a b : num) : bool :=
  match a, b with
  | Int x, Int y => Z.ltb x y
  | Float f, Float g => PrimFloat.ltb f g
  | Int x, Float g =>
      match Prim2SF g with
      | S754_nan => false
      | S754_infinity s => negb s
      | S754_zero _ => Z.ltb x 0
      | S754_finite s m e => int_lt_finite x s m e
      end
  | Float f, Int y =>
      match Prim2SF f with
      | S754_nan => false
      | S754_infinity s => s
      | S754_zero _ => Z.ltb 0 y
      | S754_finite s m e => finite_lt_int s m e y
      end
  end.

(** [int(a)]: truncation toward zero; an infinity and a NaN raise. *)
Definition to_int (a : num) : res Z :=
  match a with
  | Int z => Ok z
  | Float f =>
      match Prim2SF f with
      | S754_nan => Raise ValueError
      | S754_infinity _ => Raise OverflowError
      | S754_zero _ => Ok 0
      | S754_finite s m e =>
          let magnitude :=
            match e with
            | Zneg k => Z.shiftr (Zpos m) (Zpos k)
            | _ => Z.shiftl (Zpos m) e
            end in
          Ok (if s then - magnitude else magnitude)
      end
  end.

(** The rational a number stands for; an infinity and a NaN stand for
    none. *)
Definition exact (a : num) : option Q :=
  match a with
  | Int z => Some (inject_Z z)
  | Float f =>
      match Prim2SF f with
      | S754_zero _ => Some 0%Q
      | S754_finite s m e =>
          let q := match e with
                   | Zneg k => (Zpos m # (2 ^ k))%Q
                   | _ => inject_Z (Z.shiftl (Zpos m) e)
                   end in
          Some (if s then Qopp q else q)
      | _ => None
      end
  end.

End PyNum.

(** ** timer.py *)

Module Timer.

Import PrimFloat PyNum.

(** The part of the engine a [Timer] reads.  Numbers are Python's:
    [engine.current_time] counts nanoseconds, a tempo or a duration is
    an [int] or a [float], and every operation rounds as Python's does.
    An entry of [engine.tempo_map] is [(time, tempo, cycle length)]. *)
Record Engine : Type := mkEngine {
  current_time : num;
  engine_tempo : num;
  tempo_map : list (num * num * num)
}.

Record Timer : Type := mkTimer {
  start_time : num;
  tempo : num;
  end_time : num;
  is_beat_waiting : bool
}.

(** [Timer.__init__] *)
Definition init (engine : Engine) : Timer :=
  {| start_time := current_time engine;
     tempo := engine_tempo engine;
     end_time := current_time engine;
     is_beat_waiting := false |}.

(** [Timer.reset] *)
Definition reset (engine : Engine) (self : Timer) : Timer :=
  {| start_time := current_time engine;
     tempo := engine_tempo engine;
     end_time := current_time engine;
     is_beat_waiting := false |}.

(** [Timer.update_tempo] *)
Definition update_tempo (engine : Engine) (self : Timer) : res Timer :=
  let new_tempo := engine_tempo engine in
  if is_beat_waiting self then
    remaining_time <- minus (end_time self) (current_time engine) ;;
    tempo_ratio <- truediv new_tempo (tempo self) ;;
    scaled <- truediv remaining_time tempo_ratio ;;
    end_time' <- plus (current_time engine) scaled ;;
    Ok {| start_time := start_time self;
          tempo := new_tempo;
          end_time := end_time';
          is_beat_waiting := is_beat_waiting self |}
  else
    Ok {| start_time := start_time self;
          tempo := new_tempo;
          end_time := end_time self;
          is_beat_waiting := is_beat_waiting self |}.

(** *** [Timer.wait]

    The method is cut at its blocking loop: [wait_begin] is the code
    before the loop, [wait_poll] the loop, [wait_finish] the code after
    it.  The loop runs in the thread of a scene while the engine's
    thread goes on, so what the engine does to the timer between two
    tests is given to the loop with the clock. *)

(** [mode[0]] *)
Definition first_char (mode : string) : res ascii :=
  match mode with
  | EmptyString => Raise IndexError
  | String c _ => Ok c
  end.

Inductive begun : Type :=
| Blocking (self : Timer)      (* reached the polling loop *)
| Unrecognized (self : Timer). (* logged 'unrecognized mode', returned *)

(** The [if]/[elif] chain that rewrites [duration]; [None] is the [else]
    branch, which logs an error and returns. *)
Definition convert_duration (self : Timer) (duration : num) (mode : string)
  : res (option num) :=
  c <- first_char mode ;;
  if Ascii.eqb c "b" then
    d <- times duration (Float 60) ;;
    d <- truediv d (tempo self) ;;
    d <- times d (Int 1000000000) ;;
    Ok (Some d)
  else if Ascii.eqb c "s" then
    d <- times duration (Int 1000000000) ;;
    Ok (Some d)
  else if String.eqb mode "ns" then Ok (Some duration)
  else Ok None.

(** The code of [wait] before its loop. *)
Definition wait_begin (self : Timer) (duration : num) (mode : string)
  : res begun :=
  d <- convert_duration self duration mode ;;
  match d with
  | None => Ok (Unrecognized self)
  | Some duration =>
      end_time' <- plus (start_time self) duration ;;
      c <- first_char mode ;;
      Ok (Blocking
            {| start_time := start_time self;
               tempo := tempo self;
               end_time := end_time';
               is_beat_waiting :=
                 if Ascii.eqb c "b" then true else is_beat_waiting self |})
  end.

(** What the engine's thread has done when the loop of [wait] makes a
    test: the calls of [update_tempo] on this timer since the test
    before, each with the engine as it was at that call, and the
    [engine.current_time] the test reads. *)
Record tick : Type := mkTick {
  tempo_changes : list Engine;
  now : num
}.

(** The timer after calls of [update_tempo] made by the other thread; a
    call that raises there has assigned nothing. *)
Definition interfere (changes : list Engine) (self : Timer) : Timer :=
  fold_left
    (fun self engine =>
       match update_tempo engine self with
       | Ok self' => self'
       | Raise _ => self
       end)
    changes self.

Section Polling.

(** [config.MAINLOOP_PERIOD_NS] *)
Variable MAINLOOP_PERIOD_NS : num.

(** The test of the loop, which reads [self.end_time] anew. *)
Definition still_waiting (now : num) (self : Timer) : res bool :=
  limit <- minus (end_time self) MAINLOOP_PERIOD_NS ;;
  Ok (less_than now limit).

(** The loop of [wait], from its test number [k] on: the timer at the
    exit and the number of sleeps, or [None] when it is still looping
    after [fuel] tests. *)
Fixpoint wait_poll (fuel : nat) (ticks : nat -> tick) (k : nat)
  (self : Timer) : res (option (Timer * nat)) :=
  match fuel with
  | O => Ok None
  | S fuel' =>
      let self := interfere (tempo_changes (ticks k)) self in
      waiting <- still_waiting (now (ticks k)) self ;;
      if waiting then wait_poll fuel' ticks (S k) self
      else Ok (Some (self, k))
  end.

(** The code of [wait] after its loop. *)
Definition wait_finish (self : Timer) : Timer :=
  {| start_time := end_time self;
     tempo := tempo self;
     end_time := end_time self;
     is_beat_waiting := false |}.

Inductive wait_result : Type :=
| Completed (self : Timer) (sleeps : nat)
| NotStarted (self : Timer)
| StillBlocked.

Definition wait (fuel : nat) (ticks : nat -> tick) (self : Timer)
  (duration : num) (mode : string) : res wait_result :=
  b <- wait_begin self duration mode ;;
  match b with
  | Unrecognized s => Ok (NotStarted s)
  | Blocking s =>
      r <- wait_poll fuel ticks 0 s ;;
      match r with
      | Some (s', k) => Ok (Completed (wait_finish s') k)
      | None => Ok StillBlocked
      end
  end.

End Polling.

(** *** [Timer.get_current_beat] *)

Definition entry_time (e : num * num * num) : num := fst (fst e).
Definition entry_tempo (e : num * num * num) : num := snd (fst e).

(** The body of [for i in range(map_length)], with [current_beat] as the
    accumulator; the last entry is the one with no successor. *)
Fixpoint beat_loop (now : num) (entries : list (num * num * num))
  (current_beat : num) : res num :=
  match entries with
  | [] => Ok current_beat
  | e :: rest =>
      elapsed_time <-
        minus (match rest with
               | [] => now
               | next :: _ => entry_time next
               end) (entry_time e) ;;
      seconds <- truediv elapsed_time (Int 1000000000) ;;
      minutes <- truediv seconds (Int 60) ;;
      elapsed_beats <- times minutes (entry_tempo e) ;;
      current_beat <- plus current_beat elapsed_beats ;;
      beat_loop now rest current_beat
  end.

Definition get_current_beat (engine : Engine) : res Z :=
  current_beat <- beat_loop (current_time engine) (tempo_map engine) (Int 0) ;;
  to_int current_beat.

(** *** [Timer.get_current_cycle] *)

Definition entry_cycle (e : num * num * num) : num := snd e.

(** The body of the loop of [get_current_cycle], with [current_cycle]
    as the accumulator. *)
Fixpoint cycle_loop (now : num) (entries : list (num * num * num))
  (current_cycle : num) : res num :=
  match entries with
  | [] => Ok current_cycle
  | e :: rest =>
      elapsed_time <-
        minus (match rest with
               | [] => now
               | next :: _ => entry_time next
               end) (entry_time e) ;;
      seconds <- truediv elapsed_time (Int 1000000000) ;;
      minutes <- truediv seconds (Int 60) ;;
      elapsed_beats <- times minutes (entry_tempo e) ;;
      cycles <- truediv elapsed_beats (entry_cycle e) ;;
      current_cycle <- plus current_cycle cycles ;;
      cycle_loop now rest current_cycle
  end.

Definition get_current_cycle (engine : Engine) : res Z :=
  current_cycle <-
    cycle_loop (current_time engine) (tempo_map engine) (Int 0) ;;
  to_int current_cycle.

End Timer.

(** ** timer.py over exact rationals

    The timer's counting loops once more, with every number an exact
    rational and every operation without rounding. *)

Module TimerQ.

Local Open Scope Q_scope.

(** The part of the engine a [Timer] reads: [engine.current_time] (ns),
    [engine.tempo] (bpm) and [engine.tempo_map], a list of
    [(time, tempo, cycle length)] entries. *)
Record Engine : Type := mkEngine {
  current_time : Q;
  engine_tempo : Q;
  tempo_map : list (Q * Q * Q)
}.

Record Timer : Type := mkTimer {
  start_time : Q;
  tempo : Q;
  end_time : Q;
  is_beat_waiting : bool
}.

(** [Timer.__init__] *)
Definition init (engine : Engine) : Timer :=
  {| start_time := current_time engine;
     tempo := engine_tempo engine;
     end_time := current_time engine;
     is_beat_waiting := false |}.

Definition ns_per_s : Q := 1000000000.

(** *** [Timer.get_current_beat] *)

Definition entry_time (e : Q * Q * Q) : Q := fst (fst e).
Definition entry_tempo (e : Q * Q * Q) : Q := snd (fst e).

(** The body of [for i in range(map_length)], with [current_beat] as the
    accumulator; the last entry is the one with no successor. *)
Fixpoint beat_loop (now : Q) (entries : list (Q * Q * Q)) (current_beat : Q)
  : Q :=
  match entries with
  | [] => current_beat
  | e :: rest =>
      let elapsed_time :=
        match rest with
        | [] => now - entry_time e
        | next :: _ => entry_time next - entry_time e
        end in
      let elapsed_beats := elapsed_time / ns_per_s / 60 * entry_tempo e in
      beat_loop now rest (current_beat + elapsed_beats)
  end.

Definition get_current_beat (engine : Engine) : Z :=
  py_int (beat_loop (current_time engine) (tempo_map engine) 0).

End TimerQ.

(** *** Cycles and beat polling over exact rationals *)

Module TimerCycleQ.

Import TimerQ.
Local Open Scope Q_scope.

Definition entry_cycle (e : Q * Q * Q) : Q := snd e.

(** The body of the loop of [Timer.get_current_cycle], with
    [current_cycle] as the accumulator; dividing by a zero cycle length
    raises. *)
Fixpoint cycle_loop (now : Q) (entries : list (Q * Q * Q)) (current_cycle : Q)
  : res Q :=
  match entries with
  | [] => Ok current_cycle
  | e :: rest =>
      let elapsed_time :=
        match rest with
        | [] => now - entry_time e
        | next :: _ => entry_time next - entry_time e
        end in
      let elapsed_beats := elapsed_time / ns_per_s / 60 * entry_tempo e in
      cycles <- py_div elapsed_beats (entry_cycle e) ;;
      cycle_loop now rest (current_cycle + cycles)
  end.

(** [Timer.get_current_cycle] *)
Definition get_current_cycle (engine : Engine) : res Z :=
  c <- cycle_loop (current_time engine) (tempo_map engine) 0 ;;
  Ok (py_int c).



(** The loop of [Timer.wait_next_cycle]; a raising test ends it. *)
Fixpoint cycle_poll (fuel : nat) (start_cycle : Z) (engine_at : nat -> Engine)
  (k : nat) : option (res nat) :=
  match fuel with
  | O => None
  | S fuel' =>
      match get_current_cycle (engine_at k) with
      | Raise e => Some (Raise e)
      | Ok c =>
          if Z.eqb start_cycle c
          then cycle_poll fuel' start_cycle engine_at (S k)
          else Some (Ok k)
      end
  end.

(** [Timer.wait_next_cycle] *)
Definition wait_next_cycle (fuel : nat) (engine : Engine)
  (engine_at : nat -> Engine) (self : Timer) : option (res (Timer * nat)) :=
  match get_current_cycle engine with
  | Raise e => Some (Raise e)
  | Ok start_cycle =>
      match cycle_poll fuel start_cycle engine_at 0 with
      | Some (Ok k) =>
          Some (Ok ({| start_time := current_time (engine_at k);
                       tempo := tempo self;
                       end_time := end_time self;
                       is_beat_waiting := is_beat_waiting self |}, k))
      | Some (Raise e) => Some (Raise e)
      | None => None
      end
  end.

End TimerCycleQ.

(** ** midi.py *)

Module Midi.

(** The [pyalsa.alsaseq] event types the module names; [SEQ_EVENT_OTHER]
    stands for every other type of the sequencer. *)
Inductive event_type : Type :=
| SEQ_EVENT_NOTEON
| SEQ_EVENT_NOTEOFF
| SEQ_EVENT_CONTROLLER
| SEQ_EVENT_PGMCHANGE
| SEQ_EVENT_PITCHBEND
| SEQ_EVENT_SYSEX
| SEQ_EVENT_START
| SEQ_EVENT_STOP
| SEQ_EVENT_OTHER (code : nat).

Definition event_type_eqb (a b : event_type) : bool :=
  match a, b with
  | SEQ_EVENT_NOTEON, SEQ_EVENT_NOTEON
  | SEQ_EVENT_NOTEOFF, SEQ_EVENT_NOTEOFF
  | SEQ_EVENT_CONTROLLER, SEQ_EVENT_CONTROLLER
  | SEQ_EVENT_PGMCHANGE, SEQ_EVENT_PGMCHANGE
  | SEQ_EVENT_PITCHBEND, SEQ_EVENT_PITCHBEND
  | SEQ_EVENT_SYSEX, SEQ_EVENT_SYSEX
  | SEQ_EVENT_START, SEQ_EVENT_START
  | SEQ_EVENT_STOP, SEQ_EVENT_STOP => true
  | SEQ_EVENT_OTHER m, SEQ_EVENT_OTHER n => Nat.eqb m n
  | _, _ => false
  end.

(** [alsaseq.SeqEvent]: its type and the dict [set_data] stored, which
    [get_data] returns. *)
Record SeqEvent : Type := mkSeqEvent {
  type : event_type;
  data : list (string * value)
}.

Definition MIDI_TO_OSC : list (event_type * string) :=
  [ (SEQ_EVENT_NOTEON, "/note_on");
    (SEQ_EVENT_NOTEOFF, "/note_off");
    (SEQ_EVENT_CONTROLLER, "/control_change");
    (SEQ_EVENT_PGMCHANGE, "/program_change");
    (SEQ_EVENT_PITCHBEND, "/pitch_bend");
    (SEQ_EVENT_SYSEX, "/sysex");
    (SEQ_EVENT_START, "/start");
    (SEQ_EVENT_STOP, "/stop") ].

Definition OSC_TO_MIDI : list (string * event_type) :=
  [ ("/note_on", SEQ_EVENT_NOTEON);
    ("/note_off", SEQ_EVENT_NOTEOFF);
    ("/control_change", SEQ_EVENT_CONTROLLER);
    ("/program_change", SEQ_EVENT_PGMCHANGE);
    ("/pitch_bend", SEQ_EVENT_PITCHBEND);
    ("/sysex", SEQ_EVENT_SYSEX);
    ("/start", SEQ_EVENT_START);
    ("/stop", SEQ_EVENT_STOP) ].

Fixpoint midi_lookup (mtype : event_type) (d : list (event_type * string))
  : option string :=
  match d with
  | [] => None
  | (k, v) :: rest =>
      if event_type_eqb k mtype then Some v else midi_lookup mtype rest
  end.

(** The dict [midi_to_osc] returns. *)
Record osc : Type := mkOsc {
  address : string;
  args : value
}.

(** [midi_to_osc]; [Ok None] is [return None]. *)
Definition midi_to_osc (event : SeqEvent) : res (option osc) :=
  let mtype := type event in
  match midi_lookup mtype MIDI_TO_OSC with
  | None => Ok None
  | Some addr =>
      let data := data event in
      args <-
        match mtype with
        | SEQ_EVENT_NOTEON =>
            c <- subscript data "note.channel" ;;
            n <- subscript data "note.note" ;;
            v <- subscript data "note.velocity" ;;
            Ok (VList [c; n; v])
        | SEQ_EVENT_NOTEOFF =>
            c <- subscript data "note.channel" ;;
            n <- subscript data "note.note" ;;
            Ok (VList [c; n; VInt 0])
        | SEQ_EVENT_PITCHBEND | SEQ_EVENT_PGMCHANGE =>
            c <- subscript data "control.channel" ;;
            v <- subscript data "control.value" ;;
            Ok (VList [c; v])
        | SEQ_EVENT_SYSEX => subscript data "ext"
        | SEQ_EVENT_CONTROLLER =>
            c <- subscript data "control.channel" ;;
            p <- subscript data "control.param" ;;
            v <- subscript data "control.value" ;;
            Ok (VList [c; p; v])
        | _ => Ok (VList [])
        end ;;
      Ok (Some {| address := addr; args := args |})
  end.

Section OscToMidi.

(** [int(s)] on a string, a builtin of the language. *)
Variable int_of_str : string -> res Z.

(** [int(x)] *)
Definition int_of (x : value) : res Z :=
  match x with
  | VInt z => Ok z
  | VFloat q => Ok (py_int q)
  | VStr s => int_of_str s
  | VNone | VList _ | VTuple _ => Raise TypeError
  end.

Definition is_int (x : value) : bool :=
  match x with VInt _ => true | _ => false end.

Definition is_none (x : value) : bool :=
  match x with VNone => true | _ => false end.

(** [arg[1] if type(arg) is tuple else arg] *)
Definition untuple (arg : value) : res value :=
  match arg with
  | VTuple items => index items 1
  | _ => Ok arg
  end.

(** [osc_to_midi]; [Ok None] is [return None]. *)
Definition osc_to_midi (address : string) (args : list value)
  : res (option SeqEvent) :=
  match lookup address OSC_TO_MIDI with
  | None => Ok None
  | Some mtype =>
      args <- map_res untuple args ;;
      if existsb is_none args then Ok None
      else
        args <- (if negb (forallb is_int args)
                 then ints <- map_res int_of args ;; Ok (map VInt ints)
                 else Ok args) ;;
        data <-
          match mtype with
          | SEQ_EVENT_NOTEON =>
              a0 <- index args 0 ;; a1 <- index args 1 ;;
              a2 <- index args 2 ;;
              Ok [("note.channel", a0); ("note.note", a1);
                  ("note.velocity", a2)]
          | SEQ_EVENT_NOTEOFF =>
              a0 <- index args 0 ;; a1 <- index args 1 ;;
              Ok [("note.channel", a0); ("note.note", a1)]
          | SEQ_EVENT_PITCHBEND | SEQ_EVENT_PGMCHANGE =>
              a0 <- index args 0 ;; a1 <- index args 1 ;;
              Ok [("control.channel", a0); ("control.value", a1)]
          | SEQ_EVENT_SYSEX => Ok [("ext", VList args)]
          | SEQ_EVENT_CONTROLLER =>
              a0 <- index args 0 ;; a1 <- index args 1 ;;
              a2 <- index args 2 ;;
              Ok [("control.channel", a0); ("control.param", a1);
                  ("control.value", a2)]
          | _ => Ok []
          end ;;
        Ok (Some {| type := mtype; data := data |})
  end.

End OscToMidi.

End Midi.

(** ** parameter.py *)

Module Param.

(** Modelled from the spec: class [Parameter] of [mentat/parameter.py],
    which is not among the sources.  A parameter has a name, an optional
    address, one type tag per value slot, static values fixed at creation
    followed by the dynamic values, default value(s), a dirty flag, the
    last transmitted snapshot and an animation state. *)
Record parameter : Type := mkParameter {
  name : string;
  address : value;
  types : list ascii;
  static_args : list value;
  values : list value;
  default : value;
  dirty : bool;
  last_sent : value;
  animate_running : bool;
  animate_args : list value
}.

(** Modelled from the spec: the number of dynamic values is the number
    of type tags that are not taken by static values. *)
Definition n_args (p : parameter) : nat :=
  List.length (types p) - List.length (static_args p).

Definition with_values (vs : list value) (p : parameter) : parameter :=
  mkParameter (name p) (address p) (types p) (static_args p) vs (default p)
    (dirty p) (last_sent p) (animate_running p) (animate_args p).

Definition with_dirty (d : bool) (p : parameter) : parameter :=
  mkParameter (name p) (address p) (types p) (static_args p) (values p)
    (default p) d (last_sent p) (animate_running p) (animate_args p).

Definition with_last_sent (v : value) (p : parameter) : parameter :=
  mkParameter (name p) (address p) (types p) (static_args p) (values p)
    (default p) (dirty p) v (animate_running p) (animate_args p).

Definition with_animate_running (r : bool) (p : parameter) : parameter :=
  mkParameter (name p) (address p) (types p) (static_args p) (values p)
    (default p) (dirty p) (last_sent p) r (animate_args p).

(** Modelled from the spec: [get()] returns the current dynamic values,
    a single value or an ordered list. *)
Definition get (p : parameter) : value :=
  match values p with
  | [v] => v
  | vs => VList vs
  end.

(** Modelled from the spec: the message arguments, static values first. *)
Definition get_message_args (p : parameter) : list value :=
  static_args p ++ values p.

(** Modelled from the spec: [set_last_sent()] snapshots the current
    message arguments. *)
Definition set_last_sent (p : parameter) : parameter :=
  with_last_sent (VList (get_message_args p)) p.

(** Modelled from the spec: stopping an animation makes it idle. *)
Definition stop_animation (p : parameter) : parameter :=
  with_animate_running false p.

Section Coercion.

(** The coercion of a value to a type tag (numeric, string, or
    passthrough for the wildcard tag). *)
Variable cast : ascii -> value -> value.

(** Modelled from the spec: the slots of [set], one by one; the new
    value is coerced to the slot's type tag and stored when it differs
    from the current one, and the result tells whether a slot changed. *)
Fixpoint set_slots (tags : list ascii) (news olds : list value)
  : list value * bool :=
  match news, olds with
  | v :: news', old :: olds' =>
      let value := cast (hd "*"%char tags) v in
      let (rest, changed) := set_slots (tl tags) news' olds' in
      if value_eqb value old then (old :: rest, changed)
      else (value :: rest, true)
  | _, _ => (olds, false)
  end.

(** Modelled from the spec: [set(values...)] checks the number of values
    against the number of dynamic slots (a mismatch is logged and nothing
    is done), coerces each value to its type tag, and returns whether a
    slot changed. *)
Definition set (p : parameter) (vs : list value) : parameter * bool :=
  if negb (Nat.eqb (List.length vs) (n_args p)) then (p, false)
  else
    let (vs', changed) :=
      set_slots (skipn (List.length (static_args p)) (types p)) vs (values p) in
    (with_values vs' p, changed).

End Coercion.

End Param.

(** ** Mappings *)

Module Mapping.

(** Modelled from the spec: class [Mapping] of [mentat/parameter.py]:
    source and destination addresses (each a path of names), the
    transform, and the lock flag; [n_args] counts the destinations. *)
Record mapping : Type := mkMapping {
  src : list (list value);
  dest : list (list value);
  transform : list value -> res value;
  n_args : nat;
  locked : bool
}.

Definition with_locked (l : bool) (m : mapping) : mapping :=
  mkMapping (src m) (dest m) (transform m) (n_args m) l.

(** Modelled from the spec: [lock()] succeeds only if not already
    locked. *)
Definition lock (m : mapping) : mapping * bool :=
  if locked m then (m, false) else (with_locked true m, true).

(** Modelled from the spec: [unlock()] always clears the flag. *)
Definition unlock (m : mapping) : mapping := with_locked false m.

(** Modelled from the spec: [match(path)] holds when the path equals one
    of the source addresses; a bare name stands for the path of that one
    name. *)
Definition matches (updated_parameter : value) (m : mapping) : bool :=
  let path :=
    match updated_parameter with
    | VList items => items
    | n => [n]
    end in
  existsb (fun source => value_eqb (VList source) (VList path)) (src m).

End Mapping.

(** ** module.py *)

Module Mentat.

(** The part of the engine a module writes to: the clock, the queue of
    dirty modules (a module is named by its [module_path]), the modules
    with running animations and the outbound message queue. *)
Record engine : Type := mkEngine {
  current_time : Q;
  dirty_modules : list (list string);
  animating_modules : list (list string);
  message_queue : list (list value)
}.

(** Class [Module].  Dicts are kept as lists in insertion order, keyed by
    the [name] of their elements.  The queue [dirty_parameters] holds the
    queued parameter objects, the oldest first; an object is named here by
    its key in [parameters], which none of the methods below rebinds.
    [parent_module] is not a field: a method receives what it reads of
    the parent. *)
Inductive module : Type := mkModule {
  name : string;
  protocol : value;
  port : value;
  parameters : list Param.parameter;
  animations : list string;
  mappings : list Mapping.mapping;
  dirty_parameters : list string;
  dirty : bool;
  submodules : list module;
  aliases : list (string * string);
  module_path : list string
}.

(** What [send] reads of [self.parent_module]: its protocol and port;
    [None] when there is no parent. *)
Definition parent_view : Type := option (value * value).

Definition view_of (self : module) : parent_view :=
  Some (protocol self, port self).

Definition world : Type := (module * engine)%type.

Definition with_parameters (ps : list Param.parameter) (m : module) : module :=
  mkModule (name m) (protocol m) (port m) ps (animations m) (mappings m)
    (dirty_parameters m) (dirty m) (submodules m) (aliases m) (module_path m).

Definition with_animations (l : list string) (m : module) : module :=
  mkModule (name m) (protocol m) (port m) (parameters m) l (mappings m)
    (dirty_parameters m) (dirty m) (submodules m) (aliases m) (module_path m).

Definition with_dirty_parameters (q : list string) (m : module) : module :=
  mkModule (name m) (protocol m) (port m) (parameters m) (animations m)
    (mappings m) q (dirty m) (submodules m) (aliases m) (module_path m).

Definition with_dirty (d : bool) (m : module) : module :=
  mkModule (name m) (protocol m) (port m) (parameters m) (animations m)
    (mappings m) (dirty_parameters m) d (submodules m) (aliases m)
    (module_path m).

Definition with_mappings (ms : list Mapping.mapping) (m : module) : module :=
  mkModule (name m) (protocol m) (port m) (parameters m) (animations m) ms
    (dirty_parameters m) (dirty m) (submodules m) (aliases m) (module_path m).

Definition with_submodules (subs : list module) (m : module) : module :=
  mkModule (name m) (protocol m) (port m) (parameters m) (animations m)
    (mappings m) (dirty_parameters m) (dirty m) subs (aliases m)
    (module_path m).

Definition with_dirty_modules (q : list (list string)) (e : engine) : engine :=
  mkEngine (current_time e) q (animating_modules e) (message_queue e).

Definition with_message_queue (q : list (list value)) (e : engine) : engine :=
  mkEngine (current_time e) (dirty_modules e) (animating_modules e) q.

(** [self.parameters[n]] and [n in self.parameters] *)
Definition find_parameter (n : string) (self : module)
  : option Param.parameter :=
  find (fun p => String.eqb (Param.name p) n) (parameters self).

(** The parameter object of that name after a mutation. *)
Fixpoint replace_parameter (p' : Param.parameter) (ps : list Param.parameter)
  : list Param.parameter :=
  match ps with
  | [] => []
  | p :: rest =>
      if String.eqb (Param.name p) (Param.name p') then p' :: rest
      else p :: replace_parameter p' rest
  end.

Definition store (p' : Param.parameter) (self : module) : module :=
  with_parameters (replace_parameter p' (parameters self)) self.

(** [self.submodules[n]] *)
Definition find_submodule (n : string) (self : module) : option module :=
  find (fun sub => String.eqb (name sub) n) (submodules self).

Fixpoint replace_submodule (sub' : module) (subs : list module)
  : list module :=
  match subs with
  | [] => []
  | sub :: rest =>
      if String.eqb (name sub) (name sub') then sub' :: rest
      else sub :: replace_submodule sub' rest
  end.

(** [Module.send] *)
Definition send (parent : parent_view) (address : value) (args : list value)
  (self : module) (eng : engine) : engine :=
  let (proto, port) :=
    match parent with
    | Some parent_proto_port =>
        if negb (truthy (port self)) then parent_proto_port
        else (protocol self, port self)
    | None => (protocol self, port self)
    end in
  if truthy port
  then with_message_queue
         (message_queue eng ++ [proto :: port :: address :: args]) eng
  else eng.

(** [Module.set_dirty] *)
Definition set_dirty (w : world) : world :=
  let (self, eng) := w in
  if dirty self then w
  else (with_dirty true self,
        with_dirty_modules (dirty_modules eng ++ [module_path self]) eng).

(** *** The decorator [submodule_method] *)

Fixpoint has_char (c : ascii) (s : string) : bool :=
  match s with
  | EmptyString => false
  | String c' rest => Ascii.eqb c c' || has_char c rest
  end.

(** A name with a wildcard or a range: ['*' in name or '[' in name]. *)
Definition is_pattern (s : string) : bool := has_char "*" s || has_char "[" s.

Inductive target : Type :=
| Local
| Submodules (names : list string).

Section Methods.

(** The matching of a submodule name against a pattern with a wildcard
    or a bracketed range. *)
Variable fnmatch : string -> string -> bool.

(** [Parameter.cast] *)
Variable cast : ascii -> value -> value.

(** [Parameter.update_animation(current_time)]: the parameter after the
    step and whether its value changed. *)
Variable update_animation : Q -> Param.parameter -> Param.parameter * bool.

(** Modelled from the spec: target resolution of [utils.submodule_method],
    which is not among the sources.  A leading name that is a submodule
    name, or an alias of one, sends the call to that submodule with the
    remaining arguments; with pattern matching, a wildcard or range sends
    it to every submodule whose name matches; any other name leaves the
    call on the module itself. *)
Definition resolve (pattern_matching : bool) (self : module) (first : value)
  : target :=
  match first with
  | VStr s =>
      let s := match lookup s (aliases self) with
               | Some n => n
               | None => s
               end in
      let names := map name (submodules self) in
      if existsb (String.eqb s) names then Submodules [s]
      else if pattern_matching && is_pattern s
           then Submodules (filter (fnmatch s) names)
           else Local
  | _ => Local
  end.

(** [for n in names: method(self.submodules[n], ...)] *)
Fixpoint for_submodules (method : parent_view -> world -> outcome world)
  (names : list string) (w : world) : outcome world :=
  match names with
  | [] => Done w
  | n :: rest =>
      let (self, eng) := w in
      match find_submodule n self with
      | None => Raised KeyError w
      | Some sub =>
          match method (view_of self) (sub, eng) with
          | Done (sub', eng') =>
              for_submodules method rest
                (with_submodules (replace_submodule sub' (submodules self))
                   self, eng')
          | Raised e (sub', eng') =>
              Raised e
                (with_submodules (replace_submodule sub' (submodules self))
                   self, eng')
          end
      end
  end.

(** *** [Module.set] *)

(** The body of [set], lines 274-295. *)
Definition set_body (force_send preserve_animation : bool)
  (parent : parent_view) (args : list value) (w : world) : outcome world :=
  let (self, eng) := w in
  match args with
  | [] => Raised IndexError w
  | VStr n :: vals =>
      match find_parameter n self with
      | Some parameter =>
          let parameter :=
            if Param.animate_running parameter && negb preserve_animation
            then Param.stop_animation parameter
            else parameter in
          if force_send && truthy (Param.address parameter) then
            let parameter := fst (Param.set cast parameter vals) in
            let eng :=
              send parent (Param.address parameter)
                (Param.get_message_args parameter) self eng in
            let parameter := Param.set_last_sent parameter in
            Done (store parameter self, eng)
          else
            let (parameter, changed) := Param.set cast parameter vals in
            if changed && negb (Param.dirty parameter) then
              let parameter := Param.with_dirty true parameter in
              let self := store parameter self in
              let self :=
                with_dirty_parameters (dirty_parameters self ++ [n]) self in
              Done (set_dirty (self, eng))
            else Done (store parameter self, eng)
      | None => Done w
      end
  | first :: _ => if hashable first then Done w else Raised TypeError w
  end.

(** [set] as decorated by [submodule_method(pattern_matching=True)]. *)
Fixpoint set (args : list value) (force_send preserve_animation : bool)
  (parent : parent_view) (w : world) {struct args} : outcome world :=
  match args with
  | [] => Raised IndexError w
  | first :: rest =>
      match resolve true (fst w) first with
      | Local => set_body force_send preserve_animation parent args w
      | Submodules names =>
          for_submodules (set rest force_send preserve_animation) names w
      end
  end.

(** *** [Module.get] and [Module.get_parameter] *)

(** A method that returns a value, as decorated by
    [submodule_method(pattern_matching=False)]. *)
Fixpoint submodule_query {A : Type} (body : list value -> module -> res A)
  (args : list value) (self : module) {struct args} : res A :=
  match args with
  | [] => Raise IndexError
  | first :: rest =>
      match resolve false self first with
      | Submodules [n] =>
          match find_submodule n self with
          | Some sub => submodule_query body rest sub
          | None => Raise KeyError
          end
      | _ => body args self
      end
  end.

Definition get_parameter_body (args : list value) (self : module)
  : res (option Param.parameter) :=
  match args with
  | [] => Raise IndexError
  | VStr n :: _ => Ok (find_parameter n self)
  | first :: _ => if hashable first then Ok None else Raise TypeError
  end.

Definition get_parameter : list value -> module -> res (option Param.parameter)
  := submodule_query get_parameter_body.

(** The body of [get]: the value of the parameter, or [None] after the
    logged error. *)
Definition get_body (args : list value) (self : module) : res value :=
  p <- get_parameter_body args self ;;
  match p with
  | Some parameter => Ok (Param.get parameter)
  | None => Ok VNone
  end.

Definition get : list value -> module -> res value :=
  submodule_query get_body.

(** *** [Module.reset] *)

(** [reset(name)] with a name. *)
Definition reset_name (n : string) (parent : parent_view) (w : world)
  : outcome world :=
  match find_parameter n (fst w) with
  | Some parameter =>
      match Param.default parameter with
      | VNone => Done w
      | VList items => set (VStr n :: items) false false parent w
      | default => set [VStr n; default] false false parent w
      end
  | None => Done w
  end.

(** [for name in names: self.reset(name)] *)
Fixpoint reset_names (names : list string) (parent : parent_view) (w : world)
  : outcome world :=
  match names with
  | [] => Done w
  | n :: rest => and_then (reset_name n parent w) (reset_names rest parent)
  end.

(** Runs a method on every submodule, in dict order, stopping at the
    first that raises. *)
Fixpoint each_submodule (method : module -> engine -> outcome world)
  (subs : list module) (eng : engine) : outcome (list module * engine) :=
  match subs with
  | [] => Done ([], eng)
  | sub :: rest =>
      match method sub eng with
      | Done (sub', eng') =>
          match each_submodule method rest eng' with
          | Done (rest', eng'') => Done (sub' :: rest', eng'')
          | Raised e (rest', eng'') => Raised e (sub' :: rest', eng'')
          end
      | Raised e (sub', eng') => Raised e (sub' :: rest, eng')
      end
  end.

(** [reset()] without a name: the submodules first, then every parameter
    of the module. *)
Fixpoint reset_all (parent : parent_view) (self : module) (eng : engine)
  {struct self} : outcome world :=
  match each_submodule (reset_all (view_of self)) (submodules self) eng with
  | Done (subs, eng') =>
      reset_names (map Param.name (parameters self)) parent
        (with_submodules subs self, eng')
  | Raised e (subs, eng') => Raised e (with_submodules subs self, eng')
  end.

Definition reset (n : option string) (parent : parent_view) (w : world)
  : outcome world :=
  match n with
  | None => reset_all parent (fst w) (snd w)
  | Some n => reset_name n parent w
  end.

(** *** [Module.stop_animate] *)

(** The attributes of a [Module] instance: the methods of the class in
    module.py and the attributes its [__init__] binds. *)
Definition module_dir : list string :=
  [ "add_submodule"; "set_aliases"; "add_parameter"; "remove_parameter";
    "get"; "get_parameter"; "set"; "reset"; "animate"; "stop_animate";
    "update_animations"; "add_mapping"; "check_mappings"; "update_mapping";
    "add_alias_parameter"; "get_state"; "set_state"; "send_state"; "save";
    "load"; "route"; "set_animating"; "set_dirty";
    "update_dirty_parameters"; "send";
    "logger"; "name"; "engine"; "parent_module"; "protocol"; "port";
    "parameters"; "animations"; "mappings"; "dirty_parameters"; "dirty";
    "submodules"; "aliases"; "module_path"; "states"; "states_folder" ].

(** The attribute names a [Module] inherits from [Sequencer] and
    [EventEmitter], whose files are not among the sources. *)
Variable inherited_dir : list string.

(** [getattr(module, attr)] finds a name or raises. *)
Definition has_attribute (attr : string) : bool :=
  existsb (String.eqb attr) (module_dir ++ inherited_dir).

(** [self.parameters[n].stop_animation()] *)
Definition stop_parameter (n : string) (self : module) : res module :=
  match find_parameter n self with
  | Some parameter => Ok (store (Param.stop_animation parameter) self)
  | None => Raise KeyError
  end.

(** [for name in self.animations: self.parameters[name].stop_animation()] *)
Fixpoint stop_each (names : list string) (self : module) : outcome module :=
  match names with
  | [] => Done self
  | n :: rest =>
      match stop_parameter n self with
      | Ok self' => stop_each rest self'
      | Raise e => Raised e self
      end
  end.

(** [self.submodules[sname].stop_animation('*')]: the attribute is looked
    up on a [Module], which has the method [stop_animate] and binds no
    [stop_animation]; unless a base class provides the name, the lookup
    raises before anything is called.  What an inherited [stop_animation]
    would do is not part of this model. *)
Definition call_stop_animation (sub : module) (eng : engine)
  : outcome world :=
  if has_attribute "stop_animation" then Done (sub, eng)
  else Raised AttributeError (sub, eng).

(** The body of [stop_animate]. *)
Definition stop_animate_body (args : list value) (w : world)
  : outcome world :=
  let (self, eng) := w in
  match args with
  | [] => Raised IndexError w
  | first :: _ =>
      if value_eqb first (VStr "*") then
        match each_submodule call_stop_animation (submodules self) eng with
        | Done (subs, eng') =>
            let self := with_submodules subs self in
            match stop_each (animations self) self with
            | Done self' => Done (self', eng')
            | Raised e self' => Raised e (self', eng')
            end
        | Raised e (subs, eng') => Raised e (with_submodules subs self, eng')
        end
      else if existsb (value_eqb first) (map VStr (animations self)) then
        match first with
        | VStr n =>
            match stop_parameter n self with
            | Ok self' => Done (self', eng)
            | Raise e => Raised e w
            end
        | _ => Done w
        end
      else Done w
  end.

(** [stop_animate] as decorated by
    [submodule_method(pattern_matching=False)]. *)
Fixpoint stop_animate (args : list value) (parent : parent_view) (w : world)
  {struct args} : outcome world :=
  match args with
  | [] => Raised IndexError w
  | first :: rest =>
      match resolve false (fst w) first with
      | Local => stop_animate_body args w
      | Submodules names => for_submodules (stop_animate rest) names w
      end
  end.

(** *** [Module.update_animations] *)

(** [list.remove(x)]: drops the first occurrence. *)
Fixpoint remove_first (x : string) (l : list string) : list string :=
  match l with
  | [] => []
  | y :: rest => if String.eqb y x then rest else y :: remove_first x rest
  end.

(** One turn of [for name in self.animations] on the item [n]. *)
Definition animation_step (n : string) (w : world) : outcome world :=
  let (self, eng) := w in
  match find_parameter n self with
  | None => Raised KeyError w
  | Some parameter =>
      if Param.animate_running parameter then
        let (parameter, changed) :=
          update_animation (current_time eng) parameter in
        if changed && negb (Param.dirty parameter) then
          let parameter := Param.with_dirty true parameter in
          let self := store parameter self in
          let self :=
            with_dirty_parameters (dirty_parameters self ++ [n]) self in
          Done (set_dirty (self, eng))
        else Done (store parameter self, eng)
      else Done (with_animations (remove_first n (animations self)) self, eng)
  end.

(** The [for] loop over the list [self.animations], which the body
    mutates: the iterator keeps an index [i] into the list as it is at
    each turn and stops when the index is past its end.  The list never
    grows, so [fuel] turns suffice when [fuel] is its initial length. *)
Fixpoint animations_loop (fuel i : nat) (w : world) : outcome world :=
  match fuel with
  | O => Done w
  | S fuel' =>
      match nth_error (animations (fst w)) i with
      | None => Done w
      | Some n => and_then (animation_step n w) (animations_loop fuel' (S i))
      end
  end.

Fixpoint update_animations (self : module) (eng : engine) {struct self}
  : outcome world :=
  match each_submodule update_animations (submodules self) eng with
  | Done (subs, eng') =>
      let self := with_submodules subs self in
      animations_loop (List.length (animations self)) 0 (self, eng')
  | Raised e (subs, eng') => Raised e (with_submodules subs self, eng')
  end.

(** *** [Module.update_mapping] *)

(** [v[i]] on a value. *)
Definition item (v : value) (i : nat) : res value :=
  match v with
  | VList items | VTuple items => index items i
  | VStr s =>
      match String.get i s with
      | Some c => Ok (VStr (String c EmptyString))
      | None => Raise IndexError
      end
  | _ => Raise TypeError
  end.

(** The loop [for i in range(mapping.n_args)], from [i] on, [count]
    turns. *)
Fixpoint distribute (count i : nat) (mapping : Mapping.mapping)
  (dest_values : value) (parent : parent_view) (w : world) : outcome world :=
  match count with
  | O => Done w
  | S count' =>
      match item dest_values i, index (Mapping.dest mapping) i with
      | Raise e, _ | Ok _, Raise e => Raised e w
      | Ok val, Ok param =>
          let args :=
            match val with
            | VList items => (param ++ items)%list
            | _ => (param ++ [val])%list
            end in
          and_then (set args false false parent w)
            (distribute count' (S i) mapping dest_values parent)
      end
  end.

(** [update_mapping(mapping)]: the mapping is returned with the module,
    as the method locks and unlocks it. *)
Definition update_mapping (mapping : Mapping.mapping) (parent : parent_view)
  (w : world) : outcome (Mapping.mapping * world) :=
  let (mapping, locked) := Mapping.lock mapping in
  if locked then
    match map_res (fun param => get param (fst w)) (Mapping.src mapping) with
    | Raise e => Raised e (mapping, w)
    | Ok src_values =>
        match Mapping.transform mapping src_values with
        | Raise e => Raised e (mapping, w)
        | Ok dest_values =>
            let dest_values :=
              if Nat.eqb (Mapping.n_args mapping) 1
              then VList [dest_values] else dest_values in
            match distribute (Mapping.n_args mapping) 0 mapping dest_values
                    parent w with
            | Raised e w' => Raised e (mapping, w')
            | Done w' =>
                if negb (dirty (fst w'))
                then Done (Mapping.unlock mapping, w')
                else Done (mapping, w')
            end
        end
    end
  else Done (mapping, w).

(** *** [Module.check_mappings] and [Module.update_dirty_parameters] *)

(** [Parameter.should_send()] *)
Variable should_send : Param.parameter -> bool.

(** [self.parent_module.check_mappings(path)], as far as it acts on the
    module and on the engine. *)
Variable parent_check_mappings : list value -> world -> outcome world.

(** The mapping object at index [i] of [self.mappings] after a call. *)
Fixpoint replace_nth {A : Type} (i : nat) (x : A) (l : list A) : list A :=
  match l, i with
  | [], _ => []
  | _ :: rest, O => x :: rest
  | y :: rest, S i' => y :: replace_nth i' x rest
  end.

(** [for mapping in self.mappings], from index [i] on, [count] turns. *)
Fixpoint mappings_loop (count i : nat) (updated_parameter : value)
  (parent : parent_view) (w : world) : outcome world :=
  match count with
  | O => Done w
  | S count' =>
      match nth_error (mappings (fst w)) i with
      | None => Done w
      | Some mapping =>
          if Mapping.matches updated_parameter mapping then
            match update_mapping mapping parent w with
            | Done (mapping', (self', eng')) =>
                mappings_loop count' (S i) updated_parameter parent
                  (with_mappings (replace_nth i mapping' (mappings self'))
                     self', eng')
            | Raised e (mapping', (self', eng')) =>
                Raised e
                  (with_mappings (replace_nth i mapping' (mappings self'))
                     self', eng')
            end
          else mappings_loop count' (S i) updated_parameter parent w
      end
  end.

(** [check_mappings(updated_parameter)] *)
Definition check_mappings (updated_parameter : value) (parent : parent_view)
  (w : world) : outcome world :=
  and_then
    (mappings_loop (List.length (mappings (fst w))) 0 updated_parameter
       parent w)
    (fun w' =>
       match parent with
       | None => Done w'
       | Some _ =>
           let path :=
             match updated_parameter with
             | VList items => items
             | n => [n]
             end in
           parent_check_mappings (VStr (name (fst w')) :: path) w'
       end).

(** [parameter.dirty = False] on the parameter taken from the queue. *)
Definition clear_dirty (n : string) (self : module) : module :=
  match find_parameter n self with
  | Some parameter => store (Param.with_dirty false parameter) self
  | None => self
  end.

(** The loop [while not self.dirty_parameters.empty()]; [None] when it
    is still running after [fuel] turns. *)
Fixpoint drain (fuel : nat) (parent : parent_view) (w : world)
  : option (outcome world) :=
  match fuel with
  | O => None
  | S fuel' =>
      let (self, eng) := w in
      match dirty_parameters self with
      | [] => Some (Done w)
      | n :: queue =>
          let self := with_dirty_parameters queue self in
          match find_parameter n self with
          | None => Some (Raised KeyError (self, eng))
          | Some parameter =>
              let sent :=
                if should_send parameter then
                  let eng :=
                    if truthy (Param.address parameter)
                    then send parent (Param.address parameter)
                           (Param.get_message_args parameter) self eng
                    else eng in
                  let self := store (Param.set_last_sent parameter) self in
                  check_mappings (VStr n) parent (self, eng)
                else Done (self, eng) in
              match sent with
              | Done (self, eng) => drain fuel' parent (clear_dirty n self, eng)
              | Raised e w' => Some (Raised e w')
              end
          end
      end
  end.

(** [update_dirty_parameters()] *)
Definition update_dirty_parameters (fuel : nat) (parent : parent_view)
  (w : world) : option (outcome world) :=
  match drain fuel parent w with
  | Some (Done (self, eng)) =>
      let self := with_mappings (map Mapping.unlock (mappings self)) self in
      Some (Done (with_dirty false self, eng))
  | r => r
  end.

(** *** [Module.get_state], [Module.set_state], [Module.send_state] *)

(** The entry [[name, *val]] or [[name, val]] of a parameter. *)
Definition state_entry (p : Param.parameter) : value :=
  match Param.get p with
  | VList items => VList (VStr (Param.name p) :: items)
  | val => VList [VStr (Param.name p); val]
  end.

(** [[name] + x] *)
Definition prefixed (n : string) (x : value) : value :=
  match x with
  | VList items => VList (VStr n :: items)
  | _ => x
  end.

Fixpoint get_state (omit_defaults : bool) (self : module) {struct self}
  : list value :=
  (flat_map
     (fun p =>
        if omit_defaults && value_eqb (Param.get p) (Param.default p)
        then [] else [state_entry p])
     (parameters self)
   ++ flat_map
        (fun sub => map (prefixed (name sub)) (get_state omit_defaults sub))
        (submodules self))%list.

Fixpoint set_state (state : list value) (force_send : bool)
  (parent : parent_view) (w : world) : outcome world :=
  match state with
  | [] => Done w
  | VList data :: rest =>
      and_then (set data force_send false parent w)
        (set_state rest force_send parent)
  | _ :: rest => set_state rest force_send parent w
  end.

Definition send_state (parent : parent_view) (w : world) : outcome world :=
  set_state (get_state false (fst w)) true parent w.

End Methods.

End Mentat.

(** *** Registration, animation start and mapping creation *)

Module MentatRest.

Import Mentat.

Definition with_animating_modules (l : list (list string)) (e : engine)
  : engine :=
  mkEngine (current_time e) (dirty_modules e) l (message_queue e).

Definition path_eqb (a b : list string) : bool :=
  if list_eq_dec string_dec a b then true else false.

(** [Module.set_animating]; the engine's list names a module by its
    [module_path]. *)
Definition set_animating (w : world) : world :=
  let (self, eng) := w in
  if existsb (path_eqb (module_path self)) (animating_modules eng) then w
  else (self,
        with_animating_modules
          (animating_modules eng ++ [module_path self]) eng).

(** *** [Module.add_submodule] *)

(** The submodule after [add_submodule] has filled in what it lacks. *)
Definition adopted (self module : module) : Mentat.module :=
  mkModule (name module)
    (match protocol module with VNone => protocol self | proto => proto end)
    (match port module with VNone => port self | po => po end)
    (parameters module) (animations module) (mappings module)
    (dirty_parameters module) (dirty module) (submodules module)
    (aliases module) (module_path module).

(** [self.submodules[module.name] = module]: a known key keeps its
    place, a new one goes last. *)
Fixpoint bind_submodule (module : module) (subs : list Mentat.module)
  : list Mentat.module :=
  match subs with
  | [] => [module]
  | sub :: rest =>
      if String.eqb (name sub) (name module) then module :: rest
      else sub :: bind_submodule module rest
  end.

Definition add_submodule (modules : list module) (self : module) : module :=
  fold_left
    (fun self module =>
       with_submodules
         (bind_submodule (adopted self module) (submodules self)) self)
    modules self.

(** *** [Module.remove_parameter] *)

(** [del self.parameters[name]] *)
Fixpoint unbind_parameter (n : string) (ps : list Param.parameter)
  : list Param.parameter :=
  match ps with
  | [] => []
  | p :: rest =>
      if String.eqb (Param.name p) n then rest
      else p :: unbind_parameter n rest
  end.

(** The two [if] statements that end [remove_parameter]. *)
Definition remove_named (n : string) (self : module) : module :=
  let self :=
    match find_parameter n self with
    | Some _ => with_parameters (unbind_parameter n (parameters self)) self
    | None => self
    end in
  if existsb (String.eqb n) (animations self)
  then with_animations (remove_first n (animations self)) self
  else self.

(** [remove_parameter(name)]: with ['*'] the method calls itself for
    every key, also for a key that is ['*'] itself; [depth] bounds the
    nesting of calls, and [None] is a call that is still descending when
    the bound is reached. *)
Fixpoint remove_parameter (depth : nat) (n : string) (self : module)
  : option module :=
  match depth with
  | O => None
  | S depth' =>
      if String.eqb n "*" then
        fold_left
          (fun acc key =>
             match acc with
             | Some self => remove_parameter depth' key self
             | None => None
             end)
          (map Param.name (parameters self)) (Some self)
      else Some (remove_named n self)
  end.

Section Animate.

Variable fnmatch : string -> string -> bool.

(** Modelled from the spec: [Parameter.start_animation(engine, ...)] of
    mentat/parameter.py, not among the sources: the parameter after the
    call, which is running unless the arguments were refused. *)
Variable start_animation :
  engine -> list value -> Param.parameter -> Param.parameter.

(** The body of [animate]. *)
Definition animate_body (args : list value) (w : world) : outcome world :=
  let (self, eng) := w in
  match args with
  | [] => Raised IndexError w
  | VStr n :: rest =>
      match find_parameter n self with
      | Some parameter =>
          let parameter := start_animation eng rest parameter in
          let self := store parameter self in
          if Param.animate_running parameter then
            let self :=
              if existsb (String.eqb n) (animations self) then self
              else with_animations (animations self ++ [n]) self in
            Done (set_animating (self, eng))
          else Done (self, eng)
      | None => Done w
      end
  | first :: _ => if hashable first then Done w else Raised TypeError w
  end.

(** [animate] as decorated by [submodule_method(pattern_matching=True)]. *)
Fixpoint animate (args : list value) (parent : parent_view) (w : world)
  {struct args} : outcome world :=
  match args with
  | [] => Raised IndexError w
  | first :: rest =>
      match resolve fnmatch true (fst w) first with
      | Local => animate_body args w
      | Submodules names => for_submodules (animate rest) names w
      end
  end.

End Animate.

Section AddMapping.

Variable fnmatch : string -> string -> bool.
Variable cast : ascii -> value -> value.

(** Modelled from the spec: the constructor [Mapping(src, dest,
    transform)] of mentat/parameter.py, not among the sources, given
    addresses that are lists of paths already: a new mapping is unlocked
    and counts its destinations. *)
Definition new_mapping (src dest : list (list value))
  (transform : list value -> res value) : Mapping.mapping :=
  Mapping.mkMapping src dest transform (List.length dest) false.

(** The loop over [mapping.src + mapping.dest]: [false] when it returns
    because a parameter is missing. *)
Fixpoint dependencies_exist (paths : list (list value)) (self : module)
  : res bool :=
  match paths with
  | [] => Ok true
  | p :: rest =>
      found <- get_parameter fnmatch p self ;;
      match found with
      | None => Ok false
      | Some _ => dependencies_exist rest self
      end
  end.

(** The end of [add_mapping], after the mapping, which is at index [i]
    of [self.mappings], was appended and the inverse was added. *)
Definition first_update (i : nat) (mapping : Mapping.mapping)
  (parent : parent_view) (w : world) : outcome world :=
  match dependencies_exist (Mapping.src mapping ++ Mapping.dest mapping)
          (fst w) with
  | Raise e => Raised e w
  | Ok false => Done w
  | Ok true =>
      match update_mapping fnmatch cast mapping parent w with
      | Done (mapping', (self', eng')) =>
          Done (with_mappings (replace_nth i mapping' (mappings self')) self',
                eng')
      | Raised e (mapping', (self', eng')) =>
          Raised e
            (with_mappings (replace_nth i mapping' (mappings self')) self',
             eng')
      end
  end.

(** [add_mapping(src, dest, transform, None)] *)
Definition add_one_mapping (src dest : list (list value))
  (transform : list value -> res value) (parent : parent_view) (w : world)
  : outcome world :=
  let (self, eng) := w in
  let mapping := new_mapping src dest transform in
  let i := List.length (mappings self) in
  first_update i mapping parent
    (with_mappings (mappings self ++ [mapping]) self, eng).

(** [add_mapping(src, dest, transform, inverse)] *)
Definition add_mapping (src dest : list (list value))
  (transform : list value -> res value)
  (inverse : option (list value -> res value)) (parent : parent_view)
  (w : world) : outcome world :=
  let (self, eng) := w in
  let mapping := new_mapping src dest transform in
  let i := List.length (mappings self) in
  let w := (with_mappings (mappings self ++ [mapping]) self, eng) in
  match inverse with
  | None => first_update i mapping parent w
  | Some inverse =>
      and_then (add_one_mapping dest src inverse parent w)
        (first_update i mapping parent)
  end.

End AddMapping.

End MentatRest.

(** * Properties *)

(** ** Facts about the Python runtime model *)

Lemma py_div_ok (a b : Q) : ~ (b == 0)%Q -> py_div a b = Ok (a / b)%Q.
Proof.
  intros Hb. unfold py_div.
  destruct (Qeq_bool b 0) eqn:E; [|reflexivity].
  apply Qeq_bool_iff in E. contradiction.
Qed.


Lemma value_eqb_refl : forall v, value_eqb v v = true.
Proof.
  fix IH 1. intros [| z | q | s | items | items]; cbn [value_eqb].
  - reflexivity.
  - apply Z.eqb_refl.
  - apply Qeq_bool_iff. reflexivity.
  - apply String.eqb_refl.
  - revert items. fix IHl 1. intros [|x items]; [reflexivity|].
    rewrite (IH x), (IHl items). reflexivity.
  - revert items. fix IHl 1. intros [|x items]; [reflexivity|].
    rewrite (IH x), (IHl items). reflexivity.
Qed.

(** ** timer.py *)

Module TimerFacts.

Import PrimFloat PyNum Timer.

(** *** What the operations raise *)

Definition arithmetic_error (e : exn) : Prop :=
  e = ZeroDivisionError \/ e = OverflowError.

Lemma of_spec_raises (sf : SpecFloat.spec_float) (e : exn) :
  of_spec sf = Raise e -> e = OverflowError.
Proof. destruct sf; cbn; intros H; inversion H; reflexivity. Qed.

Lemma to_float_raises (a : num) (e : exn) :
  to_float a = Raise e -> e = OverflowError.
Proof.
  destruct a; cbn [to_float]; [apply of_spec_raises|discriminate].
Qed.

Lemma arith_raises (zop : Z -> Z -> Z) (fop : float -> float -> float)
  (a b : num) (e : exn) :
  arith zop fop a b = Raise e -> e = OverflowError.
Proof.
  unfold arith.
  assert (Hboth : forall a b,
    (fa <- to_float a ;; fb <- to_float b ;; Ok (Float (fop fa fb)))
    = Raise e -> e = OverflowError).
  { intros a' b'. destruct (to_float a') as [fa|ea] eqn:Ea; cbn [bind].
    - destruct (to_float b') as [fb|eb] eqn:Eb; cbn [bind];
        [discriminate|].
      intros H. injection H as <-. exact (to_float_raises _ _ Eb).
    - intros H. injection H as <-. exact (to_float_raises _ _ Ea). }
  destruct a as [x|f], b as [y|g]; try discriminate; apply Hboth.
Qed.

Lemma truediv_raises (a b : num) (e : exn) :
  truediv a b = Raise e -> arithmetic_error e.
Proof.
  unfold truediv, arithmetic_error.
  assert (Hmixed : forall a b,
    (fa <- to_float a ;; fb <- to_float b ;;
     if PrimFloat.eqb fb zero then Raise ZeroDivisionError
     else Ok (Float (PrimFloat.div fa fb))) = Raise e ->
    e = ZeroDivisionError \/ e = OverflowError).
  { intros a' b'. destruct (to_float a') as [fa|ea] eqn:Ea; cbn [bind].
    - destruct (to_float b') as [fb|eb] eqn:Eb; cbn [bind].
      + destruct (PrimFloat.eqb fb zero);
          [intros H; injection H as <-; auto|discriminate].
      + intros H. injection H as <-. right.
        exact (to_float_raises _ _ Eb).
    - intros H. injection H as <-. right. exact (to_float_raises _ _ Ea). }
  destruct a as [x|f], b as [y|g]; try apply Hmixed.
  destruct (Z.eqb y 0); [intros H; injection H as <-; auto|].
  destruct (of_spec _) eqn:E; cbn [bind]; [discriminate|].
  intros H. injection H as <-. right. exact (of_spec_raises _ _ E).
Qed.

(** *** [update_tempo] *)

(** C3, as the code has it: a timer that is not in a beat wait takes
    the engine's tempo and nothing else changes; a timer in a beat wait
    either raises (a division by zero, or an [int] too large for a
    [float]) or gets the engine's tempo and the [end_time]
    [current_time + remaining_time / (new_tempo / old_tempo)], each
    operation being Python's on binary64 numbers, in this order, with
    [remaining_time = end_time - current_time]. *)
Theorem update_tempo_divides_by_ratio (engine : Engine) (self : Timer) :
  (is_beat_waiting self = false ->
   update_tempo engine self
   = Ok (mkTimer (start_time self) (engine_tempo engine) (end_time self)
           false)) /\
  (is_beat_waiting self = true ->
   match update_tempo engine self with
   | Ok self' =>
       tempo self' = engine_tempo engine /\
       start_time self' = start_time self /\
       is_beat_waiting self' = true /\
       exists remaining_time tempo_ratio scaled,
         minus (end_time self) (current_time engine) = Ok remaining_time /\
         truediv (engine_tempo engine) (tempo self) = Ok tempo_ratio /\
         truediv remaining_time tempo_ratio = Ok scaled /\
         plus (current_time engine) scaled = Ok (end_time self')
   | Raise e => arithmetic_error e
   end).
Proof.
  unfold update_tempo. split; intros Hb; rewrite Hb; [reflexivity|].
  destruct (minus (end_time self) (current_time engine))
    as [remaining_time|e] eqn:E1; cbn [bind];
    [|right; exact (arith_raises _ _ _ _ _ E1)].
  destruct (truediv (engine_tempo engine) (tempo self))
    as [tempo_ratio|e] eqn:E2; cbn [bind];
    [|exact (truediv_raises _ _ _ E2)].
  destruct (truediv remaining_time tempo_ratio) as [scaled|e] eqn:E3;
    cbn [bind]; [|exact (truediv_raises _ _ _ E3)].
  destruct (plus (current_time engine) scaled) as [end_time'|e] eqn:E4;
    cbn [bind]; [|right; exact (arith_raises _ _ _ _ _ E4)].
  cbn [tempo start_time is_beat_waiting end_time].
  repeat split. exists remaining_time, tempo_ratio, scaled.
  repeat split; assumption.
Qed.

(** A 4-beat wait begun at time 0 and tempo 120, which ends at 2 s; the
    engine is at 1 s when the tempo becomes 60. *)
Definition four_beats : Timer := mkTimer (Int 0) (Int 120) (Float 2e9) true.
Definition tempo_drops : Engine := mkEngine (Int 1000000000) (Int 60) [].

(** The beats that [ns] nanoseconds last at [bpm], as [get_current_beat]
    converts them. *)
Definition beats_in (ns bpm : num) : res num :=
  seconds <- truediv ns (Int 1000000000) ;;
  minutes <- truediv seconds (Int 60) ;;
  times minutes bpm.

Lemma update_tempo_divides_by_ratio_witness :
  exists self',
    update_tempo tempo_drops four_beats = Ok self' /\
    tempo self' = Int 60 /\
    end_time self' = Float 3e9 /\
    minus (end_time four_beats) (current_time tempo_drops) = Ok (Float 1e9) /\
    minus (end_time self') (current_time tempo_drops) = Ok (Float 2e9) /\
    beats_in (Float 1e9) (tempo four_beats) = Ok (Float 2) /\
    beats_in (Float 2e9) (tempo self') = Ok (Float 2).
Proof.
  pose proof (proj2 (update_tempo_divides_by_ratio tempo_drops four_beats)
                eq_refl) as H.
  destruct (update_tempo tempo_drops four_beats) as [self'|e] eqn:E.
  - destruct H as [Htempo _]. exists self'.
    split; [reflexivity|]. split; [exact Htempo|].
    vm_compute in E. injection E as <-.
    repeat split; vm_compute; reflexivity.
  - vm_compute in E. discriminate E.
Defined.

(** The product [current_time + remaining_time * (old_tempo /
    new_tempo)], in Python's arithmetic. *)
Definition times_inverse_ratio (engine : Engine) (self : Timer) : res num :=
  remaining_time <- minus (end_time self) (current_time engine) ;;
  inverse_ratio <- truediv (tempo self) (engine_tempo engine) ;;
  scaled <- times remaining_time inverse_ratio ;;
  plus (current_time engine) scaled.

(** C3, as stated, fails: one second is left of a beat wait at tempo 60
    when the tempo becomes 125.  The product [remaining_time *
    (old_tempo / new_tempo)] is 480000000 ns, exactly and in binary64;
    the code divides by [new_tempo / old_tempo] and ends the wait at
    another binary64 number, 479999999.99999994 ns.  When the tempo
    becomes 90 instead, the one beat that was left is less than a beat
    afterwards.  And when the tempo becomes 0 the call raises, so that
    no tempo is stored. *)
Lemma update_tempo_rounds_otherwise :
  let self := mkTimer (Int 0) (Int 60) (Int 1000000000) true in
  let engine := mkEngine (Int 0) (Int 125) [] in
  (exists self' q,
     update_tempo engine self = Ok self' /\
     times_inverse_ratio engine self = Ok (Float 480000000) /\
     end_time self' <> Float 480000000 /\
     exact (end_time self') = Some q /\
     (q < 0 + 1000000000 * (60 / 125))%Q) /\
  (exists self' remaining beats,
     update_tempo (mkEngine (Int 0) (Int 90) []) self = Ok self' /\
     minus (end_time self') (Int 0) = Ok remaining /\
     beats_in (Int 1000000000) (tempo self) = Ok (Float 1) /\
     beats_in remaining (tempo self') = Ok beats /\
     less_than beats (Float 1) = true) /\
  update_tempo (mkEngine (Int 0) (Int 0) []) self = Raise ZeroDivisionError.
Proof.
  cbv zeta. split; [|split; [|vm_compute; reflexivity]].
  - eexists. eexists.
    split; [vm_compute; reflexivity|].
    split; [vm_compute; reflexivity|].
    split; [vm_compute; intros H; discriminate H|].
    split; [vm_compute; reflexivity|].
    vm_compute. reflexivity.
  - do 3 eexists. repeat split; vm_compute; reflexivity.
Qed.

(** X1 (update_tempo, errors): with timestamps and tempos that are
    [float]s, [update_tempo] raises exactly when the timer is in a beat
    wait and its own tempo, or the quotient of the engine's tempo by it,
    is zero, and what it raises is [ZeroDivisionError]; the quotient is
    also zero when it underflows, with both tempos other than zero. *)
Theorem update_tempo_raises_iff (now new_tempo : float)
  (map : list (num * num * num)) (start old_tempo stop : float)
  (waiting : bool) :
  let engine := mkEngine (Float now) (Float new_tempo) map in
  let self := mkTimer (Float start) (Float old_tempo) (Float stop) waiting in
  if waiting
     && (PrimFloat.eqb old_tempo zero
         || PrimFloat.eqb (PrimFloat.div new_tempo old_tempo) zero)
  then update_tempo engine self = Raise ZeroDivisionError
  else exists self', update_tempo engine self = Ok self'.
Proof.
  cbv zeta. unfold update_tempo.
  cbn [is_beat_waiting end_time current_time engine_tempo tempo start_time].
  destruct waiting; cbn [andb]; [|eexists; reflexivity].
  cbn [minus arith to_float bind truediv plus].
  destruct (PrimFloat.eqb old_tempo zero); cbn [orb bind]; [reflexivity|].
  cbn [to_float bind].
  destruct (PrimFloat.eqb (PrimFloat.div new_tempo old_tempo) zero);
    cbn [bind]; [reflexivity|].
  eexists. reflexivity.
Qed.

(** The tempo goes from 2^600 to 2^-600 during a beat wait: the
    quotient underflows to zero. *)
Lemma update_tempo_raises_iff_witness :
  PrimFloat.eqb 0x1p-600 zero = false /\
  PrimFloat.eqb 0x1p+600 zero = false /\
  update_tempo (mkEngine (Float 1e9) (Float 0x1p-600) [])
    (mkTimer (Float 0) (Float 0x1p+600) (Float 2e9) true)
  = Raise ZeroDivisionError.
Proof.
  split; [reflexivity|]. split; [reflexivity|].
  exact (update_tempo_raises_iff 1e9 0x1p-600 [] 0 0x1p+600 2e9 true).
Defined.

(** *** [get_current_beat] *)

(** The segments of a tempo map as the documentation words them: every
    entry opens a segment that lasts until the next entry, the last one
    until [now]; a segment is [(start, stop, tempo)]. *)
Fixpoint segments (now : num) (entries : list (num * num * num))
  : list (num * num * num) :=
  match entries with
  | [] => []
  | e :: rest =>
      (entry_time e,
       match rest with [] => now | next :: _ => entry_time next end,
       entry_tempo e) :: segments now rest
  end.

(** The beats of a segment: its seconds, divided by 60, times its
    tempo. *)
Definition segment_beats (seg : num * num * num) : res num :=
  let '(start, stop, bpm) := seg in
  elapsed <- minus stop start ;;
  beats_in elapsed bpm.

(** The sum of the segments' beats, from 0, in the order of the map. *)
Definition add_segments (segs : list (num * num * num)) (from : res num)
  : res num :=
  fold_left
    (fun total seg =>
       total <- total ;; beats <- segment_beats seg ;; plus total beats)
    segs from.

Lemma add_segments_raise (segs : list (num * num * num)) (e : exn) :
  add_segments segs (Raise e) = Raise e.
Proof. induction segs as [|seg segs IH]; [reflexivity|exact IH]. Qed.

Lemma beat_loop_adds (now : num) (entries : list (num * num * num)) :
  forall current_beat,
    beat_loop now entries current_beat
    = add_segments (segments now entries) (Ok current_beat).
Proof.
  induction entries as [|e rest IH]; intros current_beat; [reflexivity|].
  cbn [beat_loop segments add_segments fold_left bind segment_beats].
  unfold beats_in.
  destruct (minus _ (entry_time e)) as [elapsed|x]; cbn [bind];
    [|symmetry; apply add_segments_raise].
  destruct (truediv elapsed (Int 1000000000)) as [seconds|x]; cbn [bind];
    [|symmetry; apply add_segments_raise].
  destruct (truediv seconds (Int 60)) as [minutes|x]; cbn [bind];
    [|symmetry; apply add_segments_raise].
  destruct (times minutes (entry_tempo e)) as [beats|x]; cbn [bind];
    [|symmetry; apply add_segments_raise].
  destruct (plus current_beat beats) as [total|x]; cbn [bind];
    [|symmetry; apply add_segments_raise].
  apply IH.
Qed.

(** [int()] of a number that is not negative is the floor of its
    value. *)
Lemma to_int_floor (a : num) (q : Q) :
  exact a = Some q -> (0 <= q)%Q -> to_int a = Ok (Qfloor q).
Proof.
  destruct a as [z|f]; cbn [exact to_int].
  - intros H _. injection H as <-. rewrite Qfloor_Z. reflexivity.
  - destruct (FloatOps.Prim2SF f) as [s|s| |s m e]; try discriminate.
    + intros H _. injection H as <-. reflexivity.
    + intros H Hq. injection H as <-.
      destruct s.
      * exfalso.
        assert (Hpow : forall p, 0 < 2 ^ Zpos p)
          by (intros p; apply Z.pow_pos_nonneg; lia).
        destruct e as [|p|p]; unfold Qle, Qopp, inject_Z in Hq;
          cbn [Qnum Qden] in Hq;
          rewrite ?Z.shiftl_mul_pow2 in Hq by lia;
          try specialize (Hpow p); nia.
      * f_equal. destruct e as [|p|p].
        -- rewrite Qfloor_Z. reflexivity.
        -- rewrite Qfloor_Z. reflexivity.
        -- unfold Qfloor. cbn [Qnum Qden].
           rewrite Z.shiftr_div_pow2 by lia.
           rewrite Pos2Z.inj_pow. reflexivity.
Qed.

(** C4, as the code has it: [get_current_beat] adds, from 0 and in the
    order of the map, the beats of every segment, each computed as
    [elapsed / 1000000000 / 60 * tempo] in Python's arithmetic on
    binary64 numbers, and returns [int()] of the sum, which is the floor
    of the sum's value when the sum is not negative; it raises what
    these operations raise. *)
Theorem get_current_beat_adds_segments (engine : Engine) :
  get_current_beat engine
  = (total <- add_segments
                (segments (current_time engine) (tempo_map engine))
                (Ok (Int 0)) ;;
     to_int total) /\
  forall total q,
    add_segments (segments (current_time engine) (tempo_map engine))
      (Ok (Int 0)) = Ok total ->
    exact total = Some q -> (0 <= q)%Q ->
    get_current_beat engine = Ok (Qfloor q).
Proof.
  unfold get_current_beat. rewrite beat_loop_adds.
  split; [reflexivity|].
  intros total q Hsum Hq Hpos. rewrite Hsum. cbn [bind].
  exact (to_int_floor total q Hq Hpos).
Qed.

(** Tempo 120 from 0 s, tempo 60 from 10 s, read at 20 s. *)
Definition two_tempo_engine : Engine :=
  mkEngine (Int 20000000000) (Int 60)
    [(Int 0, Int 120, Int 4); (Int 10000000000, Int 60, Int 4)].

Lemma get_current_beat_adds_segments_witness :
  map segment_beats
    (segments (current_time two_tempo_engine) (tempo_map two_tempo_engine))
  = [Ok (Float 20); Ok (Float 10)] /\
  get_current_beat two_tempo_engine = Ok 30.
Proof.
  split; [vm_compute; reflexivity|].
  destruct (get_current_beat_adds_segments two_tempo_engine) as [_ Hfloor].
  destruct (exact (Float 30)) as [q|] eqn:Eq;
    [|vm_compute in Eq; discriminate Eq].
  rewrite (Hfloor (Float 30) q).
  - vm_compute in Eq. injection Eq as <-. vm_compute. reflexivity.
  - vm_compute. reflexivity.
  - exact Eq.
  - vm_compute in Eq. injection Eq as <-. vm_compute. discriminate.
Defined.

(** C4, as stated, fails: one entry at tempo 120, read at 61.5 s, which
    is the start of beat 123.  The beats of the segment are
    [61.5 / 60 * 120 = 123], whose floor is 123; the code computes them
    in binary64, gets a number below 123 and returns 122. *)
Lemma get_current_beat_below_floor :
  let engine :=
    mkEngine (Int 61500000000) (Int 120) [(Int 0, Int 120, Int 4)] in
  exists total q,
    beat_loop (current_time engine) (tempo_map engine) (Int 0) = Ok total /\
    exact total = Some q /\ (q < 123)%Q /\
    get_current_beat engine = Ok 122 /\
    Qfloor ((61500000000 - 0) / 1000000000 / 60 * 120) = 123.
Proof.
  cbv zeta. eexists. eexists.
  split; [vm_compute; reflexivity|].
  split; [vm_compute; reflexivity|].
  repeat split; vm_compute; reflexivity.
Qed.

(** *** [wait] *)

Inductive wait_unit : Type := Beats | Seconds | Nanoseconds.

(** The modes [wait] recognises: a string that starts with [b], one that
    starts with [s], and the string [ns]. *)
Definition mode_unit (mode : string) : option wait_unit :=
  match mode with
  | EmptyString => None
  | String c _ =>
      if Ascii.eqb c "b" then Some Beats
      else if Ascii.eqb c "s" then Some Seconds
      else if String.eqb mode "ns" then Some Nanoseconds
      else None
  end.

(** A duration in nanoseconds with a beat of [60 / tempo] seconds, in
    Python's arithmetic. *)
Definition duration_ns (bpm : num) (u : wait_unit)
  (duration : num) : res num :=
  match u with
  | Beats =>
      seconds_per_beat <- truediv (Float 60) bpm ;;
      seconds <- times duration seconds_per_beat ;;
      times seconds (Int 1000000000)
  | Seconds => times duration (Int 1000000000)
  | Nanoseconds => Ok duration
  end.

(** The duration as the code converts it: for beats it multiplies by
    60 before it divides by the tempo. *)
Definition converted (bpm : num) (u : wait_unit)
  (duration : num) : res num :=
  match u with
  | Beats =>
      d <- times duration (Float 60) ;;
      d <- truediv d bpm ;;
      times d (Int 1000000000)
  | Seconds => times duration (Int 1000000000)
  | Nanoseconds => Ok duration
  end.

Definition is_beats (u : wait_unit) : bool :=
  match u with Beats => true | _ => false end.

Lemma wait_begin_converts (self : Timer) (duration : num) (mode : string)
  (u : wait_unit) :
  mode_unit mode = Some u ->
  wait_begin self duration mode
  = (d <- converted (tempo self) u duration ;;
     end_time' <- plus (start_time self) d ;;
     Ok (Blocking (mkTimer (start_time self) (tempo self) end_time'
                     (is_beats u || is_beat_waiting self)))).
Proof.
  unfold mode_unit, wait_begin, convert_duration, converted.
  destruct mode as [|c rest]; [discriminate|].
  cbn [Timer.first_char bind].
  destruct (Ascii.eqb c "b") eqn:Eb.
  - intros H. injection H as <-.
    destruct (times duration (Float 60)) as [d1|e]; cbn [bind];
      [|reflexivity].
    destruct (truediv d1 (tempo self)) as [d2|e]; cbn [bind]; [|reflexivity].
    destruct (times d2 (Int 1000000000)) as [d3|e]; cbn [bind];
      [|reflexivity].
    destruct (plus (start_time self) d3); reflexivity.
  - destruct (Ascii.eqb c "s") eqn:Es.
    + intros H. injection H as <-.
      destruct (times duration (Int 1000000000)) as [d|e]; cbn [bind];
        [|reflexivity].
      destruct (plus (start_time self) d); cbn [bind]; [|reflexivity].
      reflexivity.
    + destruct (String.eqb (String c rest) "ns"); [|discriminate].
      intros H. injection H as <-. cbn [bind].
      destruct (plus (start_time self) duration); cbn [bind]; [|reflexivity].
      reflexivity.
Qed.

Section PollingFacts.

Variable MAINLOOP_PERIOD_NS : num.
Variable ticks : nat -> tick.

(** The timer as test number [k] of the loop finds it. *)
Fixpoint timer_at (k : nat) (blocked : Timer) : Timer :=
  match k with
  | O => interfere (tempo_changes (ticks 0)) blocked
  | S j => interfere (tempo_changes (ticks (S j))) (timer_at j blocked)
  end.

Lemma timer_at_quiet (k : nat) (blocked : Timer) :
  (forall j, (j <= k)%nat -> tempo_changes (ticks j) = []) ->
  timer_at k blocked = blocked.
Proof.
  induction k as [|k IH]; intros Hquiet; cbn [timer_at].
  - rewrite (Hquiet 0%nat (le_n _)). reflexivity.
  - rewrite (Hquiet (S k) (le_n _)), IH; [reflexivity|].
    intros j Hj. apply Hquiet. lia.
Qed.

Lemma wait_poll_exits (blocked : Timer) (k : nat) :
  (forall j, (j < k)%nat ->
     still_waiting MAINLOOP_PERIOD_NS (now (ticks j)) (timer_at j blocked)
     = Ok true) ->
  still_waiting MAINLOOP_PERIOD_NS (now (ticks k)) (timer_at k blocked)
  = Ok false ->
  forall fuel i self,
    (i <= k)%nat -> (k - i < fuel)%nat ->
    interfere (tempo_changes (ticks i)) self = timer_at i blocked ->
    wait_poll MAINLOOP_PERIOD_NS fuel ticks i self
    = Ok (Some (timer_at k blocked, k)).
Proof.
  intros Hbefore Hexit fuel.
  induction fuel as [|fuel IH]; intros i self Hik Hfuel Hself; [lia|].
  cbn [wait_poll]. rewrite Hself.
  destruct (Nat.eq_dec i k) as [->|Hne].
  - rewrite Hexit. reflexivity.
  - rewrite (Hbefore i) by lia. cbn [bind].
    apply IH; [lia|lia|reflexivity].
Qed.

(** C5, as the code has it: for a recognised mode, [wait] either raises
    in its conversion (a zero tempo, or an [int] too large for a
    [float]) or sets [end_time] to [start_time] plus the duration in
    nanoseconds, which for beats is [duration * 60. / tempo *
    1000000000], in Python's arithmetic on binary64 numbers, and sets
    [is_beat_waiting] for beats.  Each test of the loop reads
    [end_time] as the calls of [update_tempo] made meanwhile have left
    it; [wait] returns after the first test that does not read
    [current_time < end_time - MAINLOOP_PERIOD_NS], with the flag
    cleared and [start_time = end_time].  When the tempo did not change
    during the wait, this is the [end_time] set at the start, whatever
    the clock read. *)
Theorem wait_polls_then_rebases (self : Timer) (duration : num)
  (mode : string) (u : wait_unit) (k fuel : nat)
  (Hmode : mode_unit mode = Some u) :
  match wait_begin self duration mode with
  | Raise e => arithmetic_error e
  | Ok (Unrecognized _) => False
  | Ok (Blocking blocked) =>
      (exists d,
         converted (tempo self) u duration = Ok d /\
         plus (start_time self) d = Ok (end_time blocked)) /\
      start_time blocked = start_time self /\
      tempo blocked = tempo self /\
      is_beat_waiting blocked = (is_beats u || is_beat_waiting self) /\
      ((forall j, (j < k)%nat ->
          still_waiting MAINLOOP_PERIOD_NS (now (ticks j))
            (timer_at j blocked) = Ok true) ->
       still_waiting MAINLOOP_PERIOD_NS (now (ticks k)) (timer_at k blocked)
       = Ok false ->
       (k < fuel)%nat ->
       exists finished,
         wait MAINLOOP_PERIOD_NS fuel ticks self duration mode
         = Ok (Completed finished k) /\
         start_time finished = end_time (timer_at k blocked) /\
         end_time finished = end_time (timer_at k blocked) /\
         is_beat_waiting finished = false /\
         ((forall j, (j <= k)%nat -> tempo_changes (ticks j) = []) ->
          start_time finished = end_time blocked /\
          tempo finished = tempo self))
  end.
Proof.
  pose proof (wait_begin_converts self duration mode u Hmode) as Hbegin.
  unfold wait. rewrite Hbegin.
  destruct (converted (tempo self) u duration) as [d|e] eqn:Ed; cbn [bind].
  - destruct (plus (start_time self) d) as [end_time'|e] eqn:Ee; cbn [bind];
      [|right; exact (arith_raises _ _ _ _ _ Ee)].
    set (blocked := mkTimer (start_time self) (tempo self) end_time'
                      (is_beats u || is_beat_waiting self)).
    split; [exists d; split; [reflexivity|exact Ee]|].
    repeat (split; [reflexivity|]).
    intros Hbefore Hexit Hfuel.
    rewrite (wait_poll_exits blocked k Hbefore Hexit fuel 0 blocked)
      by (try lia; reflexivity).
    cbn [bind]. eexists. split; [reflexivity|].
    cbn [wait_finish start_time end_time is_beat_waiting tempo].
    repeat (split; [reflexivity|]).
    intros Hquiet. rewrite (timer_at_quiet k blocked Hquiet).
    split; reflexivity.
  - unfold converted in Ed. destruct u.
    + destruct (times duration (Float 60)) as [d1|x] eqn:E1; cbn [bind] in Ed;
        [|injection Ed as <-; right; exact (arith_raises _ _ _ _ _ E1)].
      destruct (truediv d1 (tempo self)) as [d2|x] eqn:E2; cbn [bind] in Ed;
        [|injection Ed as <-; exact (truediv_raises _ _ _ E2)].
      right. exact (arith_raises _ _ _ _ _ Ed).
    + right. exact (arith_raises _ _ _ _ _ Ed).
    + discriminate Ed.
Qed.

End PollingFacts.

(** A 4-beat wait at tempo 120 with a period of 1 ms; the clock is read
    every half second and the tempo does not change: the loop exits at
    the fifth test, with [start_time] at 2 s. *)
Definition half_seconds (k : nat) : tick :=
  mkTick [] (Int (Z.of_nat k * 500000000)).

Lemma wait_polls_then_rebases_witness :
  exists finished,
    wait (Float 1000000) 5 half_seconds (init (mkEngine (Int 0) (Int 120) []))
      (Int 4) "beats" = Ok (Completed finished 4%nat) /\
    start_time finished = Float 2e9 /\
    is_beat_waiting finished = false.
Proof.
  pose proof (wait_polls_then_rebases (Float 1000000) half_seconds
                (init (mkEngine (Int 0) (Int 120) [])) (Int 4) "beats"
                Beats 4 5 eq_refl) as H.
  destruct (wait_begin (init (mkEngine (Int 0) (Int 120) [])) (Int 4) "beats")
    as [[blocked|s]|e] eqn:E; try (vm_compute in E; discriminate E).
  destruct H as [_ [_ [_ [_ Hwait]]]].
  destruct Hwait as [finished [Hrun [_ [_ [Hflag Hquiet]]]]].
  - intros j Hj. vm_compute in E. injection E as <-.
    destruct j as [|[|[|[|j]]]]; [vm_compute; reflexivity..|lia].
  - vm_compute in E. injection E as <-. vm_compute. reflexivity.
  - lia.
  - exists finished. split; [exact Hrun|]. split; [|exact Hflag].
    rewrite (proj1 (Hquiet (fun _ _ => eq_refl))).
    vm_compute in E. injection E as <-. reflexivity.
Defined.

(** C5, as stated, fails: three beats at tempo 110 from time 0 last
    [3 * (60 / 110) * 1e9] ns; the code sets [end_time] to a binary64
    number above that, and [start_time + duration * (60 / tempo) * 1e9]
    in binary64 is yet another number, below it.  Besides, a tempo that
    drops from 120 to 60 one second into a 4-beat wait begun at time 0
    moves its end from 2 s to 3 s: [wait] returns at the seventh test
    with [start_time] at 3 s.  And at tempo 0 a wait in beats raises
    before it sets anything. *)
Lemma wait_end_time_is_rounded :
  let self := mkTimer (Int 0) (Int 110) (Int 0) false in
  exists blocked q,
    wait_begin self (Int 3) "beats" = Ok (Blocking blocked) /\
    exact (end_time blocked) = Some q /\
    (0 + 3 * (60 / 110) * 1000000000 < q)%Q /\
    (exists d worded q',
       duration_ns (tempo self) Beats (Int 3) = Ok d /\
       plus (start_time self) d = Ok worded /\
       exact worded = Some q' /\
       (q' < 0 + 3 * (60 / 110) * 1000000000)%Q /\
       end_time blocked <> worded) /\
    exists finished,
      wait (Float 1000000) 9
        (fun k => mkTick (if Nat.eqb k 2 then [tempo_drops] else [])
                    (Int (Z.of_nat k * 500000000)))
        (init (mkEngine (Int 0) (Int 120) [])) (Int 4) "beats"
      = Ok (Completed finished 6%nat) /\
      start_time finished = Float 3e9 /\
      wait (Float 1000000) 9 half_seconds
        (mkTimer (Int 0) (Int 0) (Int 0) false) (Int 3) "beats"
      = Raise ZeroDivisionError.
Proof.
  cbv zeta. eexists. eexists.
  split; [vm_compute; reflexivity|].
  split; [vm_compute; reflexivity|].
  split; [vm_compute; reflexivity|].
  split.
  - do 3 eexists. split; [vm_compute; reflexivity|].
    split; [vm_compute; reflexivity|].
    split; [vm_compute; reflexivity|].
    split; [vm_compute; reflexivity|].
    vm_compute. intros H. discriminate H.
  - eexists. repeat split; vm_compute; reflexivity.
Qed.

(** X3 (wait, edges): [wait] indexes the mode before anything else, so
    an empty mode raises [IndexError]; a mode that names no unit (neither
    a word in [b] or [s] nor the string [ns]) makes it return at once,
    the timer untouched, whatever the duration, the clock and the
    tempo. *)
Theorem wait_rejects_unknown_mode (period : num) (fuel : nat)
  (ticks : nat -> tick) (self : Timer) (duration : num) (mode : string)
  (Hmode : mode_unit mode = None) :
  wait period fuel ticks self duration mode
  = if String.eqb mode "" then Raise IndexError else Ok (NotStarted self).
Proof.
  unfold wait, wait_begin, convert_duration, mode_unit in *.
  destruct mode as [|c rest]; [reflexivity|].
  cbn [first_char bind].
  destruct (Ascii.eqb c "b"); [discriminate|].
  destruct (Ascii.eqb c "s"); [discriminate|].
  destruct (String.eqb (String c rest) "ns"); [discriminate|].
  reflexivity.
Qed.

Lemma wait_rejects_unknown_mode_witness :
  let self := init (mkEngine (Int 0) (Int 120) []) in
  wait (Float 1000000) 5 half_seconds self (Int 4) "nanoseconds"
    = Ok (NotStarted self) /\
  wait (Float 1000000) 5 half_seconds self (Int 4) "" = Raise IndexError.
Proof.
  split.
  - apply (wait_rejects_unknown_mode (Float 1000000) 5 half_seconds
             (init (mkEngine (Int 0) (Int 120) [])) (Int 4) "nanoseconds").
    reflexivity.
  - apply (wait_rejects_unknown_mode (Float 1000000) 5 half_seconds
             (init (mkEngine (Int 0) (Int 120) [])) (Int 4) "").
    reflexivity.
Defined.

(** *** [get_current_cycle] *)

(** A cycle length that is zero where [get_current_cycle] divides by
    it: the beats of a segment are a [float], so an [int] divisor is
    converted first. *)
Definition zero_cycle (e : num * num * num) : bool :=
  match to_float (entry_cycle e) with
  | Ok f => PrimFloat.eqb f zero
  | Raise _ => false
  end.

Lemma truediv_float (a b r : num) :
  truediv a b = Ok r -> exists f, r = Float f.
Proof.
  unfold truediv.
  assert (Hmixed :
    (fa <- to_float a ;; fb <- to_float b ;;
     if PrimFloat.eqb fb zero then Raise ZeroDivisionError
     else Ok (Float (PrimFloat.div fa fb))) = Ok r ->
    exists f, r = Float f).
  { destruct (to_float a) as [fa|]; cbn [bind]; [|discriminate].
    destruct (to_float b) as [fb|]; cbn [bind]; [|discriminate].
    destruct (PrimFloat.eqb fb zero); [discriminate|].
    intros H. injection H as <-. eexists. reflexivity. }
  destruct a as [x|f], b as [y|g]; try exact Hmixed.
  destruct (Z.eqb y 0); [discriminate|].
  destruct (of_spec _) as [f|]; cbn [bind]; [|discriminate].
  intros H. injection H as <-. eexists. reflexivity.
Qed.

Lemma times_float (f : float) (b r : num) :
  times (Float f) b = Ok r -> exists g, r = Float g.
Proof.
  unfold times, arith. cbn [to_float bind].
  destruct b as [y|g]; cbn [to_float bind].
  - destruct (float_of_int y); cbn [bind]; [|discriminate].
    intros H. injection H as <-. eexists. reflexivity.
  - intros H. injection H as <-. eexists. reflexivity.
Qed.

Lemma truediv_by_zero (a b : num) :
  truediv a b = Raise ZeroDivisionError ->
  match to_float b with
  | Ok f => PrimFloat.eqb f zero
  | Raise _ => false
  end = true.
Proof.
  unfold truediv.
  assert (Hmixed :
    (fa <- to_float a ;; fb <- to_float b ;;
     if PrimFloat.eqb fb zero then Raise ZeroDivisionError
     else Ok (Float (PrimFloat.div fa fb))) = Raise ZeroDivisionError ->
    match to_float b with
    | Ok f => PrimFloat.eqb f zero
    | Raise _ => false
    end = true).
  { destruct (to_float a) as [fa|ea] eqn:Ea; cbn [bind].
    - destruct (to_float b) as [fb|eb] eqn:Eb; cbn [bind].
      + destruct (PrimFloat.eqb fb zero); [reflexivity|discriminate].
      + intros H. injection H as ->.
        apply to_float_raises in Eb. discriminate Eb.
    - intros H. injection H as ->.
      apply to_float_raises in Ea. discriminate Ea. }
  destruct a as [x|f], b as [y|g]; try exact Hmixed.
  destruct (Z.eqb y 0) eqn:Ey.
  - intros _. apply Z.eqb_eq in Ey. subst y. reflexivity.
  - destruct (of_spec _) as [f|e] eqn:E; cbn [bind]; [discriminate|].
    intros H. injection H as ->. apply of_spec_raises in E. discriminate E.
Qed.

Lemma truediv_float_by_zero (f : float) (b : num) :
  match to_float b with
  | Ok g => PrimFloat.eqb g zero
  | Raise _ => false
  end = true ->
  truediv (Float f) b = Raise ZeroDivisionError.
Proof.
  unfold truediv.
  destruct b as [y|g]; cbn [to_float bind].
  - destruct (float_of_int y) as [fb|]; cbn [bind]; [|discriminate].
    intros ->. reflexivity.
  - intros ->. reflexivity.
Qed.

(** A division by a constant that is not zero raises for an [int] too
    large only. *)
Lemma truediv_constant_raises (a : num) (c : Z) (fc : float) (e : exn) :
  Z.eqb c 0 = false ->
  float_of_int c = Ok fc -> PrimFloat.eqb fc zero = false ->
  truediv a (Int c) = Raise e -> e = OverflowError.
Proof.
  intros Hc Hfc Hnz. unfold truediv. destruct a as [x|f].
  - rewrite Hc. destruct (of_spec _) as [g|x'] eqn:E; cbn [bind];
      [discriminate|].
    intros H. injection H as <-. exact (of_spec_raises _ _ E).
  - cbn [to_float bind]. rewrite Hfc. cbn [bind]. rewrite Hnz. discriminate.
Qed.

Lemma cycle_loop_zero_division (now : num) (entries : list (num * num * num)) :
  forall current_cycle,
    cycle_loop now entries current_cycle = Raise ZeroDivisionError ->
    existsb zero_cycle entries = true.
Proof.
  induction entries as [|e rest IH]; intros current_cycle;
    cbn [cycle_loop existsb]; [discriminate|].
  destruct (minus _ (entry_time e)) as [elapsed|x] eqn:E1; cbn [bind].
  2:{ intros H. injection H as ->.
      apply arith_raises in E1. discriminate E1. }
  destruct (truediv elapsed (Int 1000000000)) as [seconds|x] eqn:E2;
    cbn [bind].
  2:{ intros H. injection H as ->.
      apply (truediv_constant_raises _ _ 1e9) in E2;
        [discriminate E2|reflexivity..]. }
  destruct (truediv seconds (Int 60)) as [minutes|x] eqn:E3; cbn [bind].
  2:{ intros H. injection H as ->.
      apply (truediv_constant_raises _ _ 60) in E3;
        [discriminate E3|reflexivity..]. }
  destruct (times minutes (entry_tempo e)) as [beats|x] eqn:E4; cbn [bind].
  2:{ intros H. injection H as ->.
      apply arith_raises in E4. discriminate E4. }
  destruct (truediv beats (entry_cycle e)) as [cycles|x] eqn:E5; cbn [bind].
  2:{ intros H. injection H as ->.
      unfold zero_cycle. rewrite (truediv_by_zero _ _ E5). reflexivity. }
  destruct (plus current_cycle cycles) as [total|x] eqn:E6; cbn [bind].
  2:{ intros H. injection H as ->.
      apply arith_raises in E6. discriminate E6. }
  intros H. rewrite (IH _ H). apply orb_true_r.
Qed.

Lemma cycle_loop_zero_cycle (now : num) (entries : list (num * num * num)) :
  existsb zero_cycle entries = true ->
  forall current_cycle,
    exists e, cycle_loop now entries current_cycle = Raise e /\
              arithmetic_error e.
Proof.
  induction entries as [|e rest IH]; cbn [cycle_loop existsb];
    [discriminate|].
  intros Hz current_cycle.
  destruct (minus _ (entry_time e)) as [elapsed|x] eqn:E1; cbn [bind];
    [|exists x; split; [reflexivity|right; exact (arith_raises _ _ _ _ _ E1)]].
  destruct (truediv elapsed (Int 1000000000)) as [seconds|x] eqn:E2;
    cbn [bind];
    [|exists x; split; [reflexivity|exact (truediv_raises _ _ _ E2)]].
  destruct (truediv seconds (Int 60)) as [minutes|x] eqn:E3; cbn [bind];
    [|exists x; split; [reflexivity|exact (truediv_raises _ _ _ E3)]].
  destruct (truediv_float _ _ _ E3) as [m ->].
  destruct (times (Float m) (entry_tempo e)) as [beats|x] eqn:E4; cbn [bind];
    [|exists x; split; [reflexivity|right; exact (arith_raises _ _ _ _ _ E4)]].
  destruct (times_float _ _ _ E4) as [b ->].
  destruct (zero_cycle e) eqn:Ez.
  - unfold zero_cycle in Ez. rewrite (truediv_float_by_zero b _ Ez).
    cbn [bind]. exists ZeroDivisionError. split; [reflexivity|left; reflexivity].
  - cbn [orb] in Hz.
    destruct (truediv (Float b) (entry_cycle e)) as [cycles|x] eqn:E5;
      cbn [bind];
      [|exists x; split; [reflexivity|exact (truediv_raises _ _ _ E5)]].
    destruct (plus current_cycle cycles) as [total|x] eqn:E6; cbn [bind];
      [|exists x; split;
        [reflexivity|right; exact (arith_raises _ _ _ _ _ E6)]].
    apply IH. exact Hz.
Qed.

(** X6 (get_current_cycle, errors): [get_current_cycle] raises
    [ZeroDivisionError] only when an entry of the tempo map has a cycle
    length of zero, and with such an entry it never returns a count: it
    raises [ZeroDivisionError], or [OverflowError] when an [int] too
    large for a [float] comes first. *)
Theorem get_current_cycle_raises (engine : Engine) :
  (get_current_cycle engine = Raise ZeroDivisionError ->
   existsb zero_cycle (tempo_map engine) = true) /\
  (existsb zero_cycle (tempo_map engine) = true ->
   exists e, get_current_cycle engine = Raise e /\ arithmetic_error e).
Proof.
  unfold get_current_cycle. split.
  - destruct (cycle_loop _ _ _) as [c|x] eqn:E; cbn [bind].
    + destruct c as [z|f]; cbn [to_int]; [discriminate|].
      destruct (FloatOps.Prim2SF f); discriminate.
    + intros H. injection H as ->.
      exact (cycle_loop_zero_division _ _ _ E).
  - intros Hz.
    destruct (cycle_loop_zero_cycle (current_time engine) (tempo_map engine)
                Hz (Int 0)) as [e [He Herr]].
    rewrite He. exists e. split; [reflexivity|exact Herr].
Qed.

(** The two-tempo map with a second entry whose cycle length is 0, and
    the same map with cycles of 4 beats, which has 7 cycles in its 30
    beats. *)
Lemma get_current_cycle_raises_witness :
  get_current_cycle
    (mkEngine (Int 20000000000) (Int 60)
       [(Int 0, Int 120, Int 4); (Int 10000000000, Int 60, Int 0)])
  = Raise ZeroDivisionError /\
  get_current_cycle two_tempo_engine = Ok 7.
Proof.
  split; [|vm_compute; reflexivity].
  destruct (proj2 (get_current_cycle_raises
                     (mkEngine (Int 20000000000) (Int 60)
                        [(Int 0, Int 120, Int 4);
                         (Int 10000000000, Int 60, Int 0)])) eq_refl)
    as [e [He _]].
  rewrite He. vm_compute in He. injection He as <-. reflexivity.
Defined.

End TimerFacts.

(** ** timer.py over exact rationals *)

Module TimerQFacts.

Import TimerQ.
Local Open Scope Q_scope.


(** The segments of a tempo map as the documentation words them: every
    entry opens a segment that lasts until the next entry, the last one
    until [now]; a segment is [(elapsed nanoseconds, tempo)]. *)
Fixpoint segments (now : Q) (entries : list (Q * Q * Q)) : list (Q * Q) :=
  match entries with
  | [] => []
  | e :: rest =>
      (match rest with
       | [] => now - entry_time e
       | next :: _ => entry_time next - entry_time e
       end, entry_tempo e) :: segments now rest
  end.

Definition segment_beats (seg : Q * Q) : Q :=
  fst seg / ns_per_s / 60 * snd seg.





(** Tempo 120 from 0 s, tempo 60 from 10 s, read at 20 s. *)
Definition two_tempo_engine : Engine :=
  mkEngine 20000000000 60 [(0, 120, 4); (10000000000, 60, 4)].

End TimerQFacts.

(** ** midi.py *)

Module MidiFacts.

Import Midi.

Lemma ints_are_ints (zs : list Z) : forallb is_int (map VInt zs) = true.
Proof. induction zs as [|z zs IH]; [reflexivity | exact IH]. Qed.

Lemma ints_have_no_none (zs : list Z) : existsb is_none (map VInt zs) = false.
Proof. induction zs as [|z zs IH]; [reflexivity | exact IH]. Qed.

Lemma untuple_ints (zs : list Z) :
  map_res untuple (map VInt zs) = Ok (map VInt zs).
Proof.
  induction zs as [|z zs IH]; [reflexivity|].
  cbn [map map_res untuple bind]. rewrite IH. reflexivity.
Qed.

(** C9: a note-off event becomes [[channel, note, 0]] and [/note_off]
    gives an event whose data holds channel and note only, whatever
    follows them in the arguments; a note-on event becomes [[channel,
    note, velocity]] and [/note_on] stores all three. *)
Theorem note_off_asymmetric (int_of_str : string -> res Z)
  (d : list (string * value)) (channel note velocity : Z) (more : list Z)
  (Hc : lookup "note.channel" d = Some (VInt channel))
  (Hn : lookup "note.note" d = Some (VInt note))
  (Hv : lookup "note.velocity" d = Some (VInt velocity)) :
  midi_to_osc (mkSeqEvent SEQ_EVENT_NOTEOFF d)
    = Ok (Some (mkOsc "/note_off" (VList [VInt channel; VInt note; VInt 0])))
  /\ osc_to_midi int_of_str "/note_off"
       (VInt channel :: VInt note :: map VInt more)
     = Ok (Some (mkSeqEvent SEQ_EVENT_NOTEOFF
                   [("note.channel", VInt channel); ("note.note", VInt note)]))
  /\ midi_to_osc (mkSeqEvent SEQ_EVENT_NOTEON d)
     = Ok (Some (mkOsc "/note_on"
                   (VList [VInt channel; VInt note; VInt velocity])))
  /\ osc_to_midi int_of_str "/note_on"
       [VInt channel; VInt note; VInt velocity]
     = Ok (Some (mkSeqEvent SEQ_EVENT_NOTEON
                   [("note.channel", VInt channel); ("note.note", VInt note);
                    ("note.velocity", VInt velocity)])).
Proof.
  split; [|split; [|split]].
  - unfold midi_to_osc, subscript. cbn [type data midi_lookup MIDI_TO_OSC event_type_eqb].
    rewrite Hc, Hn. reflexivity.
  - unfold osc_to_midi.
    change (VInt channel :: VInt note :: map VInt more)
      with (map VInt (channel :: note :: more)).
    cbn [lookup OSC_TO_MIDI String.eqb Ascii.eqb Bool.eqb].
    rewrite untuple_ints. cbn [bind].
    rewrite ints_have_no_none, ints_are_ints. reflexivity.
  - unfold midi_to_osc, subscript. cbn [type data midi_lookup MIDI_TO_OSC event_type_eqb].
    rewrite Hc, Hn, Hv. reflexivity.
  - reflexivity.
Qed.

(** Note 60 on channel 1 with velocity 100: the note-off round trip
    loses the velocity key, the note-on round trip keeps it. *)
Lemma note_off_asymmetric_witness :
  let d := [("note.channel", VInt 1); ("note.note", VInt 60);
            ("note.velocity", VInt 100)] in
  (exists off,
     osc_to_midi (fun _ => Raise ValueError) "/note_off"
       [VInt 1; VInt 60; VInt 0] = Ok (Some off)
     /\ midi_to_osc (mkSeqEvent SEQ_EVENT_NOTEOFF d)
        = Ok (Some (mkOsc "/note_off" (VList [VInt 1; VInt 60; VInt 0])))
     /\ lookup "note.velocity" (data off) = None)
  /\ midi_to_osc (mkSeqEvent SEQ_EVENT_NOTEON d)
     = Ok (Some (mkOsc "/note_on" (VList [VInt 1; VInt 60; VInt 100]))).
Proof.
  intros d.
  destruct (note_off_asymmetric (fun _ => Raise ValueError) d 1 60 100 [0]
              eq_refl eq_refl eq_refl) as [Hoff [Hback [Hon _]]].
  split; [|exact Hon].
  eexists. split; [exact Hback|]. split; [exact Hoff|reflexivity].
Defined.

End MidiFacts.

(** ** module.py *)

Module MentatFacts.

Import Mentat.

(** A module ["M"] with the parameter [a] and the submodule ["S"], which
    has the parameter [b]; every slot is an integer with the wildcard tag,
    and no pattern is in use. *)
Definition int_parameter (n : string) (v : Z) (running : bool)
  : Param.parameter :=
  Param.mkParameter n (VStr ("/" ++ n)) ["*"%char] [] [VInt v] (VInt 0)
    false VNone running [].

Definition passthrough : ascii -> value -> value := fun _ v => v.
Definition literal_names : string -> string -> bool := fun _ _ => false.
Definition frozen : Q -> Param.parameter -> Param.parameter * bool :=
  fun _ p => (p, false).

Definition idle_engine : engine := mkEngine 0 [] [] [].

Definition leaf (n : string) (ps : list Param.parameter)
  (anims : list string) (path : list string) : module :=
  mkModule n VNone VNone ps anims [] [] false [] [] path.

Definition sub_S (running : bool) : module :=
  leaf "S" [int_parameter "b" 0 running] (if running then ["b"] else [])
    ["engine"; "M"; "S"].

Definition mod_M (running : bool) : module :=
  mkModule "M" (VStr "osc") (VInt 9000) [int_parameter "a" 3 false] [] []
    [] false [sub_S running] [] ["engine"; "M"].

(** *** [stop_animate] *)

(** Class [Module] itself binds no [stop_animation]. *)
Lemma stop_animation_not_in_module_dir :
  existsb (String.eqb "stop_animation") module_dir = false.
Proof. reflexivity. Qed.

Section StopAnimate.

Variable fnmatch : string -> string -> bool.
Variable inherited_dir : list string.

(** C8: on a module with at least one submodule, where ["*"] is neither a
    submodule name nor an alias and no base class provides a
    [stop_animation], [stop_animate('*')] raises [AttributeError] at the
    first submodule and stops no animation. *)
Theorem stop_animate_star_raises (parent : parent_view) (self : module)
  (eng : engine)
  (Hsubs : submodules self <> [])
  (Hstar : resolve fnmatch false self (VStr "*") = Local)
  (Hbase : existsb (String.eqb "stop_animation") inherited_dir = false) :
  stop_animate fnmatch inherited_dir [VStr "*"] parent (self, eng)
  = Raised AttributeError (self, eng).
Proof.
  cbn [stop_animate fst]. rewrite Hstar.
  unfold stop_animate_body.
  change (value_eqb (VStr "*") (VStr "*")) with true. cbv iota.
  destruct self as [n pr po ps an ma dp d subs al mp].
  cbn [submodules] in *.
  destruct subs as [|sub rest]; [congruence|].
  cbn [each_submodule]. unfold call_stop_animation, has_attribute.
  rewrite existsb_app, stop_animation_not_in_module_dir, Hbase.
  reflexivity.
Qed.

End StopAnimate.

(** The inherited names module.py itself uses. *)
Definition used_inherited : list string := ["dispatch_event"].

Lemma stop_animate_star_raises_witness :
  stop_animate literal_names used_inherited [VStr "*"] None
    (mod_M true, idle_engine)
  = Raised AttributeError (mod_M true, idle_engine)
  /\ (exists sub b,
        find_submodule "S" (mod_M true) = Some sub
        /\ find_parameter "b" sub = Some b
        /\ animations sub = ["b"]
        /\ Param.animate_running b = true).
Proof.
  split.
  - apply (stop_animate_star_raises literal_names used_inherited None
             (mod_M true) idle_engine).
    + discriminate.
    + reflexivity.
    + reflexivity.
  - eexists. eexists. repeat split.
Defined.

(** *** [update_animations] *)

Section UpdateAnimations.

Variable update_animation : Q -> Param.parameter -> Param.parameter * bool.

Lemma set_dirty_animations (w : world) :
  animations (fst (set_dirty w)) = animations (fst w).
Proof.
  destruct w as [self eng]. unfold set_dirty.
  destruct (dirty self); reflexivity.
Qed.

Lemma remove_first_length (x : string) (l : list string) :
  (List.length (remove_first x l) <= List.length l)%nat.
Proof.
  induction l as [|y l IH]; cbn [remove_first List.length]; [lia|].
  destruct (String.eqb y x); cbn [List.length]; lia.
Qed.

Lemma animation_step_length (n : string) (w : world) :
  (List.length (animations (fst (state_of (animation_step update_animation n w))))
   <= List.length (animations (fst w)))%nat.
Proof.
  destruct w as [self eng]. unfold animation_step.
  destruct (find_parameter n self) as [p|]; [|cbn; lia].
  destruct (Param.animate_running p).
  - destruct (update_animation (current_time eng) p) as [p' changed].
    destruct (changed && negb (Param.dirty p')).
    + cbn [state_of]. rewrite set_dirty_animations. cbn. lia.
    + cbn. lia.
  - cbn [state_of fst animations with_animations].
    apply remove_first_length.
Qed.

(** The loop ends by exhausting the list, not the fuel: one more unit of
    fuel changes nothing once the fuel covers the rest of the list. *)
Lemma animations_loop_fuel (fuel : nat) :
  forall i w,
    (List.length (animations (fst w)) - i <= fuel)%nat ->
    animations_loop update_animation (S fuel) i w
    = animations_loop update_animation fuel i w.
Proof.
  induction fuel as [|fuel IH]; intros i w Hlen.
  - cbn [animations_loop].
    destruct (nth_error (animations (fst w)) i) eqn:E; [|reflexivity].
    assert (i < List.length (animations (fst w)))%nat
      by (apply nth_error_Some; congruence).
    lia.
  - change (animations_loop update_animation (S (S fuel)) i w)
      with (match nth_error (animations (fst w)) i with
            | None => Done w
            | Some n =>
                and_then (animation_step update_animation n w)
                  (animations_loop update_animation (S fuel) (S i))
            end).
    change (animations_loop update_animation (S fuel) i w)
      with (match nth_error (animations (fst w)) i with
            | None => Done w
            | Some n =>
                and_then (animation_step update_animation n w)
                  (animations_loop update_animation fuel (S i))
            end).
    destruct (nth_error (animations (fst w)) i) as [n|] eqn:E; [|reflexivity].
    assert (i < List.length (animations (fst w)))%nat
      by (apply nth_error_Some; congruence).
    pose proof (animation_step_length n w) as Hstep.
    destruct (animation_step update_animation n w) as [w'|e w'];
      cbn [and_then state_of] in *; [|reflexivity].
    apply IH. lia.
Qed.

End UpdateAnimations.

(** Two idle animations listed one after the other. *)
Definition two_idle : module :=
  leaf "M" [int_parameter "a" 1 false; int_parameter "b" 2 false] ["a"; "b"]
    ["engine"; "M"].

(** C7, at the failing input: both [a] and [b] are idle, yet the pass
    removes [a] only: [b] moves to the index the iterator has just left
    and is skipped. *)
Lemma update_animations_skips_next_idle :
  exists self' b,
    update_animations frozen two_idle idle_engine = Done (self', idle_engine)
    /\ animations self' = ["b"]
    /\ find_parameter "b" self' = Some b
    /\ Param.animate_running b = false.
Proof. eexists. eexists. repeat split. Qed.

(** *** [update_mapping] *)

(** The module that owns the parameter a path addresses. *)
Fixpoint owner (path : list value) (self : module) : option module :=
  match path with
  | [] => None
  | first :: rest =>
      match rest with
      | [] => Some self
      | _ :: _ =>
          match first with
          | VStr n =>
              match find_submodule n self with
              | Some sub => owner rest sub
              | None => None
              end
          | _ => None
          end
      end
  end.

(** Whether a destination of the mapping is owned by a module that is
    dirty. *)
Definition destination_dirty (mapping : Mapping.mapping) (self : module)
  : bool :=
  existsb
    (fun path =>
       match owner path self with
       | Some m => dirty m
       | None => false
       end)
    (Mapping.dest mapping).

(** The end of a flush: when [update_dirty_parameters] returns, the
    buffer is empty, every mapping of the module is unlocked and the
    module is not dirty. *)
Section Flush.

Variable fnmatch : string -> string -> bool.
Variable cast : ascii -> value -> value.
Variable should_send : Param.parameter -> bool.
Variable parent_check_mappings : list value -> world -> outcome world.

Lemma drain_empties (fuel : nat) (parent : parent_view) :
  forall w w',
    drain fnmatch cast should_send parent_check_mappings fuel parent w
    = Some (Done w') ->
    dirty_parameters (fst w') = [].
Proof.
  induction fuel as [|fuel IH]; intros [self eng] w' H; [discriminate|].
  cbn [drain] in H.
  destruct (dirty_parameters self) as [|n queue] eqn:Hq.
  - injection H as <-. exact Hq.
  - destruct (find_parameter n (with_dirty_parameters queue self))
      as [parameter|]; [|discriminate].
    match type of H with
    | match ?sent with _ => _ end = _ =>
        destruct sent as [[self1 eng1]|e w1]; [|discriminate]
    end.
    exact (IH _ _ H).
Qed.

Lemma update_dirty_parameters_sweeps (fuel : nat) (parent : parent_view)
  (w : world) (self' : module) (eng' : engine) :
  update_dirty_parameters fnmatch cast should_send parent_check_mappings
    fuel parent w = Some (Done (self', eng')) ->
  dirty_parameters self' = []
  /\ Forall (fun mapping => Mapping.locked mapping = false) (mappings self')
  /\ dirty self' = false.
Proof.
  unfold update_dirty_parameters.
  destruct (drain fnmatch cast should_send parent_check_mappings fuel parent w)
    as [[[self1 eng1]|e w1]|] eqn:Hd; try discriminate.
  intros H. injection H as <- <-.
  apply drain_empties in Hd. cbn [fst] in Hd.
  split; [exact Hd|]. split; [|reflexivity].
  cbn [mappings with_dirty with_mappings].
  induction (mappings self1) as [|m ms IH]; constructor; [reflexivity|exact IH].
Qed.

(** What [update_mapping] tests: a mapping that was locked at entry
    is left as it is and nothing runs; otherwise, after the
    distribution, the mapping is locked exactly when the module that
    runs [update_mapping] is dirty, whichever module owns the
    destinations; a raise leaves the mapping locked. *)
Lemma update_mapping_tests_self (mapping : Mapping.mapping)
  (parent : parent_view) (w : world) :
  match update_mapping fnmatch cast mapping parent w with
  | Done (mapping', w') =>
      if Mapping.locked mapping
      then mapping' = mapping /\ w' = w
      else Mapping.locked mapping' = dirty (fst w')
  | Raised _ (mapping', _) => Mapping.locked mapping' = true
  end.
Proof.
  unfold update_mapping, Mapping.lock.
  destruct (Mapping.locked mapping) eqn:Hl.
  - split; reflexivity.
  - cbn [Mapping.src Mapping.transform Mapping.n_args Mapping.with_locked].
    destruct (map_res _ (Mapping.src mapping)) as [src_values|e];
      [|reflexivity].
    destruct (Mapping.transform mapping src_values) as [dest_values|e];
      [|reflexivity].
    destruct (distribute _ _ _ _ _ _ _ _) as [w'|e w']; [|reflexivity].
    destruct (dirty (fst w')) eqn:Hd; cbn [negb]; cbv beta iota;
      rewrite Hd; reflexivity.
Qed.

End Flush.

Definition double : list value -> res value :=
  fun vs =>
    match vs with
    | [VInt x] => Ok (VInt (2 * x))
    | _ => Raise TypeError
    end.

(** ["M"] with a second parameter [c] of its own, and the mapping
    [add_mapping('a', 'c', lambda x: 2 * x)]. *)
Definition mod_local : module :=
  leaf "M" [int_parameter "a" 3 false; int_parameter "c" 0 false] []
    ["engine"; "M"].

Definition a_to_c : Mapping.mapping :=
  Mapping.mkMapping [[VStr "a"]] [[VStr "c"]] double 1 false.

(** A parameter is sent when its arguments differ from the last ones
    sent; there is no parent above ["M"]. *)
Definition send_when_new (p : Param.parameter) : bool :=
  negb (value_eqb (VList (Param.get_message_args p)) (Param.last_sent p)).

Definition no_parent : list value -> world -> outcome world :=
  fun _ w => Done w.

(** *** A mapping and its inverse over a submodule *)

(** ["M"] owns a mapping and its inverse over the parameters [a] and
    [b] of its submodule ["S"], as
    [M.add_mapping(('S', 'a'), ('S', 'b'), lambda x: 2 * x,
    lambda x: 2 * x)] leaves them. *)
Definition pair_over_S : list Mapping.mapping :=
  [Mapping.mkMapping [[VStr "S"; VStr "a"]] [[VStr "S"; VStr "b"]] double 1
     false;
   Mapping.mkMapping [[VStr "S"; VStr "b"]] [[VStr "S"; VStr "a"]] double 1
     false].

Definition slot (n : string) (v : Z) (is_dirty : bool) (sent : value)
  : Param.parameter :=
  Param.mkParameter n (VStr ("/" ++ n)) ["*"%char] [] [VInt v] (VInt 0)
    is_dirty sent false [].

(** ["S"] with its parameters, its buffer and its dirty flag. *)
Definition sub_ab (a b : Param.parameter) (queue : list string)
  (is_dirty : bool) : module :=
  mkModule "S" VNone VNone [a; b] [] [] queue is_dirty [] []
    ["engine"; "M"; "S"].

(** ["M"], clean and with both mappings unlocked, around ["S"]. *)
Definition holding (sub : module) : module :=
  mkModule "M" (VStr "osc") (VInt 9000) [] [] pair_over_S [] false [sub] []
    ["engine"; "M"].

(** [self.parent_module.check_mappings(path)] for ["S"] in ["M"]: the
    call runs on ["M"] around the submodule as it is, and ["S"] goes on
    with what the call made of it.  ["M"] itself is taken clean and
    with both mappings unlocked at every call, which is how each call
    leaves it ([parent_keeps_holding]). *)
Definition check_in_parent (path : list value) (w : world) : outcome world :=
  let (sub, eng) := w in
  match check_mappings literal_names passthrough no_parent (VList path) None
          (holding sub, eng) with
  | Done (parent, eng') =>
      match find_submodule (name sub) parent with
      | Some sub' => Done (sub', eng')
      | None => Raised KeyError (sub, eng')
      end
  | Raised e (parent, eng') =>
      match find_submodule (name sub) parent with
      | Some sub' => Raised e (sub', eng')
      | None => Raised e (sub, eng')
      end
  end.

(** [S.update_dirty_parameters()] under ["M"], and its loop. *)
Definition flush_S (fuel : nat) (w : world) : option (outcome world) :=
  update_dirty_parameters literal_names passthrough send_when_new
    check_in_parent fuel (view_of (holding (fst w))) w.

Definition drain_S (fuel : nat) (w : world) : option (outcome world) :=
  drain literal_names passthrough send_when_new check_in_parent fuel
    (Some (VStr "osc", VInt 9000)) w.

(** The two states the flush of ["S"] alternates between. *)
Definition at_a (u : Z) : module :=
  sub_ab (slot "a" (2 * (2 * u)) true (VList [VInt u]))
         (slot "b" (2 * u) false (VList [VInt (2 * u)])) ["a"] true.

Definition at_b (u : Z) : module :=
  sub_ab (slot "a" (2 * (2 * u)) false (VList [VInt (2 * (2 * u))]))
         (slot "b" (2 * (2 * (2 * u))) true (VList [VInt (2 * u)])) ["b"] true.

(** The engine with one more message in its queue. *)
Definition queued (msg : list value) (eng : engine) : engine :=
  with_message_queue (message_queue eng ++ [msg]) eng.

Ltac run := cbn -[Z.mul Z.eqb drain].

Lemma turn_a (u : Z) (eng : engine) (fuel : nat) :
  0 < u ->
  drain_S (S fuel) (at_a u, eng)
  = drain_S fuel
      (at_b u, queued [VStr "osc"; VInt 9000; VStr "/a"; VInt (2 * (2 * u))]
                 eng).
Proof.
  intros Hu. unfold drain_S. cbn [drain].
  assert (E1 : (2 * (2 * u) =? u) = false) by (apply Z.eqb_neq; lia).
  assert (E2 : (2 * (2 * (2 * u)) =? 2 * u) = false)
    by (apply Z.eqb_neq; lia).
  unfold at_a at 1. run.
  unfold send_when_new, at_a, holding, check_mappings. run.
  rewrite ?E1, ?E2. run. reflexivity.
Qed.

Lemma turn_b (u : Z) (eng : engine) (fuel : nat) :
  0 < u ->
  drain_S (S fuel) (at_b u, eng)
  = drain_S fuel
      (at_a (2 * (2 * u)),
       queued [VStr "osc"; VInt 9000; VStr "/b"; VInt (2 * (2 * (2 * u)))]
         eng).
Proof.
  intros Hu. unfold drain_S. cbn [drain].
  assert (E1 : (2 * (2 * (2 * u)) =? 2 * u) = false)
    by (apply Z.eqb_neq; lia).
  assert (E2 : (2 * (2 * (2 * (2 * u))) =? 2 * (2 * u)) = false)
    by (apply Z.eqb_neq; lia).
  unfold at_b at 1. run.
  unfold send_when_new, at_b, holding, check_mappings. run.
  rewrite ?E1, ?E2. run. reflexivity.
Qed.

Lemma drain_S_loops (fuel : nat) :
  forall u eng, 0 < u ->
    drain_S fuel (at_a u, eng) = None /\ drain_S fuel (at_b u, eng) = None.
Proof.
  induction fuel as [|fuel IH]; intros u eng Hu; [split; reflexivity|].
  split.
  - rewrite (turn_a u eng fuel Hu). apply IH. exact Hu.
  - rewrite (turn_b u eng fuel Hu). apply IH. lia.
Qed.

(** ["S"] as [check_mappings] of ["M"] finds it when the flush reports
    [a], or [b], and as it leaves it. *)
Definition reported_a (u : Z) : module :=
  sub_ab (slot "a" (2 * (2 * u)) true (VList [VInt (2 * (2 * u))]))
         (slot "b" (2 * u) false (VList [VInt (2 * u)])) [] true.

Definition reported_b (u : Z) : module :=
  sub_ab (slot "a" (2 * (2 * u)) false (VList [VInt (2 * (2 * u))]))
         (slot "b" (2 * (2 * (2 * u))) true
            (VList [VInt (2 * (2 * (2 * u)))])) [] true.

Lemma parent_keeps_holding (u : Z) (eng : engine) :
  0 < u ->
  check_mappings literal_names passthrough no_parent
    (VList [VStr "S"; VStr "a"]) None (holding (reported_a u), eng)
  = Done (holding
            (sub_ab (slot "a" (2 * (2 * u)) true (VList [VInt (2 * (2 * u))]))
               (slot "b" (2 * (2 * (2 * u))) true (VList [VInt (2 * u)]))
               ["b"] true), eng) /\
  check_mappings literal_names passthrough no_parent
    (VList [VStr "S"; VStr "b"]) None (holding (reported_b u), eng)
  = Done (holding
            (sub_ab
               (slot "a" (2 * (2 * (2 * (2 * u)))) true
                  (VList [VInt (2 * (2 * u))]))
               (slot "b" (2 * (2 * (2 * u))) true
                  (VList [VInt (2 * (2 * (2 * u)))]))
               ["a"] true), eng).
Proof.
  intros Hu.
  assert (E1 : (2 * (2 * (2 * u)) =? 2 * u) = false)
    by (apply Z.eqb_neq; lia).
  assert (E2 : (2 * (2 * (2 * (2 * u))) =? 2 * (2 * u)) = false)
    by (apply Z.eqb_neq; lia).
  unfold check_mappings, holding, reported_a, reported_b.
  split; run; rewrite ?E1, ?E2; run; reflexivity.
Qed.

(** ["S"] before and after [M.set('S', 'a', 3)], and as its flush
    goes on. *)
Definition clean_S : module :=
  sub_ab (slot "a" 0 false VNone) (slot "b" 0 false VNone) [] false.

Definition dirty_S : module :=
  sub_ab (slot "a" 3 true VNone) (slot "b" 0 false VNone) ["a"] true.

Lemma first_turns (eng : engine) (fuel : nat) :
  exists eng',
    drain_S (S (S fuel)) (dirty_S, eng) = drain_S fuel (at_a 3, eng').
Proof.
  eexists. unfold drain_S. cbn [drain]. reflexivity.
Qed.

Lemma flush_S_loops (fuel : nat) (eng : engine) :
  flush_S fuel (dirty_S, eng) = None.
Proof.
  unfold flush_S, update_dirty_parameters.
  change (drain literal_names passthrough send_when_new check_in_parent fuel
            (view_of (holding (fst (dirty_S, eng)))) (dirty_S, eng))
    with (drain_S fuel (dirty_S, eng)).
  assert (H : drain_S fuel (dirty_S, eng) = None).
  { destruct fuel as [|[|fuel]]; [reflexivity..|].
    destruct (first_turns eng fuel) as [eng' ->].
    apply drain_S_loops. lia. }
  rewrite H. reflexivity.
Qed.

(** The same pair on parameters of the owner itself. *)
Definition pair_local : list Mapping.mapping :=
  [Mapping.mkMapping [[VStr "a"]] [[VStr "b"]] double 1 false;
   Mapping.mkMapping [[VStr "b"]] [[VStr "a"]] double 1 false].

Definition dirty_L : module :=
  mkModule "M" (VStr "osc") (VInt 9000)
    [slot "a" 3 true VNone; slot "b" 0 false VNone] [] pair_local ["a"] true
    [] [] ["engine"; "M"].

(** C2, in the code: ["M"] owns a mapping from [a] to [b] and its
    inverse, both parameters of its submodule ["S"], and [a] is set to
    3.  When the flush of ["S"] reports [a], the first mapping runs and
    sets [b] to 6; ["S"], the module of the destination, is dirty, but
    [update_mapping] tests the flag of ["M"], which is clean, and
    unlocks the mapping at once.  So does every later run: each call
    leaves ["M"] clean with both mappings unlocked.  The flush of ["S"]
    then reports [b], the inverse runs, and so on: three turns later
    [b] is 24, the first mapping having run twice in one flush, and the
    flush never ends, whatever the fuel.  With the same pair on
    parameters of ["M"] itself each mapping runs once and the flush ends
    with [a = 12], [b = 6]. *)
Theorem mapping_runs_twice_in_a_flush :
  set literal_names passthrough [VStr "S"; VStr "a"; VInt 3] false false None
    (holding clean_S, idle_engine)
  = Done (holding dirty_S,
          with_dirty_modules [["engine"; "M"; "S"]] idle_engine) /\
  (let reported :=
     sub_ab (slot "a" 3 true (VList [VInt 3])) (slot "b" 0 false VNone) []
       true in
   let set_b :=
     sub_ab (slot "a" 3 true (VList [VInt 3])) (slot "b" 6 true VNone) ["b"]
       true in
   check_mappings literal_names passthrough no_parent
     (VList [VStr "S"; VStr "a"]) None (holding reported, idle_engine)
   = Done (holding set_b, idle_engine) /\
   dirty set_b = true /\
   Forall (fun mapping => destination_dirty mapping (holding set_b) = true)
     (mappings (holding set_b)) /\
   Forall (fun mapping => Mapping.locked mapping = false)
     (mappings (holding set_b))) /\
  (forall u eng, 0 < u ->
     check_mappings literal_names passthrough no_parent
       (VList [VStr "S"; VStr "a"]) None (holding (reported_a u), eng)
     = Done (holding
               (sub_ab
                  (slot "a" (2 * (2 * u)) true (VList [VInt (2 * (2 * u))]))
                  (slot "b" (2 * (2 * (2 * u))) true (VList [VInt (2 * u)]))
                  ["b"] true), eng) /\
     check_mappings literal_names passthrough no_parent
       (VList [VStr "S"; VStr "b"]) None (holding (reported_b u), eng)
     = Done (holding
               (sub_ab
                  (slot "a" (2 * (2 * (2 * (2 * u)))) true
                     (VList [VInt (2 * (2 * u))]))
                  (slot "b" (2 * (2 * (2 * u))) true
                     (VList [VInt (2 * (2 * (2 * u)))]))
                  ["a"] true), eng)) /\
  (forall fuel eng,
     exists eng',
       drain_S (3 + fuel) (dirty_S, eng)
       = drain_S fuel
           (sub_ab (slot "a" 12 false (VList [VInt 12]))
              (slot "b" 24 true (VList [VInt 6])) ["b"] true, eng')) /\
  (forall fuel eng, flush_S fuel (dirty_S, eng) = None) /\
  exists self' eng',
    update_dirty_parameters literal_names passthrough send_when_new no_parent
      4 None (dirty_L, idle_engine) = Some (Done (self', eng')) /\
    map Param.values (parameters self') = [[VInt 12]; [VInt 6]] /\
    message_queue eng'
    = [[VStr "osc"; VInt 9000; VStr "/a"; VInt 3];
       [VStr "osc"; VInt 9000; VStr "/b"; VInt 6];
       [VStr "osc"; VInt 9000; VStr "/a"; VInt 12]].
Proof.
  split; [reflexivity|].
  split.
  { cbv zeta. split; [reflexivity|]. split; [reflexivity|].
    split; repeat constructor. }
  split; [exact parent_keeps_holding|].
  split.
  { intros fuel eng.
    destruct (first_turns eng (S fuel)) as [eng1 H1].
    change (3 + fuel)%nat with (S (S (S fuel))). rewrite H1.
    rewrite (turn_a 3 eng1 fuel) by lia.
    eexists. reflexivity. }
  split; [exact flush_S_loops|].
  do 2 eexists. split; [vm_compute; reflexivity|].
  split; reflexivity.
Qed.

(** *** Parameters of a module under [set] *)

Lemma find_store_other (p' : Param.parameter) (n : string) (self : module) :
  Param.name p' <> n ->
  find_parameter n (store p' self) = find_parameter n self.
Proof.
  intros Hne. unfold find_parameter, store. cbn [parameters with_parameters].
  induction (parameters self) as [|p ps IH]; [reflexivity|].
  cbn [replace_parameter].
  destruct (String.eqb_spec (Param.name p) (Param.name p')) as [E|E].
  - cbn [find]. rewrite <- E in Hne.
    apply String.eqb_neq in Hne as Hp. rewrite Hp.
    rewrite E in Hne. apply String.eqb_neq in Hne. rewrite Hne. reflexivity.
  - cbn [find]. rewrite IH. reflexivity.
Qed.

Lemma find_store_same (p p' : Param.parameter) (self : module) :
  find_parameter (Param.name p') self = Some p ->
  find_parameter (Param.name p') (store p' self) = Some p'.
Proof.
  unfold find_parameter, store. cbn [parameters with_parameters].
  induction (parameters self) as [|q ps IH]; [discriminate|].
  cbn [replace_parameter find].
  destruct (String.eqb (Param.name q) (Param.name p')) eqn:E.
  - intros _. cbn [find]. rewrite String.eqb_refl. reflexivity.
  - intros H. cbn [find]. rewrite E. exact (IH H).
Qed.

Lemma find_parameter_name (n : string) (self : module) (p : Param.parameter) :
  find_parameter n self = Some p -> Param.name p = n.
Proof.
  unfold find_parameter. intros H. apply find_some in H.
  destruct H as [_ H]. apply String.eqb_eq in H. exact H.
Qed.

Section SetFacts.

Variable fnmatch : string -> string -> bool.
Variable cast : ascii -> value -> value.

Lemma param_set_fields (p : Param.parameter) (vs : list value) :
  let p' := fst (Param.set cast p vs) in
  Param.name p' = Param.name p /\ Param.dirty p' = Param.dirty p
  /\ Param.address p' = Param.address p
  /\ Param.default p' = Param.default p
  /\ Param.last_sent p' = Param.last_sent p
  /\ Param.animate_running p' = Param.animate_running p
  /\ Param.types p' = Param.types p
  /\ Param.static_args p' = Param.static_args p.
Proof.
  unfold Param.set.
  destruct (negb (Nat.eqb (List.length vs) (Param.n_args p))).
  - cbn [fst]. repeat split.
  - destruct (Param.set_slots cast _ vs (Param.values p)) as [vs' changed].
    cbn [fst]. repeat split.
Qed.

(** What one call of the body of [set] does to a module: it stores one
    parameter of the name it was given, may append that name to the
    buffer, and may raise the module's dirty flag. *)
Lemma set_body_parameters (fs pa : bool) (parent : parent_view)
  (q : string) (vals : list value) (self : module) (eng : engine) :
  let self' := fst (state_of (set_body cast fs pa parent (VStr q :: vals)
                                (self, eng))) in
  (parameters self' = parameters self
   \/ exists p', Param.name p' = q /\ parameters self' = parameters (store p' self))
  /\ (dirty_parameters self' = dirty_parameters self
      \/ dirty_parameters self' = (dirty_parameters self ++ [q])%list)
  /\ submodules self' = submodules self
  /\ aliases self' = aliases self
  /\ name self' = name self.
Proof.
  unfold set_body.
  destruct (find_parameter q self) as [p|] eqn:Hp;
    [|cbn; repeat split; left; reflexivity].
  apply find_parameter_name in Hp.
  set (p1 := if Param.animate_running p && negb pa
             then Param.stop_animation p else p).
  assert (Hn1 : Param.name p1 = q).
  { subst p1. destruct (Param.animate_running p && negb pa); exact Hp. }
  destruct (fs && truthy (Param.address p1)).
  - cbn [state_of fst]. repeat split; try (left; reflexivity).
    right. eexists. split; [|reflexivity].
    cbn. destruct (param_set_fields p1 vals) as [H _]. rewrite H. exact Hn1.
  - pose proof (param_set_fields p1 vals) as Hf.
    destruct (Param.set cast p1 vals) as [p2 changed]. cbn [fst] in Hf.
    destruct Hf as [Hname _].
    destruct (changed && negb (Param.dirty p2)).
    + unfold set_dirty.
      match goal with
      | |- context [if dirty ?m then _ else _] => destruct (dirty m)
      end; cbn [state_of fst]; repeat split; try (right; reflexivity);
        right; eexists; (split; [|reflexivity]); cbn; congruence.
    + cbn [state_of fst]. repeat split; try (left; reflexivity).
      right. exists p2. split; [congruence|reflexivity].
Qed.

(** A call sent to submodules changes nothing but the submodules. *)
Lemma for_submodules_own (method : parent_view -> world -> outcome world)
  (names : list string) :
  forall self eng,
    exists subs',
      fst (state_of (for_submodules method names (self, eng)))
      = with_submodules subs' self.
Proof.
  induction names as [|n names IH]; intros self eng; cbn [for_submodules].
  - exists (submodules self). destruct self; reflexivity.
  - destruct (find_submodule n self) as [sub|].
    + destruct (method (view_of self) (sub, eng)) as [[sub' eng']|e [sub' eng']].
      * destruct (IH (with_submodules
                        (replace_submodule sub' (submodules self)) self) eng')
          as [subs' H].
        exists subs'. rewrite H. reflexivity.
      * eexists. reflexivity.
    + exists (submodules self). destruct self; reflexivity.
Qed.

(** [set] with a leading name other than [n] keeps the parameter [n] of
    the module and does not add [n] to its buffer. *)
Lemma set_frame (n q : string) (rest : list value) (fs pa : bool)
  (parent : parent_view) (self : module) (eng : engine) :
  q <> n ->
  let self' := fst (state_of (set fnmatch cast (VStr q :: rest) fs pa parent
                                (self, eng))) in
  find_parameter n self' = find_parameter n self
  /\ count_occ string_dec (dirty_parameters self') n
     = count_occ string_dec (dirty_parameters self) n.
Proof.
  intros Hne. cbn [set fst].
  destruct (resolve fnmatch true self (VStr q)) as [|names].
  - destruct (set_body_parameters fs pa parent q rest self eng)
      as [Hps [Hq _]].
    split.
    + unfold find_parameter in *.
      destruct Hps as [-> | [p' [Hn ->]]]; [reflexivity|].
      apply (find_store_other p' n self). congruence.
    + destruct Hq as [-> | ->]; [reflexivity|].
      rewrite count_occ_app. cbn [count_occ].
      destruct (string_dec q n); [contradiction|]. lia.
  - destruct (for_submodules_own
                (set fnmatch cast rest fs pa) names self eng) as [subs' H].
    rewrite H. split; reflexivity.
Qed.

Lemma state_of_and_then {S : Type} (o : outcome S) (k : S -> outcome S) :
  state_of (and_then o k)
  = match o with
    | Done s => state_of (k s)
    | Raised _ s => s
    end.
Proof. destruct o; reflexivity. Qed.

Lemma reset_names_frame (n : string) (p : Param.parameter)
  (parent : parent_view) (names : list string) :
  Param.default p = VNone ->
  forall w,
    find_parameter n (fst w) = Some p ->
    let w' := state_of (reset_names fnmatch cast names parent w) in
    find_parameter n (fst w') = Some p
    /\ count_occ string_dec (dirty_parameters (fst w')) n
       = count_occ string_dec (dirty_parameters (fst w)) n.
Proof.
  intros Hd.
  induction names as [|q names IH]; intros w Hp; cbn [reset_names].
  - split; [exact Hp|reflexivity].
  - rewrite state_of_and_then.
    assert (Hstep :
      find_parameter n (fst (state_of (reset_name fnmatch cast q parent w)))
        = Some p
      /\ count_occ string_dec
           (dirty_parameters
              (fst (state_of (reset_name fnmatch cast q parent w)))) n
         = count_occ string_dec (dirty_parameters (fst w)) n).
    { unfold reset_name.
      destruct (find_parameter q (fst w)) as [pq|] eqn:Hq;
        [|split; [exact Hp|reflexivity]].
      destruct (String.eqb_spec q n) as [->|Hne].
      - rewrite Hp in Hq. injection Hq as <-. rewrite Hd.
        split; [exact Hp|reflexivity].
      - destruct w as [self eng]. cbn [fst] in *.
        destruct (Param.default pq);
          try (split; [exact Hp|reflexivity]);
          match goal with
          | |- context [set fnmatch cast (VStr q :: ?r) false false parent _] =>
              destruct (set_frame n q r false false parent self eng Hne)
                as [H1 H2]; rewrite H1, H2; split; [exact Hp|reflexivity]
          end. }
    destruct Hstep as [Hfind Hcount].
    destruct (reset_name fnmatch cast q parent w) as [w1|e w1];
      cbn [state_of] in *.
    + destruct (IH w1 Hfind) as [H1 H2]. split; [exact H1|].
      rewrite H2. exact Hcount.
    + split; assumption.
Qed.

(** C10: for a parameter [n] whose default is [None], [reset(n)] does
    nothing at all, and [reset()] leaves the parameter as it is (values,
    dirty flag, last sent snapshot, animation) and does not queue it. *)
Theorem reset_skips_none_default (parent : parent_view) (self : module)
  (eng : engine) (n : string) (p : Param.parameter)
  (Hp : find_parameter n self = Some p)
  (Hd : Param.default p = VNone) :
  reset fnmatch cast (Some n) parent (self, eng) = Done (self, eng)
  /\ (let self' :=
        fst (state_of (reset fnmatch cast None parent (self, eng))) in
      find_parameter n self' = Some p
      /\ count_occ string_dec (dirty_parameters self') n
         = count_occ string_dec (dirty_parameters self) n).
Proof.
  split.
  - cbn [reset]. unfold reset_name. cbn [fst]. rewrite Hp, Hd. reflexivity.
  - cbn [reset fst snd].
    destruct self as [nm pr po ps an ma dp d subs al mp].
    cbn [reset_all submodules parameters].
    destruct (each_submodule _ subs eng) as [[subs' eng']|e [subs' eng']].
    + apply reset_names_frame; [exact Hd|exact Hp].
    + cbn [state_of fst]. split; [exact Hp|reflexivity].
Qed.

End SetFacts.

(** *** The dirty buffer under [set] *)

(** The buffer of a module holds no name twice, and only names of
    parameters whose dirty flag is set. *)
Definition buffer_ok (self : module) : Prop :=
  NoDup (dirty_parameters self)
  /\ forall n, In n (dirty_parameters self) ->
       exists p, find_parameter n self = Some p /\ Param.dirty p = true.

(** A module and all the modules below it. *)
Fixpoint nodes (self : module) : list module :=
  self :: flat_map nodes (submodules self).

Definition pending_ok (self : module) : Prop := Forall buffer_ok (nodes self).

Lemma pending_ok_unfold (self : module) :
  pending_ok self <-> buffer_ok self /\ Forall pending_ok (submodules self).
Proof.
  unfold pending_ok. destruct self as [nm pr po ps an ma dp d subs al mp].
  cbn [nodes submodules]. rewrite Forall_cons_iff, Forall_flat_map.
  reflexivity.
Qed.

Lemma buffer_ok_with_submodules (subs : list module) (self : module) :
  buffer_ok (with_submodules subs self) <-> buffer_ok self.
Proof. reflexivity. Qed.

Lemma replace_submodule_Forall (P : module -> Prop) (sub' : module)
  (subs : list module) :
  P sub' -> Forall P subs -> Forall P (replace_submodule sub' subs).
Proof.
  intros Hsub. induction 1 as [|sub subs Hp Hall IH]; cbn [replace_submodule].
  - constructor.
  - destruct (String.eqb (name sub) (name sub')); constructor; assumption.
Qed.

Section SetOnce.

Variable fnmatch : string -> string -> bool.
Variable cast : ascii -> value -> value.

Lemma set_slots_settled (vs : list value) :
  forall tags olds,
    Param.set_slots cast tags vs
      (fst (Param.set_slots cast tags vs olds))
    = (fst (Param.set_slots cast tags vs olds), false).
Proof.
  induction vs as [|v vs IH]; intros tags olds; [reflexivity|].
  destruct olds as [|old olds]; [reflexivity|].
  cbn [Param.set_slots].
  specialize (IH (tl tags) olds).
  destruct (Param.set_slots cast (tl tags) vs olds) as [rest changed].
  cbn [fst] in IH.
  destruct (value_eqb (cast (hd "*"%char tags) v) old) eqn:E;
    cbn [fst Param.set_slots]; rewrite IH.
  - rewrite E. reflexivity.
  - rewrite value_eqb_refl. reflexivity.
Qed.

(** Two parameters with the same slots: type tags, static and dynamic
    values. *)
Definition same_slots (p p' : Param.parameter) : Prop :=
  Param.types p' = Param.types p
  /\ Param.static_args p' = Param.static_args p
  /\ Param.values p' = Param.values p.

Lemma param_set_convergent (p p' : Param.parameter) (vs : list value) :
  same_slots (fst (Param.set cast p vs)) p' ->
  snd (Param.set cast p' vs) = false.
Proof.
  unfold same_slots, Param.set, Param.n_args.
  destruct (negb (Nat.eqb (List.length vs)
                    (List.length (Param.types p)
                     - List.length (Param.static_args p)))) eqn:E.
  - cbn [fst]. intros [-> [-> _]]. rewrite E. reflexivity.
  - pose proof (set_slots_settled vs
                  (skipn (List.length (Param.static_args p)) (Param.types p))
                  (Param.values p)) as H.
    destruct (Param.set_slots cast _ vs (Param.values p)) as [vs' changed].
    cbn [fst Param.types Param.static_args Param.values Param.with_values] in *.
    intros [-> [-> ->]]. rewrite E, H. reflexivity.
Qed.

Lemma set_dirty_fields (w : world) :
  parameters (fst (set_dirty w)) = parameters (fst w)
  /\ dirty_parameters (fst (set_dirty w)) = dirty_parameters (fst w)
  /\ submodules (fst (set_dirty w)) = submodules (fst w).
Proof.
  destruct w as [self eng]. unfold set_dirty.
  destruct (dirty self); repeat split.
Qed.

(** The second of two calls with the same values reports no change and
    queues nothing. *)
Lemma set_body_settled (fs pa : bool) (parent : parent_view) (q : string)
  (vals : list value) (self : module) (eng : engine)
  (p0 p : Param.parameter) :
  find_parameter q self = Some p ->
  same_slots (fst (Param.set cast p0 vals)) p ->
  dirty_parameters
    (fst (state_of (set_body cast fs pa parent (VStr q :: vals) (self, eng))))
  = dirty_parameters self.
Proof.
  intros Hp Hslots. unfold set_body. rewrite Hp.
  set (p1 := if Param.animate_running p && negb pa
             then Param.stop_animation p else p).
  assert (H1 : same_slots (fst (Param.set cast p0 vals)) p1).
  { subst p1. destruct (Param.animate_running p && negb pa); exact Hslots. }
  destruct (fs && truthy (Param.address p1)); [reflexivity|].
  pose proof (param_set_convergent p0 p1 vals H1) as Hc.
  destruct (Param.set cast p1 vals) as [p2 changed]. cbn [snd] in Hc.
  subst changed. reflexivity.
Qed.

Lemma set_body_stores (fs pa : bool) (parent : parent_view) (q : string)
  (vals : list value) (self : module) (eng : engine) (p : Param.parameter) :
  find_parameter q self = Some p ->
  exists p0 p',
    find_parameter q
      (fst (state_of (set_body cast fs pa parent (VStr q :: vals) (self, eng))))
    = Some p'
    /\ same_slots (fst (Param.set cast p0 vals)) p'.
Proof.
  intros Hp. unfold set_body. rewrite Hp.
  pose proof (find_parameter_name _ _ _ Hp) as Hname.
  set (p1 := if Param.animate_running p && negb pa
             then Param.stop_animation p else p).
  assert (Hn1 : Param.name p1 = q).
  { subst p1. destruct (Param.animate_running p && negb pa); exact Hname. }
  pose proof (param_set_fields cast p1 vals) as Hf.
  exists p1.
  destruct (fs && truthy (Param.address p1)).
  - cbn [state_of fst].
    exists (Param.set_last_sent (fst (Param.set cast p1 vals))).
    split; [|repeat split].
    rewrite <- Hn1 in Hp |- *.
    replace (Param.name p1)
      with (Param.name (Param.set_last_sent (fst (Param.set cast p1 vals))))
      in Hp |- * by (cbn; apply Hf).
    exact (find_store_same _ _ _ Hp).
  - destruct (Param.set cast p1 vals) as [p2 changed] eqn:E2.
    cbn [fst] in Hf |- *. destruct Hf as [Hn2 _].
    destruct (changed && negb (Param.dirty p2)).
    + exists (Param.with_dirty true p2). split; [|repeat split].
      cbn [state_of].
      match goal with
      | |- context [set_dirty ?w] =>
          destruct (set_dirty_fields w) as [Hps _]
      end.
      unfold find_parameter in *. rewrite Hps.
      cbn [fst parameters with_dirty_parameters].
      rewrite <- Hn1 in Hp |- *. rewrite <- Hn2 in Hp |- *.
      exact (find_store_same p (Param.with_dirty true p2) self Hp).
    + exists p2. split; [|repeat split].
      cbn [state_of fst].
      rewrite <- Hn1 in Hp |- *. rewrite <- Hn2 in Hp |- *.
      exact (find_store_same _ _ _ Hp).
Qed.

Lemma set_body_twice (fs pa fs' pa' : bool) (parent parent' : parent_view)
  (q : string) (vals : list value) (self : module) (eng eng' : engine) :
  let self1 :=
    fst (state_of (set_body cast fs pa parent (VStr q :: vals) (self, eng))) in
  dirty_parameters
    (fst (state_of (set_body cast fs' pa' parent' (VStr q :: vals)
                      (self1, eng'))))
  = dirty_parameters self1.
Proof.
  cbv zeta.
  destruct (find_parameter q self) as [p|] eqn:Hp.
  - destruct (set_body_stores fs pa parent q vals self eng p Hp)
      as [p0 [p' [Hfind Hslots]]].
    exact (set_body_settled fs' pa' parent' q vals _ eng' p0 p' Hfind Hslots).
  - assert (H1 : set_body cast fs pa parent (VStr q :: vals) (self, eng)
                 = Done (self, eng)).
    { unfold set_body. rewrite Hp. reflexivity. }
    rewrite H1. cbn [state_of fst]. unfold set_body. rewrite Hp. reflexivity.
Qed.

Lemma buffer_ok_store (p p' : Param.parameter) (self : module) :
  buffer_ok self ->
  find_parameter (Param.name p') self = Some p ->
  (Param.dirty p = true -> Param.dirty p' = true) ->
  buffer_ok (store p' self).
Proof.
  intros [Hnd Hin] Hp Hd. split; [exact Hnd|].
  intros n Hn. cbn [dirty_parameters store with_parameters] in Hn.
  destruct (Hin n Hn) as [pn [Hfind Hdirty]].
  destruct (String.eqb_spec (Param.name p') n) as [<-|Hne].
  - exists p'. split; [exact (find_store_same _ _ _ Hp)|].
    apply Hd. congruence.
  - exists pn. split; [|exact Hdirty].
    rewrite find_store_other by exact Hne. exact Hfind.
Qed.

Lemma buffer_ok_enqueue (p p' : Param.parameter) (self : module) :
  buffer_ok self ->
  find_parameter (Param.name p') self = Some p ->
  Param.dirty p = false ->
  Param.dirty p' = true ->
  buffer_ok
    (with_dirty_parameters (dirty_parameters self ++ [Param.name p'])
       (store p' self)).
Proof.
  intros [Hnd Hin] Hp Hclean Hd. split.
  - cbn [dirty_parameters with_dirty_parameters store with_parameters].
    apply NoDup_app; [exact Hnd|repeat constructor; intros []|].
    intros n Hn [<-|[]].
    destruct (Hin _ Hn) as [pn [Hfind Hdirty]]. congruence.
  - intros n Hn.
    cbn [dirty_parameters with_dirty_parameters store with_parameters] in Hn.
    change (find_parameter n (with_dirty_parameters ?q ?m))
      with (find_parameter n m).
    destruct (String.eqb_spec (Param.name p') n) as [<-|Hne].
    + exists p'. split; [exact (find_store_same _ _ _ Hp)|exact Hd].
    + apply in_app_or in Hn. destruct Hn as [Hn|[Hn|[]]]; [|congruence].
      destruct (Hin n Hn) as [pn [Hfind Hdirty]].
      exists pn. split; [|exact Hdirty].
      rewrite find_store_other by exact Hne. exact Hfind.
Qed.

Lemma buffer_ok_set_dirty (w : world) :
  buffer_ok (fst w) -> buffer_ok (fst (set_dirty w)).
Proof.
  destruct w as [self eng]. unfold set_dirty.
  destruct (dirty self); intros H; exact H.
Qed.

Lemma set_body_buffer_ok (fs pa : bool) (parent : parent_view)
  (args : list value) (w : world) :
  buffer_ok (fst w) ->
  buffer_ok (fst (state_of (set_body cast fs pa parent args w))).
Proof.
  destruct w as [self eng]. cbn [fst]. intros Hok. unfold set_body.
  destruct args as [|first vals]; [exact Hok|].
  destruct first as [| z | x | q | items | items];
    try (destruct (hashable _); exact Hok).
  destruct (find_parameter q self) as [p|] eqn:Hp; [|exact Hok].
  pose proof (find_parameter_name _ _ _ Hp) as Hname.
  set (p1 := if Param.animate_running p && negb pa
             then Param.stop_animation p else p).
  assert (Hn1 : Param.name p1 = q /\ Param.dirty p1 = Param.dirty p).
  { subst p1. destruct (Param.animate_running p && negb pa);
      split; solve [exact Hname | reflexivity]. }
  destruct Hn1 as [Hn1 Hd1].
  pose proof (param_set_fields cast p1 vals) as Hf.
  destruct (fs && truthy (Param.address p1)).
  - cbn [state_of fst]. destruct Hf as [Hn2 [Hd2 _]].
    apply (buffer_ok_store p); [exact Hok| |].
    + cbn [Param.name Param.set_last_sent Param.with_last_sent].
      rewrite Hn2, Hn1. exact Hp.
    + cbn [Param.dirty Param.set_last_sent Param.with_last_sent].
      rewrite Hd2, Hd1. trivial.
  - destruct (Param.set cast p1 vals) as [p2 changed].
    cbn [fst] in Hf. destruct Hf as [Hn2 [Hd2 _]].
    destruct (changed && negb (Param.dirty p2)) eqn:E.
    + apply andb_prop in E. destruct E as [_ E].
      apply negb_true_iff in E.
      cbn [state_of]. apply buffer_ok_set_dirty. cbn [fst].
      change (dirty_parameters (store (Param.with_dirty true p2) self))
        with (dirty_parameters self).
      replace q with (Param.name (Param.with_dirty true p2))
        by (cbn; congruence).
      apply (buffer_ok_enqueue p); [exact Hok| |congruence|reflexivity].
      cbn [Param.name Param.with_dirty]. rewrite Hn2, Hn1. exact Hp.
    + cbn [state_of fst].
      apply (buffer_ok_store p); [exact Hok| |congruence].
      rewrite Hn2, Hn1. exact Hp.
Qed.

Lemma set_body_submodules (fs pa : bool) (parent : parent_view)
  (args : list value) (w : world) :
  submodules (fst (state_of (set_body cast fs pa parent args w)))
  = submodules (fst w).
Proof.
  destruct w as [self eng]. cbn [fst].
  destruct args as [|first vals]; [reflexivity|].
  destruct first as [| z | x | q | items | items];
    try (unfold set_body; destruct (hashable _); reflexivity).
  apply (set_body_parameters cast fs pa parent q vals self eng).
Qed.

Lemma for_submodules_pending_ok
  (method : parent_view -> world -> outcome world) (names : list string) :
  (forall parent w, pending_ok (fst w) ->
                    pending_ok (fst (state_of (method parent w)))) ->
  forall w, pending_ok (fst w) ->
            pending_ok (fst (state_of (for_submodules method names w))).
Proof.
  intros Hmethod.
  induction names as [|n names IH]; intros [self eng] Hok;
    cbn [for_submodules]; [exact Hok|].
  destruct (find_submodule n self) as [sub|] eqn:Hsub; [|exact Hok].
  cbn [fst] in Hok. apply pending_ok_unfold in Hok as Hself.
  destruct Hself as [Hbuf Hall].
  assert (Hsubok : pending_ok sub).
  { unfold find_submodule in Hsub. apply find_some in Hsub.
    rewrite Forall_forall in Hall. apply Hall, Hsub. }
  specialize (Hmethod (view_of self) (sub, eng) Hsubok).
  assert (Hnext : forall sub', pending_ok sub' ->
    pending_ok (with_submodules (replace_submodule sub' (submodules self))
                  self)).
  { intros sub' Hs. apply pending_ok_unfold. split; [exact Hbuf|].
    cbn [submodules with_submodules].
    apply replace_submodule_Forall; assumption. }
  destruct (method (view_of self) (sub, eng)) as [[sub' eng']|e [sub' eng']];
    cbn [state_of fst] in Hmethod.
  - apply IH. cbn [fst]. apply Hnext, Hmethod.
  - cbn [state_of fst]. apply Hnext, Hmethod.
Qed.

Lemma set_pending_ok (args : list value) :
  forall fs pa parent w,
    pending_ok (fst w) ->
    pending_ok (fst (state_of (set fnmatch cast args fs pa parent w))).
Proof.
  induction args as [|first rest IH]; intros fs pa parent w Hok;
    cbn [set]; [exact Hok|].
  destruct (resolve fnmatch true (fst w) first) as [|names].
  - apply pending_ok_unfold. apply pending_ok_unfold in Hok.
    destruct Hok as [Hbuf Hall]. split.
    + apply set_body_buffer_ok, Hbuf.
    + rewrite set_body_submodules. exact Hall.
  - apply for_submodules_pending_ok; [|exact Hok].
    intros parent' w' Hw'. apply IH, Hw'.
Qed.

(** When the body of [set] queues the parameter it found: off the
    forced path, when [Parameter.set] reports a change and the parameter
    is not flagged dirty. *)
Definition enqueues (fs pa : bool) (p : Param.parameter) (vals : list value)
  : bool :=
  negb (fs && truthy (Param.address p))
  && snd (Param.set cast
            (if Param.animate_running p && negb pa
             then Param.stop_animation p else p) vals)
  && negb (Param.dirty p).

Lemma set_body_enqueues (fs pa : bool) (parent : parent_view) (q : string)
  (vals : list value) (self : module) (eng : engine) (p : Param.parameter) :
  find_parameter q self = Some p ->
  let w' := state_of (set_body cast fs pa parent (VStr q :: vals) (self, eng))
  in
  dirty_parameters (fst w')
  = (if enqueues fs pa p vals then (dirty_parameters self ++ [q])%list
     else dirty_parameters self)
  /\ dirty (fst w') = enqueues fs pa p vals || dirty self
  /\ dirty_modules (snd w')
     = (if enqueues fs pa p vals && negb (dirty self)
        then (dirty_modules eng ++ [module_path self])%list
        else dirty_modules eng).
Proof.
  intros Hp. cbv zeta. unfold enqueues, set_body. rewrite Hp.
  set (p1 := if Param.animate_running p && negb pa
             then Param.stop_animation p else p).
  assert (H1 : Param.address p1 = Param.address p
               /\ Param.dirty p1 = Param.dirty p).
  { subst p1. destruct (Param.animate_running p && negb pa);
      split; reflexivity. }
  destruct H1 as [Ha Hd]. rewrite Ha.
  destruct (fs && truthy (Param.address p)).
  - cbn [state_of fst snd negb andb orb]. repeat split.
    unfold send.
    destruct (match parent with
              | Some parent_proto_port =>
                  if negb (truthy (port self)) then parent_proto_port
                  else (protocol self, port self)
              | None => (protocol self, port self)
              end) as [proto po].
    destruct (truthy po); reflexivity.
  - pose proof (param_set_fields cast p1 vals) as Hf.
    destruct (Param.set cast p1 vals) as [p2 changed].
    cbn [fst snd negb andb] in *. destruct Hf as [_ [Hd2 _]].
    rewrite Hd2, Hd.
    destruct (changed && negb (Param.dirty p)).
    + cbn [state_of andb orb]. unfold set_dirty.
      cbn [dirty with_dirty_parameters store with_parameters].
      destruct (dirty self) eqn:Hds;
        cbn [fst snd dirty with_dirty with_dirty_parameters store
             with_parameters negb];
        rewrite ?Hds; repeat split.
    + cbn [state_of fst snd orb andb]. repeat split.
Qed.

Lemma resolve_same (pm : bool) (self self' : module) (first : value) :
  aliases self' = aliases self ->
  map name (submodules self') = map name (submodules self) ->
  resolve fnmatch pm self' first = resolve fnmatch pm self first.
Proof. unfold resolve. intros -> ->. reflexivity. Qed.

(** C1: starting from a tree whose buffers hold no name twice and only
    parameters flagged dirty, two calls of [set] with the same arguments
    (whatever their flags) leave such a tree, so that no name is twice in
    a buffer; on the module that owns the parameter, the first call queues
    it exactly when it does not take the forced path, [Parameter.set]
    reports a change and the parameter is not flagged dirty, it then marks
    the module dirty and queues the module unless it was dirty already,
    and the second call queues nothing. *)
Theorem set_dirties_once (args : list value) (fs pa fs' pa' : bool)
  (parent parent' : parent_view) (self : module) (eng eng' : engine)
  (Hok : pending_ok self) :
  let w1 := state_of (set fnmatch cast args fs pa parent (self, eng)) in
  let w2 := state_of (set fnmatch cast args fs' pa' parent' (fst w1, eng')) in
  pending_ok (fst w1) /\ pending_ok (fst w2)
  /\ (forall m n, In m (nodes (fst w2)) ->
        (count_occ string_dec (dirty_parameters m) n <= 1)%nat)
  /\ (forall q vals p,
        args = VStr q :: vals ->
        resolve fnmatch true self (VStr q) = Local ->
        find_parameter q self = Some p ->
        dirty_parameters (fst w1)
        = (if enqueues fs pa p vals
           then (dirty_parameters self ++ [q])%list
           else dirty_parameters self)
        /\ dirty (fst w1) = enqueues fs pa p vals || dirty self
        /\ dirty_modules (snd w1)
           = (if enqueues fs pa p vals && negb (dirty self)
              then (dirty_modules eng ++ [module_path self])%list
              else dirty_modules eng)
        /\ dirty_parameters (fst w2) = dirty_parameters (fst w1)).
Proof.
  cbv zeta.
  assert (H1 : pending_ok
                 (fst (state_of (set fnmatch cast args fs pa parent (self, eng))))).
  { apply set_pending_ok. exact Hok. }
  assert (H2 : pending_ok
    (fst (state_of
            (set fnmatch cast args fs' pa' parent'
               (fst (state_of (set fnmatch cast args fs pa parent (self, eng))),
                eng'))))).
  { apply set_pending_ok. exact H1. }
  split; [exact H1|]. split; [exact H2|]. split.
  - intros m n Hm. unfold pending_ok in H2. rewrite Forall_forall in H2.
    destruct (H2 m Hm) as [Hnd _].
    apply (proj1 (NoDup_count_occ string_dec _) Hnd).
  - intros q vals p -> Hlocal Hp. cbn [set fst]. rewrite Hlocal.
    destruct (set_body_enqueues fs pa parent q vals self eng p Hp)
      as [Hq [Hd Hm]].
    split; [exact Hq|]. split; [exact Hd|]. split; [exact Hm|].
    destruct (set_body_parameters cast fs pa parent q vals self eng)
      as [_ [_ [Hsubs [Hal _]]]].
    rewrite (resolve_same true self) by (rewrite ?Hsubs; assumption || reflexivity).
    rewrite Hlocal.
    apply set_body_twice.
Qed.

End SetOnce.

(** [set('a', 5)] twice on ["M"], whose parameter [a] holds 3. *)
Lemma set_dirties_once_witness :
  pending_ok (mod_M false)
  /\ exists self1 eng1 self2 eng2,
       set literal_names passthrough [VStr "a"; VInt 5] false false None
         (mod_M false, idle_engine) = Done (self1, eng1)
       /\ set literal_names passthrough [VStr "a"; VInt 5] false false None
            (self1, eng1) = Done (self2, eng2)
       /\ dirty_parameters self1 = ["a"]
       /\ dirty self1 = true
       /\ dirty_modules eng1 = [["engine"; "M"]]
       /\ dirty_parameters self2 = dirty_parameters self1
       /\ dirty_modules eng2 = dirty_modules eng1
       /\ pending_ok self2.
Proof.
  assert (Hok : pending_ok (mod_M false)).
  { repeat constructor; intros n []. }
  split; [exact Hok|].
  destruct (set_dirties_once literal_names passthrough
              [VStr "a"; VInt 5] false false false false None None
              (mod_M false) idle_engine
              (snd (state_of
                      (set literal_names passthrough [VStr "a"; VInt 5] false
                         false None (mod_M false, idle_engine))))
              Hok) as [_ [H2 [_ Hown]]].
  destruct (Hown "a" [VInt 5] (int_parameter "a" 3 false)
              eq_refl eq_refl eq_refl) as [Hfirst [Hdirty [Hqueue Hsecond]]].
  do 4 eexists.
  split; [reflexivity|]. split; [reflexivity|].
  split; [exact Hfirst|]. split; [exact Hdirty|]. split; [exact Hqueue|].
  split; [exact Hsecond|]. split; [reflexivity|exact H2].
Defined.

(** A module with [x], whose default is [None], and [y], whose default
    is 0. *)
Definition no_default_x : Param.parameter :=
  Param.mkParameter "x" (VStr "/x") ["*"%char] [] [VInt 7] VNone false VNone
    false [].

Definition mod_xy : module :=
  leaf "M" [no_default_x; int_parameter "y" 3 false] [] ["engine"; "M"].

Lemma reset_skips_none_default_witness :
  reset literal_names passthrough (Some "x") None (mod_xy, idle_engine)
    = Done (mod_xy, idle_engine)
  /\ exists self' eng' y,
       reset literal_names passthrough None None (mod_xy, idle_engine)
         = Done (self', eng')
       /\ find_parameter "x" self' = Some no_default_x
       /\ find_parameter "y" self' = Some y
       /\ Param.values y = [VInt 0]
       /\ dirty_parameters self' = ["y"].
Proof.
  destruct (reset_skips_none_default literal_names passthrough None mod_xy
              idle_engine "x" no_default_x eq_refl eq_refl) as [Hx [Hall _]].
  split; [exact Hx|].
  do 3 eexists. split; [reflexivity|].
  split; [exact Hall|]. repeat split.
Defined.

(** *** [get_state] fed back to [set_state] *)

(** The values of a state entry, after the name. *)
Definition own_values (p : Param.parameter) : list value :=
  match Param.get p with
  | VList items => items
  | val => [val]
  end.

Lemma state_entry_own_values (p : Param.parameter) :
  state_entry p = VList (VStr (Param.name p) :: own_values p).
Proof.
  unfold state_entry, own_values. destruct (Param.get p); reflexivity.
Qed.

(** What a [set] of its own value does to a parameter: a running
    animation is stopped and, on the forced path of a parameter with an
    address, the snapshot of the last sent arguments is taken. *)
Definition touch (force_send : bool) (p : Param.parameter) : Param.parameter :=
  let p1 := if Param.animate_running p then Param.stop_animation p else p in
  if force_send && truthy (Param.address p1)
  then Param.set_last_sent p1 else p1.

Fixpoint resent (force_send : bool) (self : module) : module :=
  with_submodules (map (resent force_send) (submodules self))
    (with_parameters (map (touch force_send) (parameters self)) self).

(** The messages a forced [set] of each parameter in [ps] sends. *)
Definition resend_own (force_send : bool) (parent : parent_view)
  (self : module) (ps : list Param.parameter) (eng : engine) : engine :=
  fold_left
    (fun e p =>
       if force_send && truthy (Param.address p)
       then send parent (Param.address p) (Param.get_message_args p) self e
       else e)
    ps eng.

Fixpoint resent_engine (force_send : bool) (parent : parent_view)
  (self : module) (eng : engine) : engine :=
  fold_left
    (fun e sub => resent_engine force_send (view_of self) sub e)
    (submodules self)
    (resend_own force_send parent self (parameters self) eng).

Fixpoint distinct (l : list string) : bool :=
  match l with
  | [] => true
  | x :: rest => negb (existsb (String.eqb x) rest) && distinct rest
  end.

Section RoundTrip.

Variable fnmatch : string -> string -> bool.
Variable cast : ascii -> value -> value.

(** [Parameter.set] given the parameter's own value reports no change. *)
Definition accepts_back (p : Param.parameter) : bool :=
  negb (snd (Param.set cast p (own_values p))).

Definition is_local (self : module) (n : string) : bool :=
  match resolve fnmatch true self (VStr n) with
  | Local => true
  | Submodules _ => false
  end.

Definition is_submodule (self : module) (n : string) : bool :=
  match resolve fnmatch true self (VStr n) with
  | Submodules [n'] => String.eqb n' n
  | _ => false
  end.

(** A tree in which names resolve to what they name: the keys of each
    dict are distinct, the name of a parameter is not taken for a
    submodule, an alias or a pattern, the name of a submodule selects that
    submodule, and every parameter accepts its own value back. *)
Fixpoint ready (self : module) : bool :=
  distinct (map Param.name (parameters self))
  && distinct (map name (submodules self))
  && forallb (fun p => is_local self (Param.name p) && accepts_back p)
       (parameters self)
  && forallb (fun sub => is_submodule self (name sub)) (submodules self)
  && forallb ready (submodules self).

End RoundTrip.

(** Dicts as lists keyed by a name: lookup and replacement at the
    position of a key that occurs once. *)
Section Keyed.

Variable A : Type.
Variable key : A -> string.

Fixpoint replace_keyed (x' : A) (l : list A) : list A :=
  match l with
  | [] => []
  | x :: rest =>
      if String.eqb (key x) (key x') then x' :: rest
      else x :: replace_keyed x' rest
  end.

Lemma distinct_head (d : A) (l : list A) (x : A) :
  distinct (map key (d :: l)) = true -> In x l -> key d <> key x.
Proof.
  cbn [map distinct]. intros H Hin Heq.
  apply andb_prop in H. destruct H as [H _].
  apply negb_true_iff in H.
  assert (Hex : existsb (String.eqb (key d)) (map key l) = true).
  { apply existsb_exists. exists (key x). split.
    - apply in_map, Hin.
    - apply String.eqb_eq, Heq. }
  congruence.
Qed.

Lemma distinct_tail (d : A) (l : list A) :
  distinct (map key (d :: l)) = true -> distinct (map key l) = true.
Proof.
  cbn [map distinct]. intros H. apply andb_prop in H. apply H.
Qed.

Lemma keyed_find (x : A) (rest : list A) :
  forall done,
    distinct (map key (done ++ x :: rest)) = true ->
    find (fun y => String.eqb (key y) (key x)) (done ++ x :: rest) = Some x.
Proof.
  induction done as [|d done IH]; intros H; cbn [app find].
  - rewrite String.eqb_refl. reflexivity.
  - assert (Hne : key d <> key x).
    { apply (distinct_head d (done ++ x :: rest)); [exact H|].
      apply in_or_app. right. left. reflexivity. }
    apply String.eqb_neq in Hne. rewrite Hne.
    apply IH. exact (distinct_tail _ _ H).
Qed.

Lemma keyed_replace (x x' : A) (rest : list A) :
  key x' = key x ->
  forall done,
    distinct (map key (done ++ x :: rest)) = true ->
    replace_keyed x' (done ++ x :: rest) = (done ++ x' :: rest)%list.
Proof.
  intros Hkey.
  induction done as [|d done IH]; intros H; cbn [app replace_keyed].
  - rewrite Hkey, String.eqb_refl. reflexivity.
  - assert (Hne : key d <> key x).
    { apply (distinct_head d (done ++ x :: rest)); [exact H|].
      apply in_or_app. right. left. reflexivity. }
    rewrite <- Hkey in Hne.
    apply String.eqb_neq in Hne. rewrite Hne.
    rewrite IH by exact (distinct_tail _ _ H). reflexivity.
Qed.

Lemma keyed_names (x x' : A) (done rest : list A) :
  key x' = key x ->
  map key (done ++ x' :: rest) = map key (done ++ x :: rest).
Proof.
  intros H. rewrite !map_app. cbn [map]. rewrite H. reflexivity.
Qed.

End Keyed.

Lemma replace_parameter_keyed (p' : Param.parameter)
  (ps : list Param.parameter) :
  replace_parameter p' ps = replace_keyed _ Param.name p' ps.
Proof.
  induction ps as [|p ps IH]; [reflexivity|].
  cbn [replace_parameter replace_keyed]. rewrite IH. reflexivity.
Qed.

Lemma replace_submodule_keyed (sub' : module) (subs : list module) :
  replace_submodule sub' subs = replace_keyed _ name sub' subs.
Proof.
  induction subs as [|sub subs IH]; [reflexivity|].
  cbn [replace_submodule replace_keyed]. rewrite IH. reflexivity.
Qed.

(** Induction over a module tree. *)
Lemma module_tree_ind (P : module -> Prop) :
  (forall self, Forall P (submodules self) -> P self) ->
  forall self, P self.
Proof.
  intros H. fix IH 1. intros self. apply H.
  destruct self as [nm pr po ps an ma dp d subs al mp]. cbn [submodules].
  clear -IH. revert subs. fix IHl 1.
  intros [|sub subs]; constructor; [apply IH|apply IHl].
Qed.

Lemma get_state_unfold (omit_defaults : bool) (self : module) :
  get_state omit_defaults self
  = (flat_map
       (fun p =>
          if omit_defaults && value_eqb (Param.get p) (Param.default p)
          then [] else [state_entry p])
       (parameters self)
     ++ flat_map
          (fun sub => map (prefixed (name sub)) (get_state omit_defaults sub))
          (submodules self))%list.
Proof. destruct self; reflexivity. Qed.

Lemma resent_unfold (fs : bool) (self : module) :
  resent fs self
  = with_submodules (map (resent fs) (submodules self))
      (with_parameters (map (touch fs) (parameters self)) self).
Proof. destruct self; reflexivity. Qed.

Lemma resent_engine_unfold (fs : bool) (parent : parent_view) (self : module)
  (eng : engine) :
  resent_engine fs parent self eng
  = fold_left (fun e sub => resent_engine fs (view_of self) sub e)
      (submodules self)
      (resend_own fs parent self (parameters self) eng).
Proof. destruct self; reflexivity. Qed.

Lemma flat_map_singleton {A B : Type} (f : A -> B) (l : list A) :
  flat_map (fun x => [f x]) l = map f l.
Proof. induction l as [|x l IH]; [reflexivity|]. cbn. rewrite IH. reflexivity. Qed.

Lemma touch_fields (fs : bool) (p : Param.parameter) :
  Param.name (touch fs p) = Param.name p
  /\ Param.values (touch fs p) = Param.values p
  /\ Param.default (touch fs p) = Param.default p
  /\ Param.dirty (touch fs p) = Param.dirty p.
Proof.
  unfold touch.
  destruct (Param.animate_running p);
    match goal with
    | |- context [if ?c then _ else _] => destruct c
    end; repeat split.
Qed.

Lemma resent_name (fs : bool) (self : module) :
  name (resent fs self) = name self.
Proof. destruct self; reflexivity. Qed.

(** No animation is running in the tree. *)
Fixpoint quiet (self : module) : bool :=
  forallb (fun p => negb (Param.animate_running p)) (parameters self)
  && forallb quiet (submodules self).

Lemma touch_quiet (p : Param.parameter) :
  Param.animate_running p = false -> touch false p = p.
Proof. unfold touch. intros ->. reflexivity. Qed.

Lemma resent_quiet : forall self, quiet self = true -> resent false self = self.
Proof.
  apply (module_tree_ind
           (fun self => quiet self = true -> resent false self = self)).
  intros self IH Hq.
  assert (Hq' : forallb (fun p => negb (Param.animate_running p))
                  (parameters self) = true
                /\ forallb quiet (submodules self) = true).
  { destruct self. cbn [quiet parameters submodules] in *.
    apply andb_prop in Hq. exact Hq. }
  destruct Hq' as [Hps Hsubs].
  rewrite resent_unfold.
  assert (H1 : map (touch false) (parameters self) = parameters self).
  { induction (parameters self) as [|p ps IHp]; [reflexivity|].
    cbn [forallb map] in *. apply andb_prop in Hps. destruct Hps as [Hp Hps].
    apply negb_true_iff in Hp.
    rewrite (touch_quiet p Hp), (IHp Hps). reflexivity. }
  assert (H2 : map (resent false) (submodules self) = submodules self).
  { induction IH as [|sub subs Hsub Hrest IHs]; [reflexivity|].
    cbn [forallb map] in *. apply andb_prop in Hsubs.
    destruct Hsubs as [Hs Hsubs].
    rewrite (Hsub Hs), (IHs Hsubs). reflexivity. }
  rewrite H1, H2. destruct self; reflexivity.
Qed.

Lemma get_state_resent (fs omit_defaults : bool) :
  forall self,
    get_state omit_defaults (resent fs self) = get_state omit_defaults self.
Proof.
  apply module_tree_ind. intros self IH.
  rewrite (get_state_unfold omit_defaults self).
  rewrite get_state_unfold, resent_unfold.
  cbn [parameters submodules with_submodules with_parameters].
  f_equal.
  - induction (parameters self) as [|p ps IHp]; [reflexivity|].
    cbn [map flat_map]. rewrite IHp.
    destruct (touch_fields fs p) as [Hn [Hv [Hd _]]].
    unfold state_entry, Param.get. rewrite Hn, Hv, Hd. reflexivity.
  - induction IH as [|sub subs Hsub Hrest IHs]; [reflexivity|].
    cbn [map flat_map]. rewrite IHs, Hsub, resent_name. reflexivity.
Qed.

Lemma send_appends (parent : parent_view) (address : value)
  (args : list value) (self : module) (eng : engine) :
  current_time (send parent address args self eng) = current_time eng
  /\ dirty_modules (send parent address args self eng) = dirty_modules eng
  /\ animating_modules (send parent address args self eng)
     = animating_modules eng
  /\ exists msgs,
       message_queue (send parent address args self eng)
       = (message_queue eng ++ msgs)%list.
Proof.
  unfold send.
  destruct (match parent with
            | Some parent_proto_port =>
                if negb (truthy (port self)) then parent_proto_port
                else (protocol self, port self)
            | None => (protocol self, port self)
            end) as [proto po].
  destruct (truthy po); cbn; repeat split.
  - eexists. reflexivity.
  - exists []. rewrite app_nil_r. reflexivity.
Qed.

(** The engine between two points where only messages were queued. *)
Definition only_messages (eng eng' : engine) : Prop :=
  current_time eng' = current_time eng
  /\ dirty_modules eng' = dirty_modules eng
  /\ animating_modules eng' = animating_modules eng
  /\ exists msgs, message_queue eng' = (message_queue eng ++ msgs)%list.

Lemma only_messages_refl (eng : engine) : only_messages eng eng.
Proof.
  repeat split. exists []. rewrite app_nil_r. reflexivity.
Qed.

Lemma only_messages_trans (a b c : engine) :
  only_messages a b -> only_messages b c -> only_messages a c.
Proof.
  intros [H1 [H2 [H3 [m1 H4]]]] [K1 [K2 [K3 [m2 K4]]]].
  repeat split; try congruence.
  exists (m1 ++ m2)%list. rewrite K4, H4, app_assoc. reflexivity.
Qed.

Section RoundTripFacts.

Variable fnmatch : string -> string -> bool.
Variable cast : ascii -> value -> value.

Lemma set_slots_unchanged (vs : list value) :
  forall tags olds,
    snd (Param.set_slots cast tags vs olds) = false ->
    fst (Param.set_slots cast tags vs olds) = olds.
Proof.
  induction vs as [|v vs IH]; intros tags olds; [reflexivity|].
  destruct olds as [|old olds]; [reflexivity|].
  cbn [Param.set_slots]. specialize (IH (tl tags) olds).
  destruct (Param.set_slots cast (tl tags) vs olds) as [rest changed].
  cbn [fst snd] in IH.
  destruct (value_eqb (cast (hd "*"%char tags) v) old); cbn [fst snd].
  - intros H. rewrite (IH H). reflexivity.
  - discriminate.
Qed.

Lemma param_set_unchanged (p : Param.parameter) (vs : list value) :
  snd (Param.set cast p vs) = false -> fst (Param.set cast p vs) = p.
Proof.
  unfold Param.set.
  destruct (negb (Nat.eqb (List.length vs) (Param.n_args p)));
    [reflexivity|].
  pose proof (set_slots_unchanged vs
                (skipn (List.length (Param.static_args p)) (Param.types p))
                (Param.values p)) as H.
  destruct (Param.set_slots cast _ vs (Param.values p)) as [vs' changed].
  cbn [fst snd] in *. intros Hc. rewrite (H Hc).
  destruct p; reflexivity.
Qed.

Lemma param_set_stop (p : Param.parameter) (vs : list value) :
  Param.set cast (Param.stop_animation p) vs
  = (Param.stop_animation (fst (Param.set cast p vs)),
     snd (Param.set cast p vs)).
Proof.
  unfold Param.set.
  change (Param.n_args (Param.stop_animation p)) with (Param.n_args p).
  destruct (negb (Nat.eqb (List.length vs) (Param.n_args p)));
    [reflexivity|].
  cbn [Param.static_args Param.types Param.values Param.stop_animation
       Param.with_animate_running].
  destruct (Param.set_slots cast _ vs (Param.values p)) as [vs' changed].
  reflexivity.
Qed.

(** The engine after the forced or plain [set] of a parameter's own
    value. *)
Definition resend_one (force_send : bool) (parent : parent_view)
  (self : module) (eng : engine) (p : Param.parameter) : engine :=
  if force_send && truthy (Param.address p)
  then send parent (Param.address p) (Param.get_message_args p) self eng
  else eng.

Lemma set_own_entry (fs : bool) (parent : parent_view) (self : module)
  (eng : engine) (p : Param.parameter) :
  find_parameter (Param.name p) self = Some p ->
  is_local fnmatch self (Param.name p) = true ->
  accepts_back cast p = true ->
  set fnmatch cast (VStr (Param.name p) :: own_values p) fs false parent
    (self, eng)
  = Done (store (touch fs p) self, resend_one fs parent self eng p).
Proof.
  intros Hfind Hlocal Hacc. cbn [set fst].
  unfold is_local in Hlocal.
  destruct (resolve fnmatch true self (VStr (Param.name p)));
    [clear Hlocal|discriminate].
  unfold set_body. rewrite Hfind.
  unfold accepts_back in Hacc. apply negb_true_iff in Hacc.
  unfold touch, resend_one.
  rewrite andb_true_r.
  destruct (Param.animate_running p).
  - rewrite param_set_stop, Hacc, (param_set_unchanged _ _ Hacc).
    cbn [fst].
    change (Param.address (Param.stop_animation p)) with (Param.address p).
    destruct (fs && truthy (Param.address p)); reflexivity.
  - destruct (fs && truthy (Param.address p)).
    + rewrite (param_set_unchanged _ _ Hacc). reflexivity.
    + pose proof (param_set_unchanged _ _ Hacc) as Hsame.
      destruct (Param.set cast p (own_values p)) as [p2 changed].
      cbn [fst snd] in *. subst. reflexivity.
Qed.

Lemma set_state_app (state1 state2 : list value) (fs : bool)
  (parent : parent_view) :
  forall w,
    set_state fnmatch cast (state1 ++ state2) fs parent w
    = and_then (set_state fnmatch cast state1 fs parent w)
        (set_state fnmatch cast state2 fs parent).
Proof.
  induction state1 as [|data rest IH]; intros w; [reflexivity|].
  cbn [app set_state].
  destruct data; try apply IH.
  destruct (set fnmatch cast items fs false parent w) as [w'|e w'];
    cbn [and_then]; [apply IH|reflexivity].
Qed.

(** The entries of the module's own parameters, from any position of the
    dict on. *)
Lemma set_state_own (fs : bool) (parent : parent_view) :
  forall todo done self eng,
    parameters self = (done ++ todo)%list ->
    distinct (map Param.name (done ++ todo)) = true ->
    forallb (fun p => is_local fnmatch self (Param.name p)
                      && accepts_back cast p) todo = true ->
    set_state fnmatch cast (map state_entry todo) fs parent (self, eng)
    = Done (with_parameters (done ++ map (touch fs) todo) self,
            resend_own fs parent self todo eng).
Proof.
  induction todo as [|p todo IH]; intros done self eng Hps Hdist Hall.
  - cbn [map set_state resend_own fold_left]. rewrite <- Hps.
    destruct self; reflexivity.
  - cbn [map set_state forallb] in *.
    apply andb_prop in Hall. destruct Hall as [Hp Hall].
    apply andb_prop in Hp. destruct Hp as [Hlocal Hacc].
    rewrite state_entry_own_values.
    assert (Hfind : find_parameter (Param.name p) self = Some p).
    { unfold find_parameter. rewrite Hps.
      apply (keyed_find _ Param.name). exact Hdist. }
    rewrite (set_own_entry fs parent self eng p Hfind Hlocal Hacc).
    cbn [and_then].
    destruct (touch_fields fs p) as [Hname _].
    assert (Hstore : parameters (store (touch fs p) self)
                     = ((done ++ [touch fs p]) ++ todo)%list).
    { cbn [parameters store with_parameters].
      rewrite replace_parameter_keyed, Hps.
      rewrite (keyed_replace _ Param.name p (touch fs p) todo Hname done Hdist).
      rewrite <- app_assoc. reflexivity. }
    rewrite (IH (done ++ [touch fs p])%list (store (touch fs p) self) _ Hstore).
    + f_equal. f_equal.
      rewrite <- app_assoc. reflexivity.
    + rewrite <- app_assoc. cbn [app].
      rewrite (keyed_names _ Param.name p (touch fs p) done todo Hname).
      exact Hdist.
    + exact Hall.
Qed.

Lemma set_name (args : list value) :
  forall fs pa parent w,
    name (fst (state_of (set fnmatch cast args fs pa parent w)))
    = name (fst w).
Proof.
  destruct args as [|first rest]; intros fs pa parent [self eng];
    cbn [set fst]; [reflexivity|].
  destruct (resolve fnmatch true self first) as [|names].
  - destruct first as [| z | x | q | items | items];
      try (unfold set_body; destruct (hashable _); reflexivity).
    apply (set_body_parameters cast fs pa parent q rest self eng).
  - destruct (for_submodules_own (set fnmatch cast rest fs pa) names self eng)
      as [subs' H].
    rewrite H. reflexivity.
Qed.

Lemma set_state_name (state : list value) (fs : bool) (parent : parent_view) :
  forall w,
    name (fst (state_of (set_state fnmatch cast state fs parent w)))
    = name (fst w).
Proof.
  induction state as [|data rest IH]; intros w; cbn [set_state];
    [reflexivity|].
  destruct data; try apply IH.
  rewrite state_of_and_then.
  pose proof (set_name items fs false parent w) as Hn.
  destruct (set fnmatch cast items fs false parent w) as [w'|e w'];
    cbn [state_of] in Hn; [rewrite IH|]; exact Hn.
Qed.

Lemma replace_submodule_names (sub' : module) (subs : list module) :
  map name (replace_submodule sub' subs) = map name subs.
Proof.
  induction subs as [|sub subs IH]; [reflexivity|].
  cbn [replace_submodule].
  destruct (String.eqb_spec (name sub) (name sub')) as [E|E]; cbn [map].
  - rewrite E. reflexivity.
  - rewrite IH. reflexivity.
Qed.

Lemma replace_submodule_twice (a b : module) (subs : list module) :
  name a = name b ->
  replace_submodule b (replace_submodule a subs) = replace_submodule b subs.
Proof.
  intros Hab.
  induction subs as [|sub subs IH]; [reflexivity|].
  cbn [replace_submodule].
  destruct (String.eqb (name sub) (name a)) eqn:E; cbn [replace_submodule];
    rewrite <- Hab.
  - rewrite String.eqb_refl, E. reflexivity.
  - rewrite E, IH. reflexivity.
Qed.

Lemma find_submodule_replaced (n : string) (sub sub' : module)
  (self : module) :
  find_submodule n self = Some sub ->
  name sub' = n ->
  find_submodule n
    (with_submodules (replace_submodule sub' (submodules self)) self)
  = Some sub'.
Proof.
  unfold find_submodule. cbn [submodules with_submodules]. intros H <-.
  induction (submodules self) as [|x subs IH]; [discriminate|].
  cbn [find replace_submodule] in *.
  destruct (String.eqb (name x) (name sub')) eqn:E; cbn [find].
  - rewrite String.eqb_refl. reflexivity.
  - rewrite E. apply IH, H.
Qed.

Lemma replace_submodule_found (n : string) (sub : module) (self : module) :
  find_submodule n self = Some sub ->
  with_submodules (replace_submodule sub (submodules self)) self = self.
Proof.
  unfold find_submodule. intros H.
  assert (Hsame : replace_submodule sub (submodules self) = submodules self).
  { induction (submodules self) as [|x subs IH]; [reflexivity|].
    cbn [find replace_submodule] in *.
    destruct (String.eqb (name x) n) eqn:E.
    - injection H as <-. rewrite String.eqb_refl. reflexivity.
    - assert (Hn : name sub = n).
      { apply find_some in H. destruct H as [_ H].
        apply String.eqb_eq in H. exact H. }
      rewrite Hn, E, (IH H). reflexivity. }
  rewrite Hsame. destruct self; reflexivity.
Qed.

(** The outcome of a call on a submodule, seen from the module. *)
Definition in_submodule (self : module) (o : outcome world) : outcome world :=
  match o with
  | Done (sub', eng') =>
      Done (with_submodules (replace_submodule sub' (submodules self)) self,
            eng')
  | Raised e (sub', eng') =>
      Raised e
        (with_submodules (replace_submodule sub' (submodules self)) self,
         eng')
  end.

Definition is_entry (data : value) : bool :=
  match data with VList _ => true | _ => false end.

(** Entries prefixed with the name of a submodule are applied to that
    submodule. *)
Lemma set_state_prefixed (fs : bool) (parent : parent_view) (n : string) :
  forall entries self sub eng,
    forallb is_entry entries = true ->
    find_submodule n self = Some sub ->
    is_submodule fnmatch self n = true ->
    set_state fnmatch cast (map (prefixed n) entries) fs parent (self, eng)
    = in_submodule self
        (set_state fnmatch cast entries fs (view_of self) (sub, eng)).
Proof.
  induction entries as [|data rest IH]; intros self sub eng Hent Hfind Hsub.
  - cbn [map set_state in_submodule].
    rewrite (replace_submodule_found n sub self Hfind). reflexivity.
  - cbn [forallb] in Hent. apply andb_prop in Hent.
    destruct Hent as [Hdata Hrest].
    destruct data as [| | | | data |]; try discriminate Hdata.
    cbn [map prefixed set_state set fst].
    pose proof Hsub as Hres. unfold is_submodule in Hres.
    destruct (resolve fnmatch true self (VStr n)) as [|[|n' [|]]];
      try discriminate Hres.
    apply String.eqb_eq in Hres. subst n'.
    cbn [for_submodules]. rewrite Hfind.
    pose proof (set_name data fs false (view_of self) (sub, eng)) as Hname.
    destruct (set fnmatch cast data fs false (view_of self) (sub, eng))
      as [[sub1 eng1]|e [sub1 eng1]]; cbn [state_of fst and_then] in *;
      [|reflexivity].
    assert (Hn : name sub = n).
    { unfold find_submodule in Hfind. apply find_some in Hfind.
      destruct Hfind as [_ H]. apply String.eqb_eq in H. exact H. }
    assert (Hn1 : name sub1 = n) by congruence.
    set (self1 := with_submodules
                    (replace_submodule sub1 (submodules self)) self).
    rewrite (IH self1 sub1 eng1 Hrest).
    + change (view_of self1) with (view_of self).
      pose proof (set_state_name rest fs (view_of self) (sub1, eng1)) as Hn2.
      destruct (set_state fnmatch cast rest fs (view_of self) (sub1, eng1))
        as [[sub2 eng2]|e [sub2 eng2]]; cbn [state_of fst in_submodule] in *;
        subst self1; cbn [submodules with_submodules];
        rewrite replace_submodule_twice by congruence; reflexivity.
    + exact (find_submodule_replaced n sub sub1 self Hfind Hn1).
    + unfold is_submodule.
      rewrite (resolve_same fnmatch true self self1);
        [exact Hsub|reflexivity|].
      subst self1. cbn [submodules with_submodules].
      apply replace_submodule_names.
Qed.

Lemma get_state_entries (omit_defaults : bool) :
  forall self, forallb is_entry (get_state omit_defaults self) = true.
Proof.
  apply module_tree_ind. intros self IH.
  rewrite get_state_unfold, forallb_app. apply andb_true_intro. split.
  - induction (parameters self) as [|p ps IHp]; [reflexivity|].
    cbn [flat_map]. rewrite forallb_app, IHp, andb_true_r.
    destruct (omit_defaults && value_eqb (Param.get p) (Param.default p));
      [reflexivity|].
    rewrite state_entry_own_values. reflexivity.
  - induction IH as [|sub subs Hsub Hsubs IHs]; [reflexivity|].
    cbn [flat_map]. rewrite forallb_app, IHs, andb_true_r.
    clear -Hsub.
    induction (get_state omit_defaults sub) as [|data rest IHr];
      [reflexivity|].
    cbn [forallb map] in *. apply andb_prop in Hsub.
    destruct Hsub as [Hd Hr]. rewrite (IHr Hr), andb_true_r.
    destruct data; try discriminate Hd. reflexivity.
Qed.

(** The entries of the submodules, from any position of the dict on. *)
Lemma set_state_submodules (fs : bool) (parent : parent_view) :
  forall todo done self eng,
    submodules self = (done ++ todo)%list ->
    distinct (map name (done ++ todo)) = true ->
    forallb (fun sub => is_submodule fnmatch self (name sub)) todo = true ->
    Forall
      (fun sub =>
         forall parent eng,
           set_state fnmatch cast (get_state false sub) fs parent (sub, eng)
           = Done (resent fs sub, resent_engine fs parent sub eng)) todo ->
    set_state fnmatch cast
      (flat_map (fun sub => map (prefixed (name sub)) (get_state false sub))
         todo) fs parent (self, eng)
    = Done (with_submodules (done ++ map (resent fs) todo) self,
            fold_left (fun e sub => resent_engine fs (view_of self) sub e)
              todo eng).
Proof.
  induction todo as [|sub todo IH]; intros done self eng Hsubs Hdist Hall Hrec.
  - cbn [flat_map set_state map fold_left]. rewrite <- Hsubs.
    destruct self; reflexivity.
  - cbn [flat_map forallb map fold_left] in *.
    apply andb_prop in Hall. destruct Hall as [Hsub Hall].
    inversion Hrec as [|? ? Hthis Hothers]; subst.
    rewrite set_state_app.
    assert (Hfind : find_submodule (name sub) self = Some sub).
    { unfold find_submodule. rewrite Hsubs.
      apply (keyed_find _ name). exact Hdist. }
    rewrite (set_state_prefixed fs parent (name sub)
               (get_state false sub) self sub eng
               (get_state_entries false sub) Hfind Hsub).
    rewrite Hthis. cbn [in_submodule and_then].
    set (self1 := with_submodules
                    (replace_submodule (resent fs sub) (submodules self))
                    self).
    assert (Hsubs1 : submodules self1
                     = ((done ++ [resent fs sub]) ++ todo)%list).
    { subst self1. cbn [submodules with_submodules].
      rewrite replace_submodule_keyed, Hsubs.
      rewrite (keyed_replace _ name sub (resent fs sub) todo
                 (resent_name fs sub) done Hdist).
      rewrite <- app_assoc. reflexivity. }
    rewrite (IH (done ++ [resent fs sub])%list self1 _ Hsubs1).
    + subst self1. cbn [with_submodules]. f_equal. f_equal.
      rewrite <- app_assoc. reflexivity.
    + rewrite <- app_assoc. cbn [app].
      rewrite (keyed_names _ name sub (resent fs sub) done todo
                 (resent_name fs sub)).
      exact Hdist.
    + rewrite forallb_forall in Hall |- *. intros x Hx.
      specialize (Hall x Hx). unfold is_submodule in *.
      rewrite (resolve_same fnmatch true self self1);
        [exact Hall|reflexivity|].
      subst self1. cbn [submodules with_submodules].
      apply replace_submodule_names.
    + exact Hothers.
Qed.

(** The whole round trip, for either value of [force_send]. *)
Lemma set_state_get_state (fs : bool) :
  forall self,
    ready fnmatch cast self = true ->
    forall parent eng,
      set_state fnmatch cast (get_state false self) fs parent (self, eng)
      = Done (resent fs self, resent_engine fs parent self eng).
Proof.
  apply (module_tree_ind
           (fun self =>
              ready fnmatch cast self = true ->
              forall parent eng,
                set_state fnmatch cast (get_state false self) fs parent
                  (self, eng)
                = Done (resent fs self, resent_engine fs parent self eng))).
  intros self IH Hready parent eng.
  assert (Hr : distinct (map Param.name (parameters self)) = true
               /\ distinct (map name (submodules self)) = true
               /\ forallb (fun p => is_local fnmatch self (Param.name p)
                                    && accepts_back cast p)
                    (parameters self) = true
               /\ forallb (fun sub => is_submodule fnmatch self (name sub))
                    (submodules self) = true
               /\ forallb (ready fnmatch cast) (submodules self) = true).
  { destruct self. cbn [ready parameters submodules] in *.
    repeat (apply andb_prop in Hready; destruct Hready as [Hready ?]).
    repeat split; assumption. }
  destruct Hr as [Hdp [Hds [Hps [Hsubs Hrs]]]].
  rewrite get_state_unfold. cbn [andb].
  rewrite flat_map_singleton, set_state_app.
  rewrite (set_state_own fs parent (parameters self) [] self eng
             eq_refl Hdp Hps).
  cbn [and_then app].
  set (self1 := with_parameters (map (touch fs) (parameters self)) self).
  assert (Hrec : Forall
    (fun sub =>
       forall parent eng,
         set_state fnmatch cast (get_state false sub) fs parent (sub, eng)
         = Done (resent fs sub, resent_engine fs parent sub eng))
    (submodules self)).
  { rewrite Forall_forall in IH |- *. intros sub Hin. apply IH; [exact Hin|].
    rewrite forallb_forall in Hrs. apply Hrs, Hin. }
  rewrite (set_state_submodules fs parent (submodules self) [] self1 _
             eq_refl Hds Hsubs Hrec).
  rewrite resent_unfold, resent_engine_unfold. reflexivity.
Qed.

(** Values that the coercion of their slots leaves as they are. *)
Fixpoint coerced (tags : list ascii) (vs : list value) : bool :=
  match vs with
  | [] => true
  | v :: rest =>
      value_eqb (cast (hd "*"%char tags) v) v && coerced (tl tags) rest
  end.

Lemma set_slots_coerced (vs : list value) :
  forall tags,
    coerced tags vs = true ->
    snd (Param.set_slots cast tags vs vs) = false.
Proof.
  induction vs as [|v vs IH]; intros tags H; [reflexivity|].
  cbn [coerced] in H. apply andb_prop in H. destruct H as [Hv Hrest].
  cbn [Param.set_slots]. specialize (IH (tl tags) Hrest).
  destruct (Param.set_slots cast (tl tags) vs vs) as [rest changed].
  cbn [snd] in IH. rewrite Hv. exact IH.
Qed.

End RoundTripFacts.

(** The name a leading argument stands for: an alias stands for the
    name it is bound to. *)
Definition resolved (self : module) (n : string) : string :=
  match lookup n (aliases self) with
  | Some s => s
  | None => n
  end.

(** A name that [set] takes for a parameter of the module itself: it is
    not, and is no alias of, the name of a submodule or a pattern. *)
Definition names_parameter (self : module) (n : string) : bool :=
  negb (existsb (String.eqb (resolved self n)) (map name (submodules self)))
  && negb (is_pattern (resolved self n)).

(** A name of a submodule that no alias hides. *)
Definition names_submodule (self : module) (n : string) : bool :=
  String.eqb (resolved self n) n.

(** Every name of the tree reaches what it names. *)
Fixpoint names_reach (self : module) : bool :=
  forallb (fun p => names_parameter self (Param.name p)) (parameters self)
  && forallb (fun sub => names_submodule self (name sub)) (submodules self)
  && forallb names_reach (submodules self).

(** Dicts are lists keyed by a name: one entry per key, in every module
    of the tree. *)
Fixpoint keyed (self : module) : bool :=
  distinct (map Param.name (parameters self))
  && distinct (map name (submodules self))
  && forallb keyed (submodules self).

(** The messages [send] queues: one when the module has a port or,
    failing that, its parent has one, and none otherwise. *)
Definition sent (parent : parent_view) (address : value) (args : list value)
  (self : module) : list (list value) :=
  match
    match parent with
    | Some parent_proto_port =>
        if truthy (port self) then Some (protocol self, port self)
        else if truthy (snd parent_proto_port) then Some parent_proto_port
             else None
    | None =>
        if truthy (port self) then Some (protocol self, port self) else None
    end
  with
  | Some (proto, po) => [proto :: po :: address :: args]
  | None => []
  end.

(** The messages of a forced [set_state]: one [send] for each parameter
    that has an address, the module's own parameters first, then its
    submodules in their order. *)
Fixpoint state_messages (force_send : bool) (parent : parent_view)
  (self : module) : list (list value) :=
  (flat_map
     (fun p =>
        if force_send && truthy (Param.address p)
        then sent parent (Param.address p) (Param.get_message_args p) self
        else [])
     (parameters self)
   ++ flat_map (state_messages force_send (view_of self))
        (submodules self))%list.

Section StateRoundTrip.

Variable fnmatch : string -> string -> bool.
Variable cast : ascii -> value -> value.

(** A parameter whose values are as [Parameter.set] leaves them: the
    coercion of each slot changes nothing, and a single value that is a
    list has not as many items as the parameter has slots. *)
Definition settled (p : Param.parameter) : bool :=
  coerced cast (skipn (List.length (Param.static_args p)) (Param.types p))
    (Param.values p)
  && match Param.values p with
     | [VList items] => negb (Nat.eqb (List.length items) (Param.n_args p))
     | _ => true
     end.

(** Every parameter of the tree is settled. *)
Fixpoint values_settled (self : module) : bool :=
  forallb settled (parameters self)
  && forallb values_settled (submodules self).

Lemma names_parameter_local (self : module) (n : string) :
  names_parameter self n = true -> is_local fnmatch self n = true.
Proof.
  unfold names_parameter, is_local, resolve, resolved.
  intros H. apply andb_prop in H. destruct H as [Hsub Hpat].
  apply negb_true_iff in Hsub. apply negb_true_iff in Hpat.
  cbv zeta. rewrite Hsub, Hpat. reflexivity.
Qed.

Lemma names_submodule_selects (self : module) (n : string) :
  In n (map name (submodules self)) ->
  names_submodule self n = true -> is_submodule fnmatch self n = true.
Proof.
  unfold names_submodule, is_submodule, resolve, resolved.
  intros Hin H. apply String.eqb_eq in H. cbv zeta. rewrite H.
  assert (Hex : existsb (String.eqb n) (map name (submodules self)) = true).
  { apply existsb_exists. exists n. split; [exact Hin|apply String.eqb_refl]. }
  rewrite Hex. apply String.eqb_refl.
Qed.

Lemma settled_accepts_back (p : Param.parameter) :
  settled p = true -> accepts_back cast p = true.
Proof.
  unfold settled. intros H. apply andb_prop in H. destruct H as [Hco Hlone].
  unfold accepts_back, Param.set.
  destruct (Nat.eqb (List.length (own_values p)) (Param.n_args p)) eqn:Elen;
    cbn [negb]; [|reflexivity].
  assert (Hown : own_values p = Param.values p).
  { unfold own_values, Param.get in *.
    destruct (Param.values p) as [|v [|v' vs]]; try reflexivity.
    destruct v; try reflexivity.
    rewrite Elen in Hlone. discriminate Hlone. }
  rewrite Hown.
  pose proof (set_slots_coerced cast (Param.values p) _ Hco) as Hs.
  destruct (Param.set_slots cast _ (Param.values p) (Param.values p))
    as [vs' changed].
  cbn [snd] in *. rewrite Hs. reflexivity.
Qed.

Lemma forallb_In_ext {A : Type} (f g : A -> bool) (l : list A) :
  (forall x, In x l -> f x = true -> g x = true) ->
  forallb f l = true -> forallb g l = true.
Proof.
  intros Hfg H. rewrite forallb_forall in H |- *.
  intros x Hx. exact (Hfg x Hx (H x Hx)).
Qed.

Lemma ready_tree :
  forall self,
    keyed self = true -> names_reach self = true ->
    values_settled self = true ->
    ready fnmatch cast self = true.
Proof.
  apply (module_tree_ind
           (fun self =>
              keyed self = true -> names_reach self = true ->
              values_settled self = true ->
              ready fnmatch cast self = true)).
  intros self IH Hk Hn Hv.
  destruct self as [n proto po ps anims ms queue d subs al path].
  cbn [keyed names_reach values_settled ready parameters submodules] in *.
  apply andb_prop in Hk. destruct Hk as [Hk Hksubs].
  apply andb_prop in Hk. destruct Hk as [Hdp Hds].
  apply andb_prop in Hn. destruct Hn as [Hn Hnsubs].
  apply andb_prop in Hn. destruct Hn as [Hnp Hns].
  apply andb_prop in Hv. destruct Hv as [Hvp Hvsubs].
  rewrite Hdp, Hds. cbn [andb].
  apply andb_true_intro. split; [apply andb_true_intro; split|].
  - rewrite forallb_forall in Hnp, Hvp |- *. intros p Hp.
    rewrite (names_parameter_local _ _ (Hnp p Hp)).
    exact (settled_accepts_back p (Hvp p Hp)).
  - rewrite forallb_forall in Hns |- *. intros sub Hsub.
    apply names_submodule_selects; [|exact (Hns sub Hsub)].
    cbn [submodules]. apply in_map. exact Hsub.
  - rewrite Forall_forall in IH.
    rewrite forallb_forall in Hksubs, Hnsubs, Hvsubs |- *.
    intros sub Hsub.
    exact (IH sub Hsub (Hksubs sub Hsub) (Hnsubs sub Hsub) (Hvsubs sub Hsub)).
Qed.

Lemma send_sent (parent : parent_view) (address : value) (args : list value)
  (self : module) (eng : engine) :
  send parent address args self eng
  = with_message_queue (message_queue eng ++ sent parent address args self)
      eng.
Proof.
  unfold send, sent.
  destruct eng as [now dm am mq]. unfold with_message_queue.
  cbn [message_queue current_time dirty_modules animating_modules].
  destruct parent as [[pproto pport]|]; cbn [snd negb].
  - destruct (truthy (port self)) eqn:Ep; cbn [negb].
    + rewrite Ep. reflexivity.
    + destruct (truthy pport); [reflexivity|].
      rewrite app_nil_r. reflexivity.
  - destruct (truthy (port self)); [reflexivity|].
    rewrite app_nil_r. reflexivity.
Qed.

Lemma with_message_queue_twice (q1 q2 : list (list value)) (eng : engine) :
  with_message_queue q2 (with_message_queue q1 eng) = with_message_queue q2 eng.
Proof. reflexivity. Qed.

Lemma with_message_queue_same (eng : engine) :
  with_message_queue (message_queue eng ++ []) eng = eng.
Proof.
  destruct eng. unfold with_message_queue. cbn. rewrite app_nil_r.
  reflexivity.
Qed.

Lemma resend_own_queue (fs : bool) (parent : parent_view) (self : module)
  (ps : list Param.parameter) :
  forall eng,
    resend_own fs parent self ps eng
    = with_message_queue
        (message_queue eng
         ++ flat_map
              (fun p =>
                 if fs && truthy (Param.address p)
                 then sent parent (Param.address p)
                        (Param.get_message_args p) self
                 else [])
              ps) eng.
Proof.
  unfold resend_own.
  induction ps as [|p ps IH]; intros eng; cbn [fold_left flat_map].
  - symmetry. apply with_message_queue_same.
  - rewrite IH. destruct (fs && truthy (Param.address p)).
    + rewrite send_sent. rewrite with_message_queue_twice.
      cbn [message_queue with_message_queue]. rewrite <- app_assoc.
      reflexivity.
    + reflexivity.
Qed.

Lemma resent_engine_queue (fs : bool) :
  forall self parent eng,
    resent_engine fs parent self eng
    = with_message_queue (message_queue eng ++ state_messages fs parent self)
        eng.
Proof.
  apply (module_tree_ind
           (fun self => forall parent eng,
              resent_engine fs parent self eng
              = with_message_queue
                  (message_queue eng ++ state_messages fs parent self) eng)).
  intros self IH parent eng. rewrite resent_engine_unfold.
  rewrite resend_own_queue.
  destruct self as [n proto po ps anims ms queue d subs al path].
  cbn [state_messages parameters submodules] in *.
  set (own := flat_map _ ps).
  set (me := mkModule n proto po ps anims ms queue d subs al path).
  clearbody own. revert own.
  induction IH as [|sub rest Hsub Hrest IHrest]; intros own;
    cbn [fold_left flat_map].
  - rewrite app_nil_r. reflexivity.
  - rewrite Hsub. rewrite with_message_queue_twice.
    cbn [message_queue with_message_queue].
    rewrite <- app_assoc. rewrite IHrest. rewrite <- !app_assoc.
    reflexivity.
Qed.

Lemma state_messages_unforced :
  forall self parent, state_messages false parent self = [].
Proof.
  apply (module_tree_ind
           (fun self => forall parent, state_messages false parent self = [])).
  intros self IH parent.
  destruct self as [n proto po ps anims ms queue d subs al path].
  cbn [state_messages parameters submodules andb] in *.
  assert (Hown : flat_map (fun _ : Param.parameter => @nil (list value)) ps
                 = []).
  { induction ps as [|p ps IHp]; [reflexivity|exact IHp]. }
  rewrite Hown. cbn [app]. unfold view_of. cbn [protocol port].
  induction IH as [|sub rest Hsub Hrest IHrest]; [reflexivity|].
  cbn [flat_map]. rewrite Hsub, IHrest. reflexivity.
Qed.

(** C6, as the code has it: in a tree whose names reach what they
    name and whose values are as [Parameter.set] leaves them,
    [set_state] of [get_state()] returns, the state read again is the
    same, and the tree differs from the one before only by [resent]:
    every running animation is stopped and, with [force_send], every
    parameter with an address takes a new last-sent snapshot.  The
    engine gets the messages of one [send] for each parameter with an
    address when [force_send] is set, and is otherwise the same; a
    [send] queues a message only where the module or its parent has a
    port.  Without [force_send] the engine does not change, and with no
    animation running nothing changes at all. *)
Theorem state_round_trip (fs : bool) (parent : parent_view) (self : module)
  (eng : engine)
  (Hkeyed : keyed self = true)
  (Hnames : names_reach self = true)
  (Hvalues : values_settled self = true) :
  set_state fnmatch cast (get_state false self) fs parent (self, eng)
  = Done (resent fs self,
          with_message_queue
            (message_queue eng ++ state_messages fs parent self) eng)
  /\ get_state false (resent fs self) = get_state false self
  /\ (fs = false ->
      set_state fnmatch cast (get_state false self) fs parent (self, eng)
      = Done (resent false self, eng))
  /\ (fs = false -> quiet self = true -> resent fs self = self).
Proof.
  pose proof (ready_tree self Hkeyed Hnames Hvalues) as Hready.
  rewrite (set_state_get_state fnmatch cast fs self Hready parent eng).
  rewrite resent_engine_queue.
  split; [reflexivity|].
  split; [apply get_state_resent|].
  split.
  - intros ->. rewrite state_messages_unforced, with_message_queue_same.
    reflexivity.
  - intros -> Hq. exact (resent_quiet self Hq).
Qed.

End StateRoundTrip.

(** ["M"] and its submodule ["S"], whose parameter [b] is animating:
    [send_state()] sends both parameters through the port of ["M"], keeps
    the values and stops the animation. *)
Lemma state_round_trip_witness :
  exists self' eng' sub b,
    send_state literal_names passthrough None (mod_M true, idle_engine)
    = Done (self', eng')
    /\ get_state false self' = get_state false (mod_M true)
    /\ get_state false self'
       = [VList [VStr "a"; VInt 3]; VList [VStr "S"; VStr "b"; VInt 0]]
    /\ message_queue eng'
       = [[VStr "osc"; VInt 9000; VStr "/a"; VInt 3];
          [VStr "osc"; VInt 9000; VStr "/b"; VInt 0]]
    /\ dirty_modules eng' = []
    /\ find_submodule "S" self' = Some sub
    /\ find_parameter "b" sub = Some b
    /\ Param.animate_running b = false
    /\ Param.last_sent b = VList [VInt 0].
Proof.
  destruct (state_round_trip literal_names passthrough true None
              (mod_M true) idle_engine eq_refl eq_refl eq_refl)
    as [Hrun [Hstate _]].
  do 4 eexists.
  split; [exact Hrun|]. split; [exact Hstate|].
  repeat split.
Defined.

(** Trees in which a name does not reach what it names, or a value is
    not as [Parameter.set] leaves it: ["M"] with the submodules ["T"]
    and ["S"] and the alias ["S"] for ["T"]; ["M"] with the submodule
    ["S"] and a parameter of its own, named [n], that holds ['b', 5];
    a matcher for which every name matches; a coercion that floors a
    float in an integer slot. *)
Definition two_slots (n : string) (v w : value) : Param.parameter :=
  Param.mkParameter n (VStr ("/" ++ n)) ["*"%char; "*"%char] [] [v; w]
    (VList [v; w]) false VNone false [].

Definition one_slot (n : string) (tag : ascii) (v : value)
  : Param.parameter :=
  Param.mkParameter n (VStr ("/" ++ n)) [tag] [] [v] v false VNone false [].

Definition sub_named (n : string) (v : Z) : module :=
  leaf n [int_parameter "b" v false] [] ["engine"; "M"; n].

Definition aliased : module :=
  mkModule "M" (VStr "osc") (VInt 9000) [] [] [] [] false
    [sub_named "T" 7; sub_named "S" 0] [("S", "T")] ["engine"; "M"].

Definition clashing (n : string) : module :=
  mkModule "M" (VStr "osc") (VInt 9000) [two_slots n (VStr "b") (VInt 5)] []
    [] [] false [sub_named "S" 0] [] ["engine"; "M"].

Definition any_name : string -> string -> bool := fun _ _ => true.

Definition flooring : ascii -> value -> value :=
  fun tag v =>
    match v with
    | VFloat q => if Ascii.eqb tag "i" then VInt (Qfloor q) else v
    | _ => v
    end.

(** The round trip without [force_send], from an idle engine. *)
Definition round_trip (fnmatch : string -> string -> bool)
  (cast : ascii -> value -> value) (self : module) : outcome world :=
  set_state fnmatch cast (get_state false self) false None
    (self, idle_engine).

(** C6, as stated, fails: without [force_send], feeding the state of
    ["S"] back stops the animation of [b], although no value changes.
    It also fails where a name does not reach what it names, or a value
    is not as [Parameter.set] leaves it: an alias that hides the
    submodule ["S"] sends its entry to ["T"], whose [b] goes from 7 to
    0; a parameter of ["M"] named ["S"], or ["*"], with the values
    ['b', 5] sets [b] of the submodule, which ends dirty and queued; a
    value [[5]] comes back as 5, and a float in an integer slot comes
    back floored. *)
Lemma round_trip_fails_as_stated :
  (exists self' b b',
     round_trip literal_names passthrough (sub_S true)
     = Done (self', idle_engine)
     /\ get_state false self' = get_state false (sub_S true)
     /\ find_parameter "b" (sub_S true) = Some b
     /\ Param.animate_running b = true
     /\ find_parameter "b" self' = Some b'
     /\ Param.animate_running b' = false
     /\ self' <> sub_S true)
  /\ (exists self' eng' sub b,
        keyed aliased = true
        /\ values_settled passthrough aliased = true
        /\ quiet aliased = true
        /\ get_state false aliased
           = [VList [VStr "T"; VStr "b"; VInt 7];
              VList [VStr "S"; VStr "b"; VInt 0]]
        /\ round_trip literal_names passthrough aliased = Done (self', eng')
        /\ find_submodule "T" self' = Some sub
        /\ find_parameter "b" sub = Some b
        /\ Param.values b = [VInt 0])
  /\ (exists self' eng' sub b,
        keyed (clashing "S") = true
        /\ values_settled passthrough (clashing "S") = true
        /\ quiet (clashing "S") = true
        /\ round_trip literal_names passthrough (clashing "S")
           = Done (self', eng')
        /\ find_submodule "S" self' = Some sub
        /\ find_parameter "b" sub = Some b
        /\ Param.dirty b = true
        /\ dirty_parameters sub = ["b"]
        /\ dirty_modules eng' = [["engine"; "M"; "S"]])
  /\ (exists self' eng' sub b,
        keyed (clashing "*") = true
        /\ values_settled passthrough (clashing "*") = true
        /\ quiet (clashing "*") = true
        /\ round_trip any_name passthrough (clashing "*") = Done (self', eng')
        /\ find_submodule "S" self' = Some sub
        /\ find_parameter "b" sub = Some b
        /\ Param.dirty b = true
        /\ dirty_parameters sub = ["b"]
        /\ dirty_modules eng' = [["engine"; "M"; "S"]])
  /\ (exists self' eng' x,
        let self :=
          leaf "M" [one_slot "x" "*" (VList [VInt 5])] [] ["engine"; "M"] in
        keyed self = true /\ names_reach self = true /\ quiet self = true
        /\ round_trip literal_names passthrough self = Done (self', eng')
        /\ find_parameter "x" self' = Some x
        /\ Param.values x = [VInt 5])
  /\ (exists self' eng' x,
        let self :=
          leaf "M" [one_slot "x" "i" (VFloat (5 # 2))] [] ["engine"; "M"] in
        keyed self = true /\ names_reach self = true /\ quiet self = true
        /\ round_trip literal_names flooring self = Done (self', eng')
        /\ find_parameter "x" self' = Some x
        /\ Param.values x = [VInt 2]).
Proof.
  split; [do 3 eexists; repeat split; discriminate|].
  split; [do 4 eexists; repeat split|].
  split; [do 4 eexists; repeat split|].
  split; [do 4 eexists; repeat split|].
  split; do 3 eexists; repeat split.
Qed.

End MentatFacts.

(** ** timer.py over exact rationals: beats and cycles *)

Module TimerEdges.

Import TimerQ TimerQFacts TimerCycleQ.
Local Open Scope Q_scope.




(** *** The beat count *)






(** *** The cycle count *)






(** *** Waiting for the next beat *)





End TimerEdges.

(** ** midi.py: the tables, all event types, argument handling *)

Module MidiTables.

Import Midi MidiFacts.

(** The number of arguments [osc_to_midi] indexes for an event type:
    the highest subscript of its branch plus one. *)
Definition arity (mtype : event_type) : nat :=
  match mtype with
  | SEQ_EVENT_NOTEON | SEQ_EVENT_CONTROLLER => 3
  | SEQ_EVENT_NOTEOFF | SEQ_EVENT_PITCHBEND | SEQ_EVENT_PGMCHANGE => 2
  | _ => 0
  end.

(** An event as the sequencer delivers it to [midi_to_osc], with integer
    data under the keys of its type. *)
Inductive delivered : SeqEvent -> Prop :=
| delivered_note_on (channel note velocity : Z) :
    delivered (mkSeqEvent SEQ_EVENT_NOTEON
      [("note.channel", VInt channel); ("note.note", VInt note);
       ("note.velocity", VInt velocity)])
| delivered_controller (channel param val : Z) :
    delivered (mkSeqEvent SEQ_EVENT_CONTROLLER
      [("control.channel", VInt channel); ("control.param", VInt param);
       ("control.value", VInt val)])
| delivered_program (channel val : Z) :
    delivered (mkSeqEvent SEQ_EVENT_PGMCHANGE
      [("control.channel", VInt channel); ("control.value", VInt val)])
| delivered_pitch_bend (channel val : Z) :
    delivered (mkSeqEvent SEQ_EVENT_PITCHBEND
      [("control.channel", VInt channel); ("control.value", VInt val)])
| delivered_sysex (bytes : list Z) :
    delivered (mkSeqEvent SEQ_EVENT_SYSEX [("ext", VList (map VInt bytes))])
| delivered_start : delivered (mkSeqEvent SEQ_EVENT_START [])
| delivered_stop : delivered (mkSeqEvent SEQ_EVENT_STOP []).

Definition is_tuple (x : value) : bool :=
  match x with VTuple _ => true | _ => false end.

(** X9 (MIDI_TO_OSC, OSC_TO_MIDI): the two tables are inverse to each
    other: an event type maps to an address exactly when that address
    maps back to the type. *)
Theorem tables_inverse (mtype : event_type) (addr : string) :
  midi_lookup mtype MIDI_TO_OSC = Some addr
  <-> lookup addr OSC_TO_MIDI = Some mtype.
Proof.
  split.
  - destruct mtype; cbn; intros H; try discriminate H;
      injection H as <-; reflexivity.
  - cbn [lookup OSC_TO_MIDI].
    repeat match goal with
    | |- (if String.eqb ?k addr then _ else _) = _ -> _ =>
        let E := fresh "E" in
        destruct (String.eqb k addr) eqn:E;
        [ apply String.eqb_eq in E; subst addr;
          intros H; injection H as <-; reflexivity | ]
    end.
    discriminate.
Qed.

(** X10 (midi_to_osc, outcomes): [midi_to_osc] returns [None] exactly for
    an event type outside [MIDI_TO_OSC]; for a type of the table it
    either returns a message under the table's address or raises
    [KeyError], never another exception; start and stop events never
    raise, whatever their data. *)
Theorem midi_to_osc_outcomes (event : SeqEvent) :
  match midi_to_osc event with
  | Ok None => midi_lookup (type event) MIDI_TO_OSC = None
  | Ok (Some o) => midi_lookup (type event) MIDI_TO_OSC = Some (address o)
  | Raise e =>
      e = KeyError /\
      midi_lookup (type event) MIDI_TO_OSC <> None /\
      type event <> SEQ_EVENT_START /\ type event <> SEQ_EVENT_STOP
  end.
Proof.
  destruct event as [mtype d].
  unfold midi_to_osc, subscript. cbn [type data].
  destruct mtype; cbn [midi_lookup MIDI_TO_OSC event_type_eqb];
    repeat match goal with
    | |- context [lookup ?k d] => destruct (lookup k d); cbn [bind]
    end;
    cbn [address]; try reflexivity;
    repeat split; discriminate.
Qed.

Section Arguments.

Variable int_of_str : string -> res Z.

(** X11 (midi_to_osc, osc_to_midi, round trip): for a note-on, control
    change, program change, pitch bend, system exclusive, start or stop
    event with integer data, the message [midi_to_osc] builds is turned
    back by [osc_to_midi] into the same type with the same data. *)
Theorem midi_round_trip (event : SeqEvent) (Hev : delivered event) :
  exists addr items,
    midi_to_osc event = Ok (Some (mkOsc addr (VList items))) /\
    osc_to_midi int_of_str addr items = Ok (Some event).
Proof.
  destruct Hev; do 2 eexists; (split; [reflexivity|]);
    try reflexivity.
  unfold osc_to_midi. cbn [lookup OSC_TO_MIDI String.eqb Ascii.eqb Bool.eqb].
  rewrite untuple_ints. cbn [bind].
  rewrite ints_have_no_none, ints_are_ints. reflexivity.
Qed.

Lemma untuple_plain (vals : list value) :
  forallb (fun v => negb (is_tuple v)) vals = true ->
  map_res untuple vals = Ok vals.
Proof.
  induction vals as [|v vals IH]; [reflexivity|].
  cbn [forallb]. intros H. apply andb_prop in H. destruct H as [Hv Hrest].
  cbn [map_res]. rewrite (IH Hrest).
  destruct v; try reflexivity. discriminate Hv.
Qed.

Lemma untuple_tagged (tagged : list (value * value)) :
  map_res untuple (map (fun tv => VTuple [fst tv; snd tv]) tagged)
  = Ok (map snd tagged).
Proof.
  induction tagged as [|tv tagged IH]; [reflexivity|].
  cbn [map map_res]. rewrite IH. reflexivity.
Qed.

(** X12 (osc_to_midi, typetags): arguments given as [(typetag, value)]
    tuples give what the bare values give, result or exception, for
    every address and whatever the tags are. *)
Theorem typetags_transparent (addr : string) (tagged : list (value * value))
  (Hplain : forallb (fun tv => negb (is_tuple (snd tv))) tagged = true) :
  osc_to_midi int_of_str addr
    (map (fun tv => VTuple [fst tv; snd tv]) tagged)
  = osc_to_midi int_of_str addr (map snd tagged).
Proof.
  unfold osc_to_midi.
  rewrite untuple_tagged, untuple_plain; [reflexivity|].
  rewrite forallb_forall in Hplain |- *.
  intros v Hv. apply in_map_iff in Hv. destruct Hv as [tv [<- Hin]].
  exact (Hplain tv Hin).
Qed.

Lemma coerced_ints (args args' : list value) :
  (if negb (forallb is_int args)
   then ints <- map_res (int_of int_of_str) args ;; Ok (map VInt ints)
   else Ok args) = Ok args' ->
  forallb is_int args' = true.
Proof.
  destruct (forallb is_int args) eqn:E; cbn [negb].
  - intros H. injection H as <-. exact E.
  - destruct (map_res (int_of int_of_str) args); cbn [bind];
      [|discriminate].
    intros H. injection H as <-. apply ints_are_ints.
Qed.

Lemma index_int (l : list value) (i : nat) (v : value) :
  forallb is_int l = true -> index l i = Ok v -> is_int v = true.
Proof.
  intros Hall. unfold index.
  destruct (nth_error l i) eqn:E; [|discriminate].
  intros H. injection H as <-.
  rewrite forallb_forall in Hall. apply Hall.
  exact (nth_error_In _ _ E).
Qed.

(** X13 (osc_to_midi, coercion): every event [osc_to_midi] returns has
    the type its address names and holds integers only: each data value
    is an [int], and for [/sysex] the one value is a list of [int]s. *)
Theorem osc_to_midi_integers (addr : string) (args : list value)
  (event : SeqEvent)
  (Hrun : osc_to_midi int_of_str addr args = Ok (Some event)) :
  lookup addr OSC_TO_MIDI = Some (type event) /\
  match type event with
  | SEQ_EVENT_SYSEX =>
      exists bytes,
        data event = [("ext", VList bytes)] /\ forallb is_int bytes = true
  | _ => forallb (fun kv => is_int (snd kv)) (data event) = true
  end.
Proof.
  unfold osc_to_midi in Hrun.
  destruct (lookup addr OSC_TO_MIDI) as [mtype|]; [|discriminate].
  destruct (map_res untuple args) as [args1|]; cbn [bind] in Hrun;
    [|discriminate].
  destruct (existsb is_none args1); [discriminate|].
  match type of Hrun with
  | bind ?c _ = _ => destruct c as [args2|] eqn:Hco
  end; cbn [bind] in Hrun; [|discriminate].
  apply coerced_ints in Hco.
  unfold index in Hrun.
  destruct mtype;
    repeat match type of Hrun with
    | context [nth_error args2 ?i] =>
        let E := fresh "E" in
        let v := fresh "v" in
        destruct (nth_error args2 i) as [v|] eqn:E; cbn [bind] in Hrun;
        [ assert (is_int v = true)
            by (apply (index_int args2 i);
                [exact Hco | unfold index; rewrite E; reflexivity])
        | discriminate ]
    end;
    cbn [bind] in Hrun; injection Hrun as <-; cbn [type data];
    (split; [reflexivity|]);
    cbn [forallb snd];
    repeat match goal with
    | H : is_int _ = true |- _ => rewrite H; clear H
    end;
    try reflexivity.
  eexists. split; [reflexivity|exact Hco].
Qed.

(** X14 (osc_to_midi, argument count): on integer arguments
    [osc_to_midi] raises [IndexError] when there are fewer than the
    event type needs (3 for note-on and control change, 2 for note-off,
    program change and pitch bend, none otherwise) and returns an event
    of the type in every other case, ignoring the arguments in excess
    except for [/sysex]. *)
Theorem osc_to_midi_arity (addr : string) (mtype : event_type) (zs : list Z)
  (Haddr : lookup addr OSC_TO_MIDI = Some mtype) :
  if (List.length zs <? arity mtype)%nat
  then osc_to_midi int_of_str addr (map VInt zs) = Raise IndexError
  else exists event,
         osc_to_midi int_of_str addr (map VInt zs) = Ok (Some event) /\
         type event = mtype /\
         (mtype <> SEQ_EVENT_SYSEX ->
          osc_to_midi int_of_str addr (map VInt (firstn (arity mtype) zs))
          = Ok (Some event)).
Proof.
  unfold osc_to_midi. rewrite Haddr.
  rewrite !untuple_ints. cbn [bind].
  rewrite !ints_have_no_none, !ints_are_ints. cbn [negb bind].
  destruct mtype; cbn [arity];
    destruct zs as [|a [|b [|c zs]]]; cbn;
    try reflexivity;
    eexists; (split; [reflexivity|]); (split; [reflexivity|]);
    try reflexivity; intros H; try reflexivity; contradiction.
Qed.

Definition well_formed (arg : value) : bool :=
  match arg with
  | VTuple items => (2 <=? List.length items)%nat
  | _ => true
  end.

Lemma untuple_all (args : list value) :
  forallb well_formed args = true ->
  exists args',
    map_res untuple args = Ok args' /\
    forall a v, In a args -> untuple a = Ok v -> In v args'.
Proof.
  induction args as [|a args IH]; intros Hwf.
  - exists []. split; [reflexivity|]. intros a v [].
  - cbn [forallb] in Hwf. apply andb_prop in Hwf. destruct Hwf as [Ha Hrest].
    destruct (IH Hrest) as [tl [Htl Hin]].
    assert (Hsome : exists a', untuple a = Ok a').
    { destruct a as [| | | | |items]; try (eexists; reflexivity).
      destruct items as [|t [|v items]]; try discriminate Ha.
      eexists. reflexivity. }
    destruct Hsome as [a' Ha'].
    exists (a' :: tl). cbn [map_res]. rewrite Ha', Htl.
    split; [reflexivity|].
    intros x v [->|Hx] Hv.
    + left. congruence.
    + right. exact (Hin x v Hx Hv).
Qed.

(** X15 (osc_to_midi, None): when one argument is [None], bare or as the
    value of a [(typetag, value)] tuple, [osc_to_midi] returns [None] for
    every address of the table: no event is built and nothing is raised,
    even if arguments are missing or are not numbers. *)
Theorem osc_to_midi_none_aborts (addr : string) (mtype : event_type)
  (args : list value) (a : value)
  (Haddr : lookup addr OSC_TO_MIDI = Some mtype)
  (Hwf : forallb well_formed args = true)
  (Hin : In a args)
  (Hnone : untuple a = Ok VNone) :
  osc_to_midi int_of_str addr args = Ok None.
Proof.
  unfold osc_to_midi. rewrite Haddr.
  destruct (untuple_all args Hwf) as [args' [Hrun Hall]].
  rewrite Hrun. cbn [bind].
  assert (Hex : existsb is_none args' = true).
  { apply existsb_exists. exists VNone. split; [|reflexivity].
    exact (Hall a VNone Hin Hnone). }
  rewrite Hex. reflexivity.
Qed.

End Arguments.

(** A control change on channel 2, controller 7, value 64. *)
Lemma midi_round_trip_witness :
  exists addr items,
    midi_to_osc (mkSeqEvent SEQ_EVENT_CONTROLLER
      [("control.channel", VInt 2); ("control.param", VInt 7);
       ("control.value", VInt 64)])
    = Ok (Some (mkOsc addr (VList items))) /\
    addr = "/control_change" /\
    osc_to_midi (fun _ => Raise ValueError) addr items
    = Ok (Some (mkSeqEvent SEQ_EVENT_CONTROLLER
      [("control.channel", VInt 2); ("control.param", VInt 7);
       ("control.value", VInt 64)])).
Proof.
  destruct (midi_round_trip (fun _ => Raise ValueError) _
              (delivered_controller 2 7 64)) as [addr [items [Hto Hback]]].
  exists addr, items. split; [exact Hto|]. split; [|exact Hback].
  injection Hto as <- _. reflexivity.
Defined.

(** A note-on whose arguments carry type tags. *)
Lemma typetags_transparent_witness :
  osc_to_midi (fun _ => Raise ValueError) "/note_on"
    [VTuple [VStr "i"; VInt 1]; VTuple [VStr "i"; VInt 60];
     VTuple [VStr "f"; VFloat 100]]
  = Ok (Some (mkSeqEvent SEQ_EVENT_NOTEON
      [("note.channel", VInt 1); ("note.note", VInt 60);
       ("note.velocity", VInt 100)])).
Proof.
  exact (eq_trans
           (typetags_transparent (fun _ => Raise ValueError) "/note_on"
              [(VStr "i", VInt 1); (VStr "i", VInt 60);
               (VStr "f", VFloat 100)] eq_refl)
           eq_refl).
Defined.

(** Float arguments are truncated: 1.9, 60.2 and 100.7 give 1, 60, 100. *)
Lemma osc_to_midi_integers_witness :
  exists event,
    osc_to_midi (fun _ => Raise ValueError) "/note_on"
      [VFloat (19 # 10); VFloat (602 # 10); VFloat (1007 # 10)]
    = Ok (Some event) /\
    data event = [("note.channel", VInt 1); ("note.note", VInt 60);
                  ("note.velocity", VInt 100)] /\
    forallb (fun kv => is_int (snd kv)) (data event) = true.
Proof.
  eexists. split; [reflexivity|]. split; [reflexivity|].
  exact (proj2 (osc_to_midi_integers (fun _ => Raise ValueError) "/note_on"
                  [VFloat (19 # 10); VFloat (602 # 10); VFloat (1007 # 10)]
                  _ eq_refl)).
Defined.

(** [/note_on] with two arguments, and with a fourth one. *)
Lemma osc_to_midi_arity_witness :
  osc_to_midi (fun _ => Raise ValueError) "/note_on" [VInt 1; VInt 60]
    = Raise IndexError /\
  exists event,
    osc_to_midi (fun _ => Raise ValueError) "/note_on"
      [VInt 1; VInt 60; VInt 100; VInt 5] = Ok (Some event) /\
    osc_to_midi (fun _ => Raise ValueError) "/note_on"
      [VInt 1; VInt 60; VInt 100] = Ok (Some event).
Proof.
  split.
  - exact (osc_to_midi_arity (fun _ => Raise ValueError) "/note_on"
             SEQ_EVENT_NOTEON [1; 60] eq_refl).
  - destruct (osc_to_midi_arity (fun _ => Raise ValueError) "/note_on"
                SEQ_EVENT_NOTEON [1; 60; 100; 5] eq_refl)
      as [event [Hrun [_ Hcut]]].
    exists event. split; [exact Hrun|].
    apply Hcut. discriminate.
Defined.

(** A note-on whose only argument after the channel is a tagged [None]:
    no [IndexError], no event. *)
Lemma osc_to_midi_none_aborts_witness :
  osc_to_midi (fun _ => Raise ValueError) "/note_on"
    [VInt 1; VTuple [VStr "N"; VNone]] = Ok None.
Proof.
  apply (osc_to_midi_none_aborts (fun _ => Raise ValueError) "/note_on"
           SEQ_EVENT_NOTEON [VInt 1; VTuple [VStr "N"; VNone]]
           (VTuple [VStr "N"; VNone]) eq_refl eq_refl).
  - right. left. reflexivity.
  - reflexivity.
Defined.

End MidiTables.

(** ** module.py: reading back, forcing, flushing *)

Module MentatMore.

Import Mentat MentatFacts.

(** The values [Parameter.set] compares the slots with: each new value
    coerced to the type tag of its slot. *)
Fixpoint casts (cast : ascii -> value -> value) (tags : list ascii)
  (news : list value) : list value :=
  match news with
  | [] => []
  | v :: news' => cast (hd "*"%char tags) v :: casts cast (tl tags) news'
  end.

(** [a == b] slot by slot. *)
Definition slots_equal (stored expected : list value) : Prop :=
  Forall2 (fun v' c => value_eqb c v' = true) stored expected.

(** The tags of the dynamic slots. *)
Definition slot_tags (p : Param.parameter) : list ascii :=
  skipn (List.length (Param.static_args p)) (Param.types p).

(** The values [reset] passes to [set]: a list default is unpacked. *)
Definition default_values (p : Param.parameter) : list value :=
  match Param.default p with
  | VNone => []
  | VList items => items
  | d => [d]
  end.

Definition is_list (data : value) : bool :=
  match data with VList _ => true | _ => false end.

(** Calls of [set] in a row: each call has its arguments and its two
    flags, and runs on the state the previous one left, which is the
    state at the raise when that call raised. *)
Definition set_calls (fnmatch : string -> string -> bool)
  (cast : ascii -> value -> value) (parent : parent_view)
  (calls : list (list value * bool * bool)) (w : world) : world :=
  fold_left
    (fun w call =>
       state_of (set fnmatch cast (fst (fst call)) (snd (fst call))
                   (snd call) parent w))
    calls w.

Section MoreFacts.

Variable fnmatch : string -> string -> bool.
Variable cast : ascii -> value -> value.

Lemma set_slots_casts (news : list value) :
  forall tags olds,
    List.length olds = List.length news ->
    slots_equal (fst (Param.set_slots cast tags news olds))
      (casts cast tags news).
Proof.
  unfold slots_equal.
  induction news as [|v news IH]; intros tags [|old olds] Hlen;
    try discriminate Hlen.
  - constructor.
  - cbn [Param.set_slots casts].
    specialize (IH (tl tags) olds ltac:(cbn in Hlen; lia)).
    destruct (Param.set_slots cast (tl tags) news olds) as [rest changed].
    cbn [fst] in IH.
    destruct (value_eqb (cast (hd "*"%char tags) v) old) eqn:E;
      cbn [fst]; constructor; try assumption.
    apply value_eqb_refl.
Qed.

Lemma param_set_values (p : Param.parameter) (vals : list value) :
  List.length vals = Param.n_args p ->
  List.length (Param.values p) = Param.n_args p ->
  slots_equal (Param.values (fst (Param.set cast p vals)))
    (casts cast (slot_tags p) vals).
Proof.
  intros Hn Hslots. unfold Param.set.
  rewrite Hn, Nat.eqb_refl. cbn [negb].
  pose proof (set_slots_casts vals (slot_tags p) (Param.values p)
                ltac:(lia)) as H.
  unfold slot_tags in *.
  destruct (Param.set_slots cast _ vals (Param.values p)) as [vs' changed].
  exact H.
Qed.

Lemma resolve_local_exact (self : module) (first : value) :
  resolve fnmatch true self first = Local ->
  resolve fnmatch false self first = Local.
Proof.
  unfold resolve. destruct first; try reflexivity.
  destruct (existsb _ _); [discriminate|]. reflexivity.
Qed.

(** What [set] stores for a parameter of the module itself. *)
Lemma set_stores (fs pa : bool) (parent : parent_view) (self : module)
  (eng : engine) (n : string) (vals : list value) (p : Param.parameter) :
  is_local fnmatch self n = true ->
  find_parameter n self = Some p ->
  exists self' eng' p',
    set fnmatch cast (VStr n :: vals) fs pa parent (self, eng)
    = Done (self', eng') /\
    find_parameter n self' = Some p' /\
    Param.values p'
    = Param.values (fst (Param.set cast p vals)) /\
    Param.animate_running p'
    = Param.animate_running p && pa /\
    aliases self' = aliases self /\
    submodules self' = submodules self /\
    forall m, m <> n -> find_parameter m self' = find_parameter m self.
Proof.
  intros Hlocal Hp. unfold is_local in Hlocal. cbn [set fst].
  destruct (resolve fnmatch true self (VStr n)); [|discriminate].
  pose proof (find_parameter_name _ _ _ Hp) as Hname.
  unfold set_body. rewrite Hp.
  set (p1 := if Param.animate_running p && negb pa
             then Param.stop_animation p else p).
  assert (H1 : Param.set cast p1 vals
               = (if Param.animate_running p && negb pa
                  then Param.stop_animation (fst (Param.set cast p vals))
                  else fst (Param.set cast p vals),
                  snd (Param.set cast p vals))).
  { subst p1. destruct (Param.animate_running p && negb pa).
    - apply param_set_stop.
    - destruct (Param.set cast p vals); reflexivity. }
  pose proof (param_set_fields cast p vals) as Hf. cbv zeta in Hf.
  destruct Hf as [Hn [_ [_ [_ [_ [Hr _]]]]]].
  set (p2 := if Param.animate_running p && negb pa
             then Param.stop_animation (fst (Param.set cast p vals))
             else fst (Param.set cast p vals)) in *.
  assert (H2 : Param.name p2 = n
               /\ Param.values p2
                  = Param.values (fst (Param.set cast p vals))
               /\ Param.animate_running p2 = Param.animate_running p && pa).
  { subst p2. destruct (Param.animate_running p) eqn:Er; destruct pa;
      cbn [andb negb]; repeat split; try congruence;
      cbn [Param.stop_animation Param.with_animate_running Param.name
           Param.values Param.animate_running]; congruence. }
  destruct H2 as [Hn2 [Hv2 Hr2]].
  assert (Hstore : forall p',
    Param.name p' = n ->
    find_parameter n (store p' self) = Some p' /\
    forall m, m <> n -> find_parameter m (store p' self)
                        = find_parameter m self).
  { intros p' Hp'. split.
    - rewrite <- Hp'. apply (find_store_same p). rewrite Hp'. exact Hp.
    - intros m Hm. apply find_store_other. congruence. }
  destruct (fs && truthy (Param.address p1)).
  - rewrite H1. cbn [fst].
    destruct (Hstore (Param.set_last_sent p2)) as [Hfind Hother];
      [exact Hn2|].
    do 3 eexists. split; [reflexivity|].
    split; [exact Hfind|]. repeat split; try assumption.
  - rewrite H1.
    destruct (snd (Param.set cast p vals) && negb (Param.dirty p2)).
    + destruct (Hstore (Param.with_dirty true p2)) as [Hfind Hother];
        [exact Hn2|].
      unfold set_dirty.
      destruct (dirty (with_dirty_parameters _ _));
        do 3 eexists; (split; [reflexivity|]);
        (split; [exact Hfind|]); repeat split; assumption.
    + destruct (Hstore p2) as [Hfind Hother]; [exact Hn2|].
      do 3 eexists. split; [reflexivity|].
      split; [exact Hfind|]. repeat split; assumption.
Qed.

Lemma get_local (self : module) (n : string) (p : Param.parameter) :
  resolve fnmatch false self (VStr n) = Local ->
  find_parameter n self = Some p ->
  get fnmatch [VStr n] self = Ok (Param.get p) /\
  get_parameter fnmatch [VStr n] self = Ok (Some p).
Proof.
  intros Hr Hp. unfold get, get_parameter. cbn [submodule_query].
  rewrite Hr. unfold get_body, get_parameter_body. rewrite Hp.
  split; reflexivity.
Qed.

(** X16 (set, get): after [set(name, *values)] on a parameter of the
    module itself, given as many values as it has slots, [get(name)]
    returns what the parameter now holds and each slot equals the new
    value coerced to the slot's type; this holds on the buffered and on
    the forced path, and whether or not an animation was running. *)
Theorem get_after_set (fs pa : bool) (parent : parent_view) (self : module)
  (eng : engine) (n : string) (vals : list value) (p : Param.parameter)
  (Hlocal : is_local fnmatch self n = true)
  (Hp : find_parameter n self = Some p)
  (Hcount : List.length vals = Param.n_args p)
  (Hslots : List.length (Param.values p) = Param.n_args p) :
  exists self' eng' p',
    set fnmatch cast (VStr n :: vals) fs pa parent (self, eng)
    = Done (self', eng') /\
    get_parameter fnmatch [VStr n] self' = Ok (Some p') /\
    get fnmatch [VStr n] self' = Ok (Param.get p') /\
    slots_equal (Param.values p') (casts cast (slot_tags p) vals).
Proof.
  destruct (set_stores fs pa parent self eng n vals p Hlocal Hp)
    as [self' [eng' [p' [Hset [Hfind [Hvals [_ [Hal [Hsub _]]]]]]]]].
  exists self', eng', p'. split; [exact Hset|].
  assert (Hr : resolve fnmatch false self' (VStr n) = Local).
  { rewrite (resolve_same fnmatch false self self') by congruence.
    apply resolve_local_exact. unfold is_local in Hlocal.
    destruct (resolve fnmatch true self (VStr n)); [reflexivity|discriminate]. }
  destruct (get_local self' n p' Hr Hfind) as [Hget Hgp].
  split; [exact Hgp|]. split; [exact Hget|].
  rewrite Hvals. apply param_set_values; assumption.
Qed.

(** X17 (reset): [reset(name)] on a parameter of the module itself whose
    default is not [None] and has one value per slot leaves every slot
    equal to the default coerced to the slot's type, stops a running
    animation, and [get(name)] returns the stored value. *)
Theorem reset_restores_default (parent : parent_view) (self : module)
  (eng : engine) (n : string) (p : Param.parameter)
  (Hlocal : is_local fnmatch self n = true)
  (Hp : find_parameter n self = Some p)
  (Hdef : Param.default p <> VNone)
  (Hcount : List.length (default_values p) = Param.n_args p)
  (Hslots : List.length (Param.values p) = Param.n_args p) :
  exists self' eng' p',
    reset fnmatch cast (Some n) parent (self, eng) = Done (self', eng') /\
    find_parameter n self' = Some p' /\
    get fnmatch [VStr n] self' = Ok (Param.get p') /\
    slots_equal (Param.values p')
      (casts cast (slot_tags p) (default_values p)) /\
    Param.animate_running p' = false.
Proof.
  destruct (set_stores false false parent self eng n (default_values p) p
              Hlocal Hp)
    as [self' [eng' [p' [Hset [Hfind [Hvals [Hrun [Hal [Hsub _]]]]]]]]].
  exists self', eng', p'.
  assert (Hr : resolve fnmatch false self' (VStr n) = Local).
  { rewrite (resolve_same fnmatch false self self') by congruence.
    apply resolve_local_exact. unfold is_local in Hlocal.
    destruct (resolve fnmatch true self (VStr n)); [reflexivity|discriminate]. }
  split.
  - unfold reset, reset_name. cbn [fst]. rewrite Hp.
    unfold default_values in Hset.
    destruct (Param.default p); try exact Hset. contradiction.
  - split; [exact Hfind|].
    split; [exact (proj1 (get_local self' n p' Hr Hfind))|].
    split.
    + rewrite Hvals. apply param_set_values; assumption.
    + rewrite Hrun. apply andb_false_r.
Qed.

(** X18 (set, force_send): a forced [set] on a parameter of the module
    itself that has an address sends one message, built from the values
    as they are after the call (also when the values were refused), and
    records it as the last one sent; it touches neither the dirty buffer
    nor the dirty flags, so a parameter that was pending stays pending. *)
Theorem forced_set_sends_now (pa : bool) (parent : parent_view)
  (self : module) (eng : engine) (n : string) (vals : list value)
  (p : Param.parameter)
  (Hlocal : is_local fnmatch self n = true)
  (Hp : find_parameter n self = Some p)
  (Haddr : truthy (Param.address p) = true) :
  exists self' eng' p',
    set fnmatch cast (VStr n :: vals) true pa parent (self, eng)
    = Done (self', eng') /\
    find_parameter n self' = Some p' /\
    eng' = send parent (Param.address p) (Param.get_message_args p') self eng
    /\
    (truthy (port self) = true ->
     message_queue eng'
     = (message_queue eng
        ++ [protocol self :: port self :: Param.address p
            :: Param.get_message_args p'])%list) /\
    Param.last_sent p' = VList (Param.get_message_args p') /\
    Param.dirty p' = Param.dirty p /\
    dirty_parameters self' = dirty_parameters self /\
    dirty self' = dirty self /\
    dirty_modules eng' = dirty_modules eng.
Proof.
  unfold is_local in Hlocal. cbn [set fst].
  destruct (resolve fnmatch true self (VStr n)); [|discriminate].
  pose proof (find_parameter_name _ _ _ Hp) as Hname.
  unfold set_body. rewrite Hp.
  set (p1 := if Param.animate_running p && negb pa
             then Param.stop_animation p else p).
  assert (H1 : Param.address p1 = Param.address p
               /\ Param.dirty p1 = Param.dirty p
               /\ Param.name p1 = n).
  { subst p1. destruct (Param.animate_running p && negb pa);
      repeat split; assumption. }
  destruct H1 as [Ha [Hd Hn]]. rewrite Ha, Haddr. cbn [andb].
  pose proof (param_set_fields cast p1 vals) as Hf. cbv zeta in Hf.
  destruct Hf as [Hn2 [Hd2 [Ha2 _]]].
  set (p2 := fst (Param.set cast p1 vals)) in *.
  exists (store (Param.set_last_sent p2) self),
         (send parent (Param.address p2) (Param.get_message_args p2) self eng),
         (Param.set_last_sent p2).
  split; [reflexivity|].
  split.
  { assert (Hn3 : Param.name (Param.set_last_sent p2) = n)
      by (cbn; congruence).
    rewrite <- Hn3. apply (find_store_same p). rewrite Hn3. exact Hp. }
  split; [rewrite Ha2, Ha; reflexivity|].
  split.
  { intros Hport. unfold send. rewrite Hport.
    destruct parent as [[pp po]|]; cbn [negb]; rewrite Hport;
      cbn [message_queue with_message_queue]; rewrite Ha2, Ha; reflexivity. }
  split; [reflexivity|].
  split; [cbn; congruence|].
  split; [reflexivity|]. split; [reflexivity|].
  apply send_appends.
Qed.

(** *** The module on the engine's queue *)

Lemma set_body_module_path (fs pa : bool) (parent : parent_view)
  (args : list value) (w : world) :
  module_path (fst (state_of (set_body cast fs pa parent args w)))
  = module_path (fst w).
Proof.
  destruct w as [self eng]. cbn [fst]. unfold set_body.
  destruct args as [|first vals]; [reflexivity|].
  destruct first as [| z | x | q | items | items];
    try (destruct (hashable _); reflexivity).
  destruct (find_parameter q self) as [p|]; [|reflexivity].
  destruct (fs && truthy _); [reflexivity|].
  destruct (Param.set cast _ vals) as [p2 changed].
  destruct (changed && negb (Param.dirty p2)); [|reflexivity].
  unfold set_dirty. destruct (dirty _); reflexivity.
Qed.

Lemma set_leaf (self : module) (Hleaf : submodules self = [])
  (args : list value) (fs pa : bool) (parent : parent_view) (eng : engine) :
  let w' := state_of (set fnmatch cast args fs pa parent (self, eng)) in
  submodules (fst w') = [] /\
  module_path (fst w') = module_path self /\
  exists queued : bool,
    dirty (fst w') = queued || dirty self /\
    dirty_modules (snd w')
    = (if queued && negb (dirty self)
       then (dirty_modules eng ++ [module_path self])%list
       else dirty_modules eng).
Proof.
  cbv zeta.
  assert (Hsame : submodules self = [] /\ module_path self = module_path self
            /\ exists queued : bool,
                 dirty self = queued || dirty self /\
                 dirty_modules eng
                 = (if queued && negb (dirty self)
                    then (dirty_modules eng ++ [module_path self])%list
                    else dirty_modules eng)).
  { split; [exact Hleaf|]. split; [reflexivity|]. exists false.
    split; reflexivity. }
  destruct args as [|first rest]; [exact Hsame|].
  cbn [set fst].
  destruct (resolve fnmatch true self first) as [|names] eqn:Hr.
  - split; [rewrite set_body_submodules; exact Hleaf|].
    split; [apply set_body_module_path|].
    destruct first as [| z | x | q | items | items];
      try (unfold set_body; destruct (hashable _); exact (proj2 (proj2 Hsame))).
    destruct (find_parameter q self) as [p|] eqn:Hp.
    + exists (enqueues cast fs pa p rest).
      destruct (set_body_enqueues cast fs pa parent q rest self eng p Hp)
        as [_ [Hd Hq]].
      split; assumption.
    + unfold set_body. rewrite Hp. exact (proj2 (proj2 Hsame)).
  - assert (names = []).
    { unfold resolve in Hr. rewrite Hleaf in Hr.
      destruct first; try discriminate Hr.
      cbn [map existsb] in Hr.
      destruct (true && is_pattern _); [|discriminate].
      injection Hr as <-. reflexivity. }
    subst names. exact Hsame.
Qed.

(** X19 (set, set_dirty): however many calls of [set] are made on a
    module without submodules, whatever their arguments and flags, the
    module is appended to the engine's queue of dirty modules once if
    the calls made it dirty and it was not dirty before, and not at all
    otherwise; a dirty module stays dirty. *)
Theorem module_queued_once (parent : parent_view)
  (calls : list (list value * bool * bool)) (self : module) (eng : engine)
  (Hleaf : submodules self = []) :
  let w' := set_calls fnmatch cast parent calls (self, eng) in
  dirty_modules (snd w')
  = (dirty_modules eng
     ++ (if dirty (fst w') && negb (dirty self)
         then [module_path self] else []))%list /\
  (dirty self = true -> dirty (fst w') = true).
Proof.
  cbv zeta. unfold set_calls.
  revert self eng Hleaf.
  induction calls as [|[[args fs] pa] calls IH]; intros self eng Hleaf.
  - cbn [fold_left fst snd]. destruct (dirty self); cbn [andb negb];
      rewrite ?andb_false_r, app_nil_r; split; auto.
  - cbn [fold_left fst snd].
    destruct (set_leaf self Hleaf args fs pa parent eng)
      as [Hleaf1 [Hpath [queued [Hd Hq]]]].
    destruct (state_of (set fnmatch cast args fs pa parent (self, eng)))
      as [self1 eng1].
    cbn [fst snd] in *.
    destruct (IH self1 eng1 Hleaf1) as [Hq' Hd'].
    match type of Hd' with
    | _ -> dirty (fst ?final) = true => set (d' := dirty (fst final)) in *
    end.
    rewrite Hq', Hq, Hpath. rewrite Hd in Hd' |- *.
    destruct (dirty self), queued; cbn [orb andb negb] in *;
      try rewrite (Hd' eq_refl);
      rewrite ?andb_false_r, ?andb_true_r, ?app_nil_r;
      split; auto.
Qed.

(** *** States with comments *)

Lemma and_then_ext {S : Type} (o : outcome S) (k k' : S -> outcome S) :
  (forall s, k s = k' s) -> and_then o k = and_then o k'.
Proof. intros H. destruct o; [apply H|reflexivity]. Qed.

(** X20 (set_state, comments): [set_state] acts on the lists of a state
    only: items of any other type, such as the strings a state file may
    hold as comments, change nothing, wherever they stand. *)
Theorem set_state_skips_comments (state : list value) (fs : bool)
  (parent : parent_view) (w : world) :
  set_state fnmatch cast state fs parent w
  = set_state fnmatch cast (filter is_list state) fs parent w.
Proof.
  revert w. induction state as [|data rest IH]; intros w; [reflexivity|].
  destruct data; cbn [set_state filter is_list]; try apply IH.
  apply and_then_ext. exact IH.
Qed.

End MoreFacts.

Section FlushFacts.

Variable fnmatch : string -> string -> bool.
Variable cast : ascii -> value -> value.
Variable should_send : Param.parameter -> bool.
Variable parent_check_mappings : list value -> world -> outcome world.

Lemma replace_nth_same {A : Type} (l : list A) :
  forall i x, nth_error l i = Some x -> replace_nth i x l = l.
Proof.
  induction l as [|y l IH]; intros [|i] x H; try discriminate H.
  - injection H as ->. reflexivity.
  - cbn [replace_nth]. rewrite (IH i x H). reflexivity.
Qed.

Lemma with_mappings_same (self : module) :
  with_mappings (mappings self) self = self.
Proof. destruct self; reflexivity. Qed.

(** A mapping that is locked does not run. *)
Lemma mappings_loop_idle (updated_parameter : value) (parent : parent_view)
  (w : world) :
  (forall m, In m (mappings (fst w)) ->
             Mapping.matches updated_parameter m = true ->
             Mapping.locked m = true) ->
  forall count i,
    mappings_loop fnmatch cast count i updated_parameter parent w = Done w.
Proof.
  intros Hlocked count.
  induction count as [|count IH]; intros i; [reflexivity|].
  cbn [mappings_loop].
  destruct (nth_error (mappings (fst w)) i) as [m|] eqn:Hm; [|reflexivity].
  destruct (Mapping.matches updated_parameter m) eqn:Hmatch; [|apply IH].
  pose proof (Hlocked m (nth_error_In _ _ Hm) Hmatch) as Hl.
  unfold update_mapping, Mapping.lock. rewrite Hl.
  destruct w as [self eng]. cbn [fst] in *.
  rewrite (replace_nth_same _ _ _ Hm), with_mappings_same. apply IH.
Qed.

(** X21 (check_mappings, lock): when every mapping of the module that
    matches the updated parameter is locked, [check_mappings] changes
    nothing in the module and only hands the path, prefixed with the
    module's name, to the parent if there is one: within a cycle a
    mapping that ran and stayed locked is not run again. *)
Theorem check_mappings_skips_locked (updated_parameter : value)
  (parent : parent_view) (w : world)
  (Hlocked : forall m, In m (mappings (fst w)) ->
                       Mapping.matches updated_parameter m = true ->
                       Mapping.locked m = true) :
  check_mappings fnmatch cast parent_check_mappings updated_parameter parent w
  = match parent with
    | None => Done w
    | Some _ =>
        parent_check_mappings
          (VStr (name (fst w))
             :: match updated_parameter with
                | VList items => items
                | n => [n]
                end) w
    end.
Proof.
  unfold check_mappings.
  rewrite (mappings_loop_idle updated_parameter parent w Hlocked).
  reflexivity.
Qed.

(** *** A flush in which no mapping runs *)

Lemma send_one (parent : parent_view) (address : value) (args : list value)
  (self : module) (eng : engine) :
  only_messages eng (send parent address args self eng) /\
  (List.length (message_queue (send parent address args self eng))
   <= S (List.length (message_queue eng)))%nat.
Proof.
  split; [exact (send_appends parent address args self eng)|].
  unfold send.
  destruct (match parent with
            | Some parent_proto_port =>
                if negb (truthy (port self)) then parent_proto_port
                else (protocol self, port self)
            | None => (protocol self, port self)
            end) as [proto po].
  destruct (truthy po); cbn [message_queue with_message_queue]; [|lia].
  rewrite length_app. cbn [List.length]. lia.
Qed.

Lemma replace_parameter_found (n : string) (p : Param.parameter)
  (ps : list Param.parameter) :
  find (fun x => String.eqb (Param.name x) n) ps = Some p ->
  replace_parameter p ps = ps.
Proof.
  induction ps as [|x xs IH]; [reflexivity|].
  cbn [find replace_parameter]. intros H.
  destruct (String.eqb (Param.name x) n) eqn:E.
  - injection H as ->. rewrite String.eqb_refl. reflexivity.
  - pose proof (find_some _ _ H) as [_ Hn]. apply String.eqb_eq in Hn.
    rewrite Hn, E, (IH H). reflexivity.
Qed.

Lemma store_found (n : string) (p : Param.parameter) (self : module) :
  find_parameter n self = Some p -> store p self = self.
Proof.
  unfold find_parameter, store, with_parameters. intros H.
  rewrite (replace_parameter_found n p _ H). destruct self; reflexivity.
Qed.

Lemma replace_parameter_twice (p q : Param.parameter)
  (ps : list Param.parameter) :
  Param.name q = Param.name p ->
  replace_parameter q (replace_parameter p ps) = replace_parameter q ps.
Proof.
  intros Hn. induction ps as [|x xs IH]; [reflexivity|].
  cbn [replace_parameter].
  destruct (String.eqb (Param.name x) (Param.name p)) eqn:E;
    cbn [replace_parameter].
  - rewrite Hn, String.eqb_refl, E. reflexivity.
  - rewrite Hn, E. f_equal. exact IH.
Qed.

Lemma drain_idle (parent : parent_view)
  (Hquiet : forall path w, parent_check_mappings path w = Done w) :
  forall queue self eng,
    dirty_parameters self = queue ->
    (forall n, In n queue -> find_parameter n self <> None) ->
    (forall n m, In n queue -> In m (mappings self) ->
                 Mapping.matches (VStr n) m = true ->
                 Mapping.locked m = true) ->
    exists self' eng',
      drain fnmatch cast should_send parent_check_mappings
        (S (List.length queue)) parent (self, eng)
      = Some (Done (self', eng')) /\
      mappings self' = mappings self /\
      dirty self' = dirty self /\
      (forall n, In n queue ->
         exists p', find_parameter n self' = Some p'
                    /\ Param.dirty p' = false) /\
      (forall m, ~ In m queue ->
         find_parameter m self' = find_parameter m self) /\
      only_messages eng eng' /\
      (List.length (message_queue eng')
       <= List.length (message_queue eng) + List.length queue)%nat.
Proof.
  induction queue as [|n queue IH]; intros self eng Hq Hfound Hlocked.
  - exists self, eng. cbn [drain List.length]. rewrite Hq.
    split; [reflexivity|]. split; [reflexivity|]. split; [reflexivity|].
    split; [intros n []|]. split; [reflexivity|].
    split; [apply only_messages_refl|lia].
  - cbn [List.length]. cbn [drain]. rewrite Hq.
    set (self1 := with_dirty_parameters queue self).
    destruct (find_parameter n self) as [p|] eqn:Hp;
      [|exfalso; exact (Hfound n (or_introl eq_refl) Hp)].
    change (find_parameter n self1) with (find_parameter n self).
    rewrite Hp.
    pose proof (find_parameter_name _ _ _ Hp) as Hname.
    (* the state and the engine after the turn for [n] *)
    assert (Hturn : exists p3 eng1,
      (if should_send p
       then check_mappings fnmatch cast parent_check_mappings (VStr n) parent
              (store (Param.set_last_sent p) self1,
               if truthy (Param.address p)
               then send parent (Param.address p)
                      (Param.get_message_args p) self1 eng
               else eng)
       else Done (self1, eng))
      = Done (store p3 self1, eng1)
      /\ clear_dirty n (store p3 self1)
         = store (Param.with_dirty false p3) self1
      /\ Param.name p3 = n
      /\ only_messages eng eng1
      /\ (List.length (message_queue eng1)
          <= S (List.length (message_queue eng)))%nat).
    { assert (Hclear : forall p3, Param.name p3 = n ->
        clear_dirty n (store p3 self1)
        = store (Param.with_dirty false p3) self1).
      { intros p3 H3. unfold clear_dirty.
        assert (Hf : find_parameter n (store p3 self1) = Some p3).
        { rewrite <- H3. apply (find_store_same p). rewrite H3. exact Hp. }
        rewrite Hf. unfold store. cbn [parameters with_parameters].
        rewrite replace_parameter_twice by reflexivity.
        destruct self1; reflexivity. }
      destruct (should_send p).
      - exists (Param.set_last_sent p).
        eexists. split.
        + unfold check_mappings.
          rewrite mappings_loop_idle.
          * cbn [and_then]. destruct parent; [apply Hquiet|reflexivity].
          * intros m Hm. apply (Hlocked n m (or_introl eq_refl)). exact Hm.
        + split; [apply Hclear; exact Hname|]. split; [exact Hname|].
          destruct (truthy (Param.address p)).
          * apply send_one.
          * split; [apply only_messages_refl|lia].
      - exists p, eng. split.
        + rewrite (store_found n p self1) by exact Hp. reflexivity.
        + split; [apply Hclear; exact Hname|]. split; [exact Hname|].
          split; [apply only_messages_refl|lia]. }
    destruct Hturn as [p3 [eng1 [Hsent [Hclear [Hn3 [Hmsg Hlen]]]]]].
    rewrite Hsent, Hclear.
    set (self3 := store (Param.with_dirty false p3) self1).
    assert (Hsame : find_parameter n self3 = Some (Param.with_dirty false p3)).
    { unfold self3. rewrite <- Hn3.
      apply (find_store_same p (Param.with_dirty false p3)).
      cbn [Param.name Param.with_dirty]. rewrite Hn3. exact Hp. }
    assert (Hother : forall m, m <> n ->
              find_parameter m self3 = find_parameter m self).
    { intros m Hm. unfold self3. rewrite find_store_other; [reflexivity|].
      cbn [Param.name Param.with_dirty]. congruence. }
    destruct (IH self3 eng1) as [self' [eng' [Hrun [Hmap [Hd [Hclean [Hrest
      [Hmsg' Hlen']]]]]]]].
    + reflexivity.
    + intros m Hm. destruct (string_dec m n) as [->|Hne].
      * rewrite Hsame. discriminate.
      * rewrite (Hother m Hne). apply Hfound. right. exact Hm.
    + intros m mp Hm Hmp. apply (Hlocked m mp); [right; exact Hm|exact Hmp].
    + exists self', eng'. split; [exact Hrun|].
      split; [exact Hmap|]. split; [exact Hd|].
      split; [|split; [|split]].
      * intros m [<-|Hm]; [|exact (Hclean m Hm)].
        destruct (in_dec string_dec n queue) as [Hin|Hout];
          [exact (Hclean n Hin)|].
        rewrite (Hrest n Hout), Hsame. eexists. split; reflexivity.
      * intros m Hm. rewrite Hrest by (intros H; apply Hm; right; exact H).
        apply Hother. intros ->. apply Hm. left. reflexivity.
      * exact (only_messages_trans _ _ _ Hmsg Hmsg').
      * lia.
Qed.

(** X22 (update_dirty_parameters): when no mapping runs (each mapping
    of the module that matches a queued parameter is locked, and the
    parent's [check_mappings] changes nothing), a flush of a buffer
    whose names are parameters of the module ends after one turn per
    queued name: the buffer is empty, the module and every queued
    parameter are clean, every mapping is unlocked, the other
    parameters are untouched, and the engine got at most one message per
    queued name and nothing else. *)
Theorem flush_cleans (parent : parent_view) (self : module) (eng : engine)
  (Hquiet : forall path w, parent_check_mappings path w = Done w)
  (Hfound : forall n, In n (dirty_parameters self) ->
                      find_parameter n self <> None)
  (Hlocked : forall n m, In n (dirty_parameters self) ->
                         In m (mappings self) ->
                         Mapping.matches (VStr n) m = true ->
                         Mapping.locked m = true) :
  exists self' eng',
    update_dirty_parameters fnmatch cast should_send parent_check_mappings
      (S (List.length (dirty_parameters self))) parent (self, eng)
    = Some (Done (self', eng')) /\
    dirty_parameters self' = [] /\
    dirty self' = false /\
    mappings self' = map Mapping.unlock (mappings self) /\
    (forall n, In n (dirty_parameters self) ->
       exists p', find_parameter n self' = Some p'
                  /\ Param.dirty p' = false) /\
    (forall m, ~ In m (dirty_parameters self) ->
       find_parameter m self' = find_parameter m self) /\
    only_messages eng eng' /\
    (List.length (message_queue eng')
     <= List.length (message_queue eng)
        + List.length (dirty_parameters self))%nat.
Proof.
  destruct (drain_idle parent Hquiet (dirty_parameters self) self eng
              eq_refl Hfound Hlocked)
    as [self1 [eng1 [Hrun [Hmap [Hd [Hclean [Hrest [Hmsg Hlen]]]]]]]].
  unfold update_dirty_parameters. rewrite Hrun.
  do 2 eexists. split; [reflexivity|].
  split; [exact (drain_empties _ _ _ _ _ _ _ _ Hrun)|].
  split; [reflexivity|].
  split; [cbn [mappings with_dirty with_mappings]; rewrite Hmap; reflexivity|].
  split; [exact Hclean|]. split; [exact Hrest|]. split; assumption.
Qed.

End FlushFacts.

(** [set('a', 5)] on ["M"], then [get('a')]. *)
Lemma get_after_set_witness :
  exists self' eng' p',
    set literal_names passthrough [VStr "a"; VInt 5] false false None
      (mod_M false, idle_engine) = Done (self', eng') /\
    get literal_names [VStr "a"] self' = Ok (Param.get p') /\
    slots_equal (Param.values p') [VInt 5].
Proof.
  destruct (get_after_set literal_names passthrough false false None
              (mod_M false) idle_engine "a" [VInt 5]
              (int_parameter "a" 3 false) eq_refl eq_refl eq_refl eq_refl)
    as [self' [eng' [p' [Hset [_ [Hget Hvals]]]]]].
  exists self', eng', p'. repeat split; assumption.
Defined.

(** [reset('a')] on ["M"], whose parameter [a] holds 3 and defaults
    to 0. *)
Lemma reset_restores_default_witness :
  exists self' eng' p',
    reset literal_names passthrough (Some "a") None (mod_M false, idle_engine)
    = Done (self', eng') /\
    find_parameter "a" self' = Some p' /\
    slots_equal (Param.values p') [VInt 0].
Proof.
  destruct (reset_restores_default literal_names passthrough None
              (mod_M false) idle_engine "a" (int_parameter "a" 3 false)
              eq_refl eq_refl)
    as [self' [eng' [p' [Hrun [Hfind [_ [Hvals _]]]]]]];
    [discriminate|reflexivity|reflexivity|].
  exists self', eng', p'. repeat split; assumption.
Defined.

(** [set('a', 5, force_send=True)] on ["M"], which sends to port 9000. *)
Lemma forced_set_sends_now_witness :
  exists self' eng' p',
    set literal_names passthrough [VStr "a"; VInt 5] true false None
      (mod_M false, idle_engine) = Done (self', eng') /\
    find_parameter "a" self' = Some p' /\
    message_queue eng'
    = [VStr "osc" :: VInt 9000 :: VStr "/a" :: Param.get_message_args p'] /\
    dirty_parameters self' = [] /\
    dirty_modules eng' = [].
Proof.
  destruct (forced_set_sends_now literal_names passthrough false None
              (mod_M false) idle_engine "a" [VInt 5]
              (int_parameter "a" 3 false) eq_refl eq_refl eq_refl)
    as [self' [eng' [p' [Hset [Hfind [_ [Hmsg [_ [_ [Hbuf [_ Hq]]]]]]]]]]].
  exists self', eng', p'.
  split; [exact Hset|]. split; [exact Hfind|].
  split; [exact (Hmsg eq_refl)|]. split; assumption.
Defined.

(** Three calls of [set] on the module with the parameters [a] and [c]:
    the module is queued once. *)
Lemma module_queued_once_witness :
  dirty_modules
    (snd (set_calls literal_names passthrough None
            [([VStr "a"; VInt 5], false, false);
             ([VStr "c"; VInt 7], false, false);
             ([VStr "a"; VInt 6], false, false)]
            (mod_local, idle_engine)))
  = [["engine"; "M"]].
Proof.
  rewrite (proj1 (module_queued_once literal_names passthrough None
                    [([VStr "a"; VInt 5], false, false);
                     ([VStr "c"; VInt 7], false, false);
                     ([VStr "a"; VInt 6], false, false)]
                    mod_local idle_engine eq_refl)).
  reflexivity.
Defined.

(** The module with the mapping from [a] to [c], which is locked. *)
Definition mod_locked : module :=
  with_mappings [Mapping.with_locked true a_to_c] mod_local.

Lemma check_mappings_skips_locked_witness :
  check_mappings literal_names passthrough no_parent (VStr "a") None
    (mod_locked, idle_engine)
  = Done (mod_locked, idle_engine).
Proof.
  apply (check_mappings_skips_locked literal_names passthrough no_parent
           (VStr "a") None (mod_locked, idle_engine)).
  intros m [<-|[]] _. reflexivity.
Defined.

(** The module after [set('a', 5)] and [set('c', 7)]: both are queued. *)
Definition two_pending : world :=
  set_calls literal_names passthrough None
    [([VStr "a"; VInt 5], false, false); ([VStr "c"; VInt 7], false, false)]
    (mod_local, idle_engine).

Lemma flush_cleans_witness :
  dirty_parameters (fst two_pending) = ["a"; "c"] /\
  exists self' eng',
    update_dirty_parameters literal_names passthrough send_when_new no_parent
      3 None two_pending = Some (Done (self', eng')) /\
    dirty_parameters self' = [] /\
    dirty self' = false /\
    (forall n, In n ["a"; "c"] ->
       exists p', find_parameter n self' = Some p'
                  /\ Param.dirty p' = false).
Proof.
  split; [reflexivity|].
  destruct (flush_cleans literal_names passthrough send_when_new no_parent
              None (fst two_pending) (snd two_pending))
    as [self' [eng' [Hrun [Hbuf [Hd [_ [Hclean _]]]]]]].
  - intros path w. reflexivity.
  - intros n [<-|[<-|[]]]; discriminate.
  - intros n m _ [].
  - exists self', eng'. split; [exact Hrun|]. split; [exact Hbuf|].
    split; [exact Hd|]. exact Hclean.
Defined.

End MentatMore.

(** ** module.py: registration, animation and mappings *)

Module MentatRestFacts.

Import Mentat MentatFacts MentatRest.

(** *** Invariants of the tree *)

Section Tree.

Variable P : module -> Prop.
Hypothesis P_submodules :
  forall subs self, P self -> P (with_submodules subs self).

Lemma nodes_unfold (self : module) :
  Forall P (nodes self)
  <-> P self /\ Forall (fun sub => Forall P (nodes sub)) (submodules self).
Proof.
  destruct self as [nm pr po ps an ma dp d subs al mp].
  cbn [nodes submodules]. rewrite Forall_cons_iff, Forall_flat_map.
  reflexivity.
Qed.

Lemma for_submodules_keeps (Q : engine -> Prop)
  (method : parent_view -> world -> outcome world) (names : list string) :
  (forall parent w,
     Forall P (nodes (fst w)) -> Q (snd w) ->
     Forall P (nodes (fst (state_of (method parent w))))
     /\ Q (snd (state_of (method parent w)))) ->
  forall w,
    Forall P (nodes (fst w)) -> Q (snd w) ->
    Forall P (nodes (fst (state_of (for_submodules method names w))))
    /\ Q (snd (state_of (for_submodules method names w))).
Proof.
  intros Hmethod.
  induction names as [|n names IH]; intros [self eng] Hok Hq;
    cbn [for_submodules]; [split; assumption|].
  destruct (find_submodule n self) as [sub|] eqn:Hsub; [|split; assumption].
  cbn [fst snd] in Hok, Hq. apply nodes_unfold in Hok as Hself.
  destruct Hself as [Hown Hall].
  assert (Hsubok : Forall P (nodes sub)).
  { unfold find_submodule in Hsub. apply find_some in Hsub.
    rewrite Forall_forall in Hall. apply Hall, Hsub. }
  destruct (Hmethod (view_of self) (sub, eng) Hsubok Hq) as [Hs Hq'].
  assert (Hnext : forall sub', Forall P (nodes sub') ->
    Forall P (nodes (with_submodules
                       (replace_submodule sub' (submodules self)) self))).
  { intros sub' Hs'. apply nodes_unfold. split.
    - apply P_submodules, Hown.
    - cbn [submodules with_submodules].
      apply replace_submodule_Forall; assumption. }
  destruct (method (view_of self) (sub, eng)) as [[sub' eng']|e [sub' eng']];
    cbn [state_of fst snd] in Hs, Hq'.
  - apply IH; cbn [fst snd]; [apply Hnext, Hs|exact Hq'].
  - cbn [state_of fst snd]. split; [apply Hnext, Hs|exact Hq'].
Qed.

Lemma each_submodule_done (method : module -> engine -> outcome world)
  (subs : list module) :
  Forall (fun sub => forall eng, exists sub' eng',
            method sub eng = Done (sub', eng')
            /\ Forall P (nodes sub')) subs ->
  forall eng, exists subs' eng',
    each_submodule method subs eng = Done (subs', eng')
    /\ Forall (fun sub => Forall P (nodes sub)) subs'.
Proof.
  induction 1 as [|sub subs Hsub Hall IH]; intros eng.
  - exists [], eng. split; [reflexivity|constructor].
  - destruct (Hsub eng) as [sub' [eng1 [Hrun Hok]]].
    destruct (IH eng1) as [subs' [eng2 [Hrest Hoks]]].
    exists (sub' :: subs'), eng2. cbn [each_submodule].
    rewrite Hrun, Hrest. split; [reflexivity|].
    constructor; assumption.
Qed.

End Tree.

(** What [animate], [remove_parameter] and [update_animations] keep:
    the list of animations names no parameter twice, and only
    parameters of the module. *)
Definition listed_ok (self : module) : Prop :=
  NoDup (animations self)
  /\ forall n, In n (animations self) -> find_parameter n self <> None.

Lemma listed_ok_submodules (subs : list module) (self : module) :
  listed_ok self -> listed_ok (with_submodules subs self).
Proof. intros H. exact H. Qed.

Lemma replace_parameter_names (p' : Param.parameter)
  (ps : list Param.parameter) :
  map Param.name (replace_parameter p' ps) = map Param.name ps.
Proof.
  induction ps as [|p ps IH]; [reflexivity|]. cbn [replace_parameter].
  destruct (String.eqb (Param.name p) (Param.name p')) eqn:E;
    cbn [map]; [|rewrite IH; reflexivity].
  apply String.eqb_eq in E. rewrite E. reflexivity.
Qed.

Lemma find_parameter_names (n : string) (self : module) :
  find_parameter n self <> None <-> In n (map Param.name (parameters self)).
Proof.
  unfold find_parameter.
  induction (parameters self) as [|p ps IH]; cbn [find map In].
  - split; [intros H; contradiction|intros []].
  - destruct (String.eqb (Param.name p) n) eqn:E.
    + apply String.eqb_eq in E. split; [auto|discriminate].
    + apply String.eqb_neq in E. rewrite IH. split; [auto|].
      intros [H|H]; [contradiction|exact H].
Qed.

Lemma find_store_known (p' : Param.parameter) (n : string) (self : module) :
  find_parameter n (store p' self) <> None <-> find_parameter n self <> None.
Proof.
  rewrite !find_parameter_names. unfold store.
  cbn [parameters with_parameters]. rewrite replace_parameter_names.
  reflexivity.
Qed.

Lemma remove_first_In (x y : string) (l : list string) :
  In x (remove_first y l) -> In x l.
Proof.
  induction l as [|z l IH]; cbn [remove_first]; [auto|].
  destruct (String.eqb z y); cbn [In]; intuition.
Qed.

Lemma remove_first_NoDup (y : string) (l : list string) :
  NoDup l -> NoDup (remove_first y l).
Proof.
  induction 1 as [|z l Hz Hl IH]; cbn [remove_first]; [constructor|].
  destruct (String.eqb z y); [exact Hl|].
  constructor; [|exact IH]. intros H. apply Hz. exact (remove_first_In _ _ _ H).
Qed.

Lemma remove_first_gone (y : string) (l : list string) :
  NoDup l -> ~ In y (remove_first y l).
Proof.
  induction 1 as [|z l Hz Hl IH]; cbn [remove_first]; [auto|].
  destruct (String.eqb z y) eqn:E.
  - apply String.eqb_eq in E. subst z. exact Hz.
  - apply String.eqb_neq in E. intros [H|H]; [contradiction|].
    exact (IH H).
Qed.

Lemma existsb_eqb_In (n : string) (l : list string) :
  existsb (String.eqb n) l = true <-> In n l.
Proof.
  rewrite existsb_exists. split.
  - intros [x [Hx E]]. apply String.eqb_eq in E. subst x. exact Hx.
  - intros H. exists n. split; [exact H|apply String.eqb_refl].
Qed.

Lemma path_eqb_In (path : list string) (l : list (list string)) :
  existsb (path_eqb path) l = true <-> In path l.
Proof.
  rewrite existsb_exists. unfold path_eqb. split.
  - intros [x [Hx E]].
    destruct (list_eq_dec string_dec path x); [subst x; exact Hx|discriminate].
  - intros H. exists path. split; [exact H|].
    destruct (list_eq_dec string_dec path path); [reflexivity|contradiction].
Qed.

Lemma NoDup_snoc {A : Type} (x : A) (l : list A) :
  NoDup l -> ~ In x l -> NoDup (l ++ [x]).
Proof.
  induction 1 as [|y l Hy Hl IH]; intros Hx; cbn [app].
  - constructor; [intros []|constructor].
  - constructor.
    + rewrite in_app_iff. intros [H|[H|[]]]; [contradiction|].
      subst y. apply Hx. left. reflexivity.
    + apply IH. intros H. apply Hx. right. exact H.
Qed.

Lemma set_animating_keeps (w : world) :
  fst (set_animating w) = fst w /\
  In (module_path (fst w)) (animating_modules (snd (set_animating w))) /\
  (NoDup (animating_modules (snd w)) ->
   NoDup (animating_modules (snd (set_animating w)))).
Proof.
  destruct w as [self eng]. unfold set_animating.
  destruct (existsb (path_eqb (module_path self)) (animating_modules eng))
    eqn:E; cbn [fst snd animating_modules with_animating_modules].
  - apply path_eqb_In in E. repeat split; auto.
  - split; [reflexivity|]. split.
    + apply in_or_app. right. left. reflexivity.
    + intros H. apply NoDup_snoc; [exact H|].
      intros Hin. apply path_eqb_In in Hin. congruence.
Qed.

Section AnimateFacts.

Variable fnmatch : string -> string -> bool.
Variable start_animation :
  engine -> list value -> Param.parameter -> Param.parameter.
Variable update_animation : Q -> Param.parameter -> Param.parameter * bool.

Lemma animate_body_keeps (args : list value) (w : world) :
  listed_ok (fst w) -> NoDup (animating_modules (snd w)) ->
  let w' := state_of (animate_body start_animation args w) in
  listed_ok (fst w') /\ NoDup (animating_modules (snd w'))
  /\ submodules (fst w') = submodules (fst w).
Proof.
  destruct w as [self eng]. cbn [fst snd]. intros [Hnd Hin] Hq. cbv zeta.
  unfold animate_body.
  destruct args as [|first rest]; [repeat split; assumption|].
  destruct first as [| z | x | n | items | items];
    try (destruct (hashable _); repeat split; assumption).
  destruct (find_parameter n self) as [p|] eqn:Hp;
    [|repeat split; assumption].
  set (p' := start_animation eng rest p).
  assert (Hstored : listed_ok (store p' self)).
  { split; [exact Hnd|]. intros m Hm. apply find_store_known, Hin, Hm. }
  destruct (Param.animate_running p');
    [|split; [exact Hstored|split; [exact Hq|reflexivity]]].
  cbn [state_of].
  match goal with
  | |- context [set_animating ?w0] =>
      destruct (set_animating_keeps w0) as [Hfst [_ Hkeep]];
      rewrite Hfst; cbn [fst snd]
  end.
  split; [|split; [exact (Hkeep Hq)|]].
  - cbn [animations store with_parameters].
    destruct (existsb (String.eqb n) (animations self)) eqn:E;
      [exact Hstored|].
    split; cbn [animations with_animations store with_parameters].
    + apply NoDup_snoc; [exact Hnd|].
      intros H. apply existsb_eqb_In in H. congruence.
    + intros m Hm. apply in_app_or in Hm.
      change (find_parameter m (store p' self) <> None).
      apply find_store_known.
      destruct Hm as [Hm|[<-|[]]]; [exact (Hin m Hm)|]. congruence.
  - destruct (existsb (String.eqb n) (animations (store p' self)));
      reflexivity.
Qed.

Lemma animate_keeps (args : list value) :
  forall parent w,
    Forall listed_ok (nodes (fst w)) -> NoDup (animating_modules (snd w)) ->
    Forall listed_ok
      (nodes (fst (state_of (animate fnmatch start_animation args parent w))))
    /\ NoDup (animating_modules
                (snd (state_of
                        (animate fnmatch start_animation args parent w)))).
Proof.
  induction args as [|first rest IH]; intros parent w Hok Hq;
    cbn [animate]; [split; assumption|].
  destruct (resolve fnmatch true (fst w) first) as [|names].
  - apply (nodes_unfold listed_ok) in Hok. destruct Hok as [Hown Hall].
    destruct (animate_body_keeps (first :: rest) w Hown Hq)
      as [Hown' [Hq' Hsubs]].
    split; [|exact Hq'].
    apply (nodes_unfold listed_ok). split; [exact Hown'|].
    rewrite Hsubs. exact Hall.
  - apply (for_submodules_keeps listed_ok listed_ok_submodules
             (fun eng => NoDup (animating_modules eng)));
      [|exact Hok|exact Hq].
    intros parent' w' Hw' Hq'. apply IH; assumption.
Qed.

(** X23 (animate, set_animating): [animate] keeps the animation lists
    in order: if, in every module of the tree, the list names no
    parameter twice and only parameters of the module, then this still
    holds afterwards, for any arguments, and the engine's list of
    animating modules gets no module twice; a call that reaches a
    parameter of the module itself and leaves it running lists the
    parameter and the module. *)
Theorem animate_lists_once (args : list value) (parent : parent_view)
  (self : module) (eng : engine)
  (Hok : Forall listed_ok (nodes self))
  (Hq : NoDup (animating_modules eng)) :
  let w' := state_of (animate fnmatch start_animation args parent (self, eng))
  in
  Forall listed_ok (nodes (fst w')) /\
  NoDup (animating_modules (snd w')) /\
  (forall n rest p,
     args = VStr n :: rest ->
     is_local fnmatch self n = true ->
     find_parameter n self = Some p ->
     Param.animate_running (start_animation eng rest p) = true ->
     In n (animations (fst w')) /\
     In (module_path self) (animating_modules (snd w'))).
Proof.
  cbv zeta.
  destruct (animate_keeps args parent (self, eng) Hok Hq) as [H1 H2].
  split; [exact H1|]. split; [exact H2|].
  intros n rest p -> Hlocal Hp Hrun. unfold is_local in Hlocal.
  cbn [animate fst].
  destruct (resolve fnmatch true self (VStr n)); [|discriminate].
  unfold animate_body. rewrite Hp, Hrun. cbn [state_of].
  match goal with
  | |- context [set_animating ?w0] =>
      destruct (set_animating_keeps w0) as [Hfst [Hin _]];
      rewrite Hfst; cbn [fst snd] in *
  end.
  split.
  - cbn [animations store with_parameters].
    destruct (existsb (String.eqb n) (animations self)) eqn:E.
    + apply existsb_eqb_In in E. exact E.
    + cbn [animations with_animations]. apply in_or_app. right. left.
      reflexivity.
  - destruct (existsb (String.eqb n) (animations (store _ self)));
      exact Hin.
Qed.

(** *** [update_animations] *)

Lemma set_dirty_listed (w : world) :
  listed_ok (fst w) -> listed_ok (fst (set_dirty w)).
Proof.
  destruct w as [self eng]. unfold set_dirty.
  destruct (dirty self); intros H; exact H.
Qed.

Lemma animation_step_done (n : string) (w : world) :
  In n (animations (fst w)) -> listed_ok (fst w) ->
  exists w',
    animation_step update_animation n w = Done w' /\
    listed_ok (fst w') /\
    submodules (fst w') = submodules (fst w) /\
    incl (animations (fst w')) (animations (fst w)).
Proof.
  destruct w as [self eng]. cbn [fst]. intros Hn [Hnd Hin].
  unfold animation_step.
  destruct (find_parameter n self) as [p|] eqn:Hp;
    [|exfalso; exact (Hin n Hn Hp)].
  destruct (Param.animate_running p).
  - destruct (update_animation (current_time eng) p) as [p' changed].
    assert (Hstored : listed_ok (store p' self)).
    { split; [exact Hnd|]. intros m Hm. apply find_store_known, Hin, Hm. }
    destruct (changed && negb (Param.dirty p')).
    + eexists. split; [reflexivity|].
      split; [|split].
      * apply set_dirty_listed. cbn [fst].
        split; [exact Hnd|]. intros m Hm.
        change (find_parameter m (store (Param.with_dirty true p') self)
                <> None).
        apply find_store_known, Hin, Hm.
      * rewrite (proj2 (proj2 (set_dirty_fields _))). reflexivity.
      * rewrite set_dirty_animations. apply incl_refl.
    + eexists. split; [reflexivity|].
      split; [exact Hstored|]. split; [reflexivity|apply incl_refl].
  - eexists. split; [reflexivity|]. cbn [fst].
    split; [|split; [reflexivity|]].
    + split; cbn [animations with_animations].
      * apply remove_first_NoDup, Hnd.
      * intros m Hm. apply (Hin m). exact (remove_first_In _ _ _ Hm).
    + cbn [animations with_animations]. intros m Hm.
      exact (remove_first_In _ _ _ Hm).
Qed.

Lemma animations_loop_done (fuel : nat) :
  forall i w,
    listed_ok (fst w) ->
    exists w',
      animations_loop update_animation fuel i w = Done w' /\
      listed_ok (fst w') /\
      submodules (fst w') = submodules (fst w) /\
      incl (animations (fst w')) (animations (fst w)).
Proof.
  induction fuel as [|fuel IH]; intros i w Hok.
  - exists w. split; [reflexivity|]. split; [exact Hok|].
    split; [reflexivity|apply incl_refl].
  - cbn [animations_loop].
    destruct (nth_error (animations (fst w)) i) as [n|] eqn:Hn.
    + destruct (animation_step_done n w (nth_error_In _ _ Hn) Hok)
        as [w1 [Hstep [Hok1 [Hsubs1 Hincl1]]]].
      rewrite Hstep. cbn [and_then].
      destruct (IH (S i) w1 Hok1) as [w' [Hrun [Hok' [Hsubs' Hincl']]]].
      exists w'. split; [exact Hrun|]. split; [exact Hok'|].
      split; [congruence|].
      intros m Hm. apply Hincl1, Hincl', Hm.
    + exists w. split; [reflexivity|]. split; [exact Hok|].
      split; [reflexivity|apply incl_refl].
Qed.

Lemma update_animations_done :
  forall self,
    Forall listed_ok (nodes self) ->
    forall eng, exists self' eng',
      update_animations update_animation self eng = Done (self', eng')
      /\ Forall listed_ok (nodes self')
      /\ incl (animations self') (animations self).
Proof.
  induction self as [self IH] using module_tree_ind.
  intros Hok eng.
  apply (nodes_unfold listed_ok) in Hok. destruct Hok as [Hown Hall].
  assert (Hsubs : Forall (fun sub => forall eng, exists sub' eng',
            update_animations update_animation sub eng = Done (sub', eng')
            /\ Forall listed_ok (nodes sub')) (submodules self)).
  { rewrite Forall_forall in IH, Hall |- *. intros sub Hsub eng0.
    destruct (IH sub Hsub (Hall sub Hsub) eng0) as [s [e [H1 [H2 _]]]].
    exists s, e. split; assumption. }
  destruct (each_submodule_done listed_ok _ _ Hsubs eng)
    as [subs' [eng1 [Hrun Hoks]]].
  destruct self as [nm pr po ps an ma dp d subs al mp].
  cbn [update_animations submodules] in *. rewrite Hrun.
  match goal with
  | |- exists _ _, animations_loop _ ?f ?i ?w = _ /\ _ =>
      destruct (animations_loop_done f i w) as [[self' eng'] [Hloop
        [Hok' [Hsub' Hincl]]]]; [exact Hown|]
  end.
  exists self', eng'. split; [exact Hloop|]. split; [|exact Hincl].
  apply (nodes_unfold listed_ok). split; [exact Hok'|].
  cbn [fst] in Hsub'. rewrite Hsub'. exact Hoks.
Qed.

(** X24 (update_animations): on a tree in which every animation list
    names no parameter twice and only parameters of its module,
    [update_animations] returns without raising, the lists still are
    so, and the module's own list has gained no name. *)
Theorem update_animations_completes (self : module) (eng : engine)
  (Hok : Forall listed_ok (nodes self)) :
  exists self' eng',
    update_animations update_animation self eng = Done (self', eng')
    /\ Forall listed_ok (nodes self')
    /\ incl (animations self') (animations self).
Proof. exact (update_animations_done self Hok eng). Qed.

End AnimateFacts.

(** *** [stop_animate] on a module without submodules *)

Section StopFacts.

Variable fnmatch : string -> string -> bool.
Variable inherited_dir : list string.

Lemma stop_each_done (names : list string) :
  forall self,
    (forall n, In n names -> find_parameter n self <> None) ->
    exists self',
      stop_each names self = Done self' /\
      (forall n, In n names ->
         exists p', find_parameter n self' = Some p'
                    /\ Param.animate_running p' = false) /\
      (forall m, ~ In m names ->
         find_parameter m self' = find_parameter m self) /\
      animations self' = animations self /\
      dirty_parameters self' = dirty_parameters self /\
      submodules self' = submodules self.
Proof.
  induction names as [|n names IH]; intros self Hfound.
  - exists self. split; [reflexivity|]. split; [intros n []|].
    repeat split.
  - cbn [stop_each]. unfold stop_parameter.
    destruct (find_parameter n self) as [p|] eqn:Hp;
      [|exfalso; exact (Hfound n (or_introl eq_refl) Hp)].
    pose proof (find_parameter_name _ _ _ Hp) as Hname.
    set (self1 := store (Param.stop_animation p) self).
    assert (Hsame : find_parameter n self1
                    = Some (Param.stop_animation p)).
    { unfold self1. rewrite <- Hname.
      apply (find_store_same p (Param.stop_animation p)).
      cbn [Param.stop_animation Param.with_animate_running Param.name].
      rewrite Hname. exact Hp. }
    assert (Hother : forall m, m <> n ->
              find_parameter m self1 = find_parameter m self).
    { intros m Hm. unfold self1. apply find_store_other.
      cbn [Param.stop_animation Param.with_animate_running Param.name].
      congruence. }
    destruct (IH self1) as [self' [Hrun [Hstop [Hrest [Ha [Hd Hs]]]]]].
    { intros m Hm. apply find_store_known. apply Hfound. right. exact Hm. }
    exists self'. split; [exact Hrun|].
    split; [|split; [|repeat split; assumption]].
    + intros m [<-|Hm]; [|exact (Hstop m Hm)].
      destruct (in_dec string_dec n names) as [Hin|Hout];
        [exact (Hstop n Hin)|].
      rewrite (Hrest n Hout), Hsame. eexists. split; reflexivity.
    + intros m Hm. rewrite Hrest by (intros H; apply Hm; right; exact H).
      apply Hother. intros ->. apply Hm. left. reflexivity.
Qed.

(** X25 (stop_animate): on a module without submodules whose animation
    list names parameters of the module, [stop_animate('*')] returns
    without raising and leaves every listed parameter idle; it changes
    no other parameter, and the names stay on the list, which only
    [update_animations] shortens. *)
Theorem stop_animate_all_on_leaf (parent : parent_view) (self : module)
  (eng : engine)
  (Hleaf : submodules self = [])
  (Hfound : forall n, In n (animations self) ->
                      find_parameter n self <> None) :
  exists self',
    stop_animate fnmatch inherited_dir [VStr "*"] parent (self, eng)
    = Done (self', eng) /\
    (forall n, In n (animations self) ->
       exists p', find_parameter n self' = Some p'
                  /\ Param.animate_running p' = false) /\
    (forall m, ~ In m (animations self) ->
       find_parameter m self' = find_parameter m self) /\
    animations self' = animations self.
Proof.
  assert (Hself : with_submodules [] self = self).
  { destruct self. cbn in Hleaf. subst. reflexivity. }
  cbn [stop_animate fst].
  assert (Hr : resolve fnmatch false self (VStr "*") = Local).
  { unfold resolve. rewrite Hleaf. destruct (lookup _ _); reflexivity. }
  rewrite Hr. unfold stop_animate_body.
  cbn [value_eqb String.eqb Ascii.eqb Bool.eqb andb].
  rewrite Hleaf. cbn [each_submodule]. rewrite Hself.
  destruct (stop_each_done (animations self) self Hfound)
    as [self' [Hrun [Hstop [Hrest [Ha _]]]]].
  rewrite Hrun. exists self'. repeat split; assumption.
Qed.

End StopFacts.

(** *** [remove_parameter] *)

Lemma unbind_other (n m : string) (ps : list Param.parameter) :
  m <> n ->
  find (fun p => String.eqb (Param.name p) m) (unbind_parameter n ps)
  = find (fun p => String.eqb (Param.name p) m) ps.
Proof.
  intros Hm. induction ps as [|p ps IH]; [reflexivity|].
  cbn [unbind_parameter].
  destruct (String.eqb (Param.name p) n) eqn:E; cbn [find].
  - apply String.eqb_eq in E.
    destruct (String.eqb (Param.name p) m) eqn:E'; [|reflexivity].
    apply String.eqb_eq in E'. congruence.
  - rewrite IH. reflexivity.
Qed.

Lemma unbind_same (n : string) (ps : list Param.parameter) :
  distinct (map Param.name ps) = true ->
  find (fun p => String.eqb (Param.name p) n) (unbind_parameter n ps) = None.
Proof.
  induction ps as [|p ps IH]; [reflexivity|].
  cbn [map distinct unbind_parameter]. intros H.
  apply andb_prop in H. destruct H as [Hp Hrest].
  destruct (String.eqb (Param.name p) n) eqn:E.
  - apply String.eqb_eq in E. subst n.
    destruct (find _ ps) as [q|] eqn:Hq; [|reflexivity].
    apply find_some in Hq. destruct Hq as [Hin Hq].
    apply negb_true_iff in Hp.
    assert (Hex : existsb (String.eqb (Param.name p)) (map Param.name ps)
                  = true).
    { apply existsb_exists. exists (Param.name q).
      split; [apply in_map, Hin|]. rewrite String.eqb_sym. exact Hq. }
    congruence.
  - cbn [find]. rewrite E. apply IH, Hrest.
Qed.

Lemma remove_named_forgets (n : string) (self : module) :
  distinct (map Param.name (parameters self)) = true ->
  listed_ok self ->
  find_parameter n (remove_named n self) = None /\
  (forall m, m <> n ->
     find_parameter m (remove_named n self) = find_parameter m self) /\
  ~ In n (animations (remove_named n self)) /\
  listed_ok (remove_named n self) /\
  submodules (remove_named n self) = submodules self /\
  dirty_parameters (remove_named n self) = dirty_parameters self.
Proof.
  intros Hdist [Hnd Hin]. unfold remove_named.
  set (self1 := match find_parameter n self with
                | Some _ =>
                    with_parameters (unbind_parameter n (parameters self))
                      self
                | None => self
                end).
  assert (H1 : find_parameter n self1 = None
               /\ (forall m, m <> n ->
                     find_parameter m self1 = find_parameter m self)
               /\ animations self1 = animations self
               /\ submodules self1 = submodules self
               /\ dirty_parameters self1 = dirty_parameters self).
  { unfold self1. destruct (find_parameter n self) eqn:Hp.
    - split; [apply unbind_same, Hdist|].
      split; [|repeat split]. intros m Hm. apply unbind_other, Hm.
    - repeat split. exact Hp. }
  destruct H1 as [Hgone [Hother [Ha [Hs Hd]]]].
  assert (Hlisted : forall m, m <> n -> In m (animations self) ->
                      find_parameter m self1 <> None).
  { intros m Hm Hl. rewrite (Hother m Hm). exact (Hin m Hl). }
  rewrite Ha.
  destruct (existsb (String.eqb n) (animations self)) eqn:E.
  - split; [exact Hgone|]. split; [exact Hother|].
    cbn [animations with_animations].
    split; [apply remove_first_gone, Hnd|].
    split; [|split; assumption].
    split; cbn [animations with_animations].
    + apply remove_first_NoDup, Hnd.
    + intros m Hm.
      change (find_parameter m self1 <> None).
      apply Hlisted; [|exact (remove_first_In _ _ _ Hm)].
      intros ->. exact (remove_first_gone _ _ Hnd Hm).
  - assert (Hout : ~ In n (animations self)).
    { intros H. apply existsb_eqb_In in H. congruence. }
    split; [exact Hgone|]. split; [exact Hother|].
    split; [rewrite Ha; exact Hout|].
    split; [|split; assumption].
    split; [rewrite Ha; exact Hnd|].
    rewrite Ha. intros m Hm. apply Hlisted; [|exact Hm].
    intros ->. exact (Hout Hm).
Qed.

(** X26 (remove_parameter): [remove_parameter(name)] with a name other
    than ['*'] returns at once; the name is then bound to no parameter
    and is on the animation list no more, every other parameter is as
    before, and the animation list still names parameters of the module
    only, so that [update_animations] cannot meet a removed parameter. *)
Theorem remove_parameter_forgets (depth : nat) (n : string) (self : module)
  (Hname : n <> "*")
  (Hdist : distinct (map Param.name (parameters self)) = true)
  (Hok : listed_ok self) :
  exists self',
    remove_parameter (S depth) n self = Some self' /\
    find_parameter n self' = None /\
    (forall m, m <> n -> find_parameter m self' = find_parameter m self) /\
    ~ In n (animations self') /\
    listed_ok self'.
Proof.
  exists (remove_named n self). cbn [remove_parameter].
  apply String.eqb_neq in Hname. rewrite Hname.
  destruct (remove_named_forgets n self Hdist Hok)
    as [H1 [H2 [H3 [H4 _]]]].
  split; [reflexivity|]. split; [exact H1|]. split; [exact H2|].
  split; [exact H3|exact H4].
Qed.

Lemma remove_all_fold (depth : nat) :
  forall ps self,
    parameters self = ps ->
    distinct (map Param.name ps) = true ->
    ~ In "*" (map Param.name ps) ->
    listed_ok self ->
    exists self',
      fold_left
        (fun acc key =>
           match acc with
           | Some self => remove_parameter (S depth) key self
           | None => None
           end)
        (map Param.name ps) (Some self) = Some self' /\
      parameters self' = [] /\
      listed_ok self' /\
      submodules self' = submodules self /\
      dirty_parameters self' = dirty_parameters self.
Proof.
  induction ps as [|p ps IH]; intros self Hps Hdist Hstar Hok.
  - exists self. cbn [map fold_left]. split; [reflexivity|].
    split; [exact Hps|]. split; [exact Hok|]. split; reflexivity.
  - cbn [map fold_left]. cbn [remove_parameter].
    assert (Hp : String.eqb (Param.name p) "*" = false).
    { apply String.eqb_neq. intros H. apply Hstar. left. exact H. }
    rewrite Hp.
    destruct (remove_named_forgets (Param.name p) self
                ltac:(rewrite Hps; exact Hdist) Hok)
      as [_ [_ [_ [Hok1 [Hs1 Hd1]]]]].
    assert (Hps1 : parameters (remove_named (Param.name p) self) = ps).
    { clear -Hps. destruct self as [nm pr po ps0 an ma dp d subs al mp].
      cbn [parameters] in Hps. subst ps0.
      unfold remove_named, find_parameter. cbn [parameters find].
      rewrite String.eqb_refl.
      cbn [animations with_parameters parameters unbind_parameter].
      rewrite String.eqb_refl. destruct (existsb _ an); reflexivity. }
    cbn [map distinct] in Hdist. apply andb_prop in Hdist.
    destruct (IH (remove_named (Param.name p) self) Hps1 (proj2 Hdist))
      as [self' [Hrun [Hnone [Hok' [Hs' Hd']]]]].
    + intros H. apply Hstar. right. exact H.
    + exact Hok1.
    + exists self'. split; [exact Hrun|]. split; [exact Hnone|].
      split; [exact Hok'|]. split; congruence.
Qed.

(** X27 (remove_parameter, all): when no parameter is named ['*'],
    [remove_parameter('*')] returns with no parameter left and an empty
    animation list, having called itself once for each of them; the
    submodules and the dirty buffer are as before. *)
Theorem remove_parameter_all (depth : nat) (self : module)
  (Hstar : ~ In "*" (map Param.name (parameters self)))
  (Hdist : distinct (map Param.name (parameters self)) = true)
  (Hok : listed_ok self) :
  exists self',
    remove_parameter (S (S depth)) "*" self = Some self' /\
    parameters self' = [] /\
    animations self' = [] /\
    submodules self' = submodules self /\
    dirty_parameters self' = dirty_parameters self.
Proof.
  destruct (remove_all_fold depth (parameters self) self eq_refl Hdist
              Hstar Hok) as [self' [Hrun [Hnone [[_ Hin] [Hs Hd]]]]].
  exists self'. split; [exact Hrun|]. split; [exact Hnone|].
  split; [|split; assumption].
  destruct (animations self') as [|n l]; [reflexivity|].
  exfalso. apply (Hin n (or_introl eq_refl)).
  unfold find_parameter. rewrite Hnone. reflexivity.
Qed.

Lemma fold_none {A : Type} (step : module -> A -> option module)
  (keys : list A) :
  fold_left
    (fun acc key =>
       match acc with Some self => step self key | None => None end)
    keys None = None.
Proof. induction keys as [|k keys IH]; [reflexivity|exact IH]. Qed.

Lemma unbind_keeps (n m : string) (ps : list Param.parameter) :
  m <> n -> In m (map Param.name ps) ->
  In m (map Param.name (unbind_parameter n ps)).
Proof.
  intros Hm. induction ps as [|p ps IH]; [auto|].
  cbn [unbind_parameter map In].
  destruct (String.eqb (Param.name p) n) eqn:E.
  - apply String.eqb_eq in E. intros [H|H]; [congruence|exact H].
  - cbn [map In]. intros [H|H]; [left; exact H|right; exact (IH H)].
Qed.

Lemma remove_named_keeps (n m : string) (self : module) :
  m <> n -> In m (map Param.name (parameters self)) ->
  In m (map Param.name (parameters (remove_named n self))).
Proof.
  intros Hm Hin. unfold remove_named.
  destruct (find_parameter n self);
    destruct (existsb _ _);
    cbn [parameters with_animations with_parameters];
    try apply unbind_keeps; assumption.
Qed.

(** X28 (remove_parameter, a parameter named '*'): while a parameter
    is named ['*'], [remove_parameter('*')] never returns: the call for
    the key ['*'] starts the loop over the keys again, so that every
    bound on the nesting of calls is reached (the interpreter ends it
    with a [RecursionError]). *)
Theorem remove_parameter_star_recurses (depth : nat) :
  forall self,
    In "*" (map Param.name (parameters self)) ->
    remove_parameter depth "*" self = None.
Proof.
  induction depth as [|depth IH]; intros self Hstar; [reflexivity|].
  (* the loop over the keys reaches ['*'] with ['*'] still bound *)
  assert (Hloop : forall keys self,
    In "*" keys ->
    In "*" (map Param.name (parameters self)) ->
    fold_left
      (fun acc key =>
         match acc with
         | Some self => remove_parameter depth key self
         | None => None
         end) keys (Some self) = None).
  { induction keys as [|k keys IHk]; intros self0 Hk Hbound; [destruct Hk|].
    cbn [fold_left].
    destruct (string_dec k "*") as [->|Hne].
    - rewrite (IH self0 Hbound). apply fold_none.
    - destruct Hk as [Hk|Hk]; [congruence|].
      destruct depth as [|depth']; [apply fold_none|].
      cbn [remove_parameter]. apply String.eqb_neq in Hne as Hneb.
      rewrite Hneb. apply IHk; [exact Hk|].
      apply remove_named_keeps; [|exact Hbound]. congruence. }
  cbn [remove_parameter]. rewrite String.eqb_refl.
  apply Hloop; exact Hstar.
Qed.

(** *** [add_submodule] *)

Lemma bind_submodule_find (m : module) (subs : list module) :
  find (fun sub => String.eqb (name sub) (name m)) (bind_submodule m subs)
  = Some m /\
  forall n, n <> name m ->
    find (fun sub => String.eqb (name sub) n) (bind_submodule m subs)
    = find (fun sub => String.eqb (name sub) n) subs.
Proof.
  induction subs as [|sub subs [IH1 IH2]]; cbn [bind_submodule].
  - cbn [find]. rewrite String.eqb_refl. split; [reflexivity|].
    intros n Hn. apply not_eq_sym, String.eqb_neq in Hn. rewrite Hn.
    reflexivity.
  - destruct (String.eqb (name sub) (name m)) eqn:E; cbn [find].
    + rewrite String.eqb_refl. split; [reflexivity|].
      intros n Hn. apply String.eqb_eq in E. rewrite E.
      apply not_eq_sym, String.eqb_neq in Hn. rewrite Hn. reflexivity.
    + rewrite E. split; [exact IH1|].
      intros n Hn. rewrite (IH2 n Hn). reflexivity.
Qed.

(** X29 (add_submodule, send): after [add_submodule(module)] the
    module is bound to its name and the other submodules are bound as
    before.  A module that came without protocol and port sends every
    message to the protocol and port of its parent, as the parent itself
    does, when the parent has a port; when the parent has none the
    module sends nothing, whatever the parent itself would do through a
    parent of its own. *)
Theorem add_submodule_inherits (self module : Mentat.module) :
  let self' := add_submodule [module] self in
  find_submodule (name module) self' = Some (adopted self module) /\
  (forall n, n <> name module ->
     find_submodule n self' = find_submodule n self) /\
  parameters self' = parameters self /\
  (protocol module = VNone -> port module = VNone ->
   forall grandparent address args eng,
     send (view_of self') address args (adopted self module) eng
     = if truthy (port self)
       then send grandparent address args self eng
       else eng).
Proof.
  cbv zeta. unfold add_submodule, find_submodule. cbn [fold_left].
  cbn [submodules with_submodules].
  destruct (bind_submodule_find (adopted self module) (submodules self))
    as [H1 H2].
  split; [exact H1|]. split; [exact H2|]. split; [reflexivity|].
  intros Hproto Hport grandparent address args eng.
  unfold send, view_of, adopted.
  cbn [protocol port with_submodules]. rewrite Hproto, Hport.
  destruct (truthy (port self)) eqn:E; cbn [negb]; rewrite ?E;
    [|reflexivity].
  destruct grandparent as [proto_port|]; rewrite ?E; cbn [negb];
    rewrite ?E; reflexivity.
Qed.

(** *** [add_mapping] *)

Section AddMappingFacts.

Variable fnmatch : string -> string -> bool.
Variable cast : ascii -> value -> value.

Lemma get_parameter_mappings (ms : list Mapping.mapping) (p : list value) :
  forall self,
    get_parameter fnmatch p (with_mappings ms self)
    = get_parameter fnmatch p self.
Proof.
  unfold get_parameter.
  intros self. destruct p as [|first rest]; [reflexivity|].
  cbn [submodule_query].
  change (resolve fnmatch false (with_mappings ms self) first)
    with (resolve fnmatch false self first).
  destruct (resolve fnmatch false self first) as [|[|n [|n' names]]];
    reflexivity.
Qed.

Lemma dependencies_mappings (ms : list Mapping.mapping)
  (paths : list (list value)) (self : module) :
  dependencies_exist fnmatch paths (with_mappings ms self)
  = dependencies_exist fnmatch paths self.
Proof.
  induction paths as [|p paths IH]; [reflexivity|].
  cbn [dependencies_exist]. rewrite get_parameter_mappings, IH.
  reflexivity.
Qed.

Lemma dependencies_missing (paths : list (list value)) (self : module) :
  (forall p, In p paths -> exists found,
     get_parameter fnmatch p self = Ok found) ->
  (exists p, In p paths /\ get_parameter fnmatch p self = Ok None) ->
  dependencies_exist fnmatch paths self = Ok false.
Proof.
  induction paths as [|p paths IH]; intros Hall [q [Hq Hnone]];
    [destruct Hq|].
  cbn [dependencies_exist].
  destruct (Hall p (or_introl eq_refl)) as [[found|] Hp]; rewrite Hp;
    cbn [bind]; [|reflexivity].
  apply IH.
  - intros p' Hp'. apply Hall. right. exact Hp'.
  - destruct Hq as [->|Hq]; [congruence|]. exists q. split; assumption.
Qed.

(** X30 (add_mapping): when every parameter the mapping names can be
    looked up without raising and at least one of them does not exist
    yet, [add_mapping] only appends the mapping, and after it the
    inverse mapping if there is an inverse, both unlocked: no transform
    is called, no parameter is set and nothing reaches the engine. *)
Theorem add_mapping_defers (src dest : list (list value))
  (transform : list value -> res value)
  (inverse : option (list value -> res value)) (parent : parent_view)
  (self : module) (eng : engine)
  (Hlookup : forall p, In p (src ++ dest)%list -> exists found,
     get_parameter fnmatch p self = Ok found)
  (Hmissing : exists p, In p (src ++ dest)%list
                        /\ get_parameter fnmatch p self = Ok None) :
  add_mapping fnmatch cast src dest transform inverse parent (self, eng)
  = Done (with_mappings
            (mappings self
             ++ new_mapping src dest transform
                :: match inverse with
                   | Some inv => [new_mapping dest src inv]
                   | None => []
                   end)%list self, eng).
Proof.
  assert (Hswap : forall p, In p (dest ++ src)%list <-> In p (src ++ dest)%list).
  { intros p. rewrite !in_app_iff. tauto. }
  assert (Hfwd : forall ms,
    dependencies_exist fnmatch (src ++ dest) (with_mappings ms self)
    = Ok false).
  { intros ms. rewrite dependencies_mappings.
    apply dependencies_missing; assumption. }
  assert (Hbwd : forall ms,
    dependencies_exist fnmatch (dest ++ src) (with_mappings ms self)
    = Ok false).
  { intros ms. rewrite dependencies_mappings.
    apply dependencies_missing.
    - intros p Hp. apply Hlookup, Hswap, Hp.
    - destruct Hmissing as [p [Hp Hnone]]. exists p.
      split; [apply Hswap, Hp|exact Hnone]. }
  unfold add_mapping, add_one_mapping, first_update.
  destruct inverse as [inv|].
  - cbn [mappings with_mappings fst Mapping.src Mapping.dest new_mapping].
    change (with_mappings ?a (with_mappings ?b self))
      with (with_mappings a self).
    rewrite Hbwd. cbn [and_then fst].
    cbn [Mapping.src Mapping.dest]. rewrite Hfwd.
    rewrite <- app_assoc. reflexivity.
  - cbn [fst Mapping.src Mapping.dest new_mapping]. rewrite Hfwd.
    reflexivity.
Qed.

End AddMappingFacts.

(** *** Examples *)

(** An animation that starts whatever its arguments are. *)
Definition starts : engine -> list value -> Param.parameter -> Param.parameter
  := fun _ _ p => Param.with_animate_running true p.

Lemma mod_M_listed (running : bool) : Forall listed_ok (nodes (mod_M running)).
Proof.
  assert (Hs : listed_ok (sub_S running)).
  { destruct running; (split; [repeat constructor; intros []|]).
    - intros n [<-|[]]. discriminate.
    - intros n []. }
  change (nodes (mod_M running)) with [mod_M running; sub_S running].
  constructor; [|constructor; [exact Hs|constructor]].
  split; [constructor|intros n []].
Qed.

(** [animate('a', 0, 1, 1)] on ["M"]. *)
Lemma animate_lists_once_witness :
  exists self' eng',
    animate literal_names starts [VStr "a"; VInt 0; VInt 1; VInt 1] None
      (mod_M false, idle_engine) = Done (self', eng') /\
    Forall listed_ok (nodes self') /\
    In "a" (animations self') /\
    In ["engine"; "M"] (animating_modules eng').
Proof.
  destruct (animate_lists_once literal_names starts
              [VStr "a"; VInt 0; VInt 1; VInt 1] None (mod_M false)
              idle_engine (mod_M_listed false) (NoDup_nil _))
    as [Hok [_ Hin]].
  destruct (Hin "a" [VInt 0; VInt 1; VInt 1] (int_parameter "a" 3 false)
              eq_refl eq_refl eq_refl eq_refl) as [Ha Hm].
  do 2 eexists. split; [reflexivity|].
  split; [exact Hok|]. split; [exact Ha|exact Hm].
Defined.

(** A pass over ["M"] while the parameter [b] of ["S"] is running. *)
Lemma update_animations_completes_witness :
  exists self' eng',
    update_animations frozen (mod_M true) idle_engine = Done (self', eng') /\
    Forall listed_ok (nodes self').
Proof.
  destruct (update_animations_completes frozen (mod_M true) idle_engine
              (mod_M_listed true)) as [self' [eng' [Hrun [Hok _]]]].
  exists self', eng'. split; assumption.
Defined.

(** [stop_animate('*')] on ["S"], which has no submodule, while [b] is
    running. *)
Lemma stop_animate_all_on_leaf_witness :
  exists self' b,
    stop_animate literal_names used_inherited [VStr "*"] None
      (sub_S true, idle_engine) = Done (self', idle_engine) /\
    find_parameter "b" self' = Some b /\
    Param.animate_running b = false /\
    animations self' = ["b"].
Proof.
  destruct (stop_animate_all_on_leaf literal_names used_inherited None
              (sub_S true) idle_engine eq_refl)
    as [self' [Hrun [Hstop [_ Ha]]]].
  - intros n [<-|[]]. discriminate.
  - destruct (Hstop "b" (or_introl eq_refl)) as [b [Hb Hidle]].
    exists self', b. repeat split; assumption.
Defined.

Lemma sub_S_listed : listed_ok (sub_S true).
Proof.
  split; [repeat constructor; intros []|].
  intros n [<-|[]]. discriminate.
Qed.

(** [remove_parameter('b')] on ["S"] while [b] is running. *)
Lemma remove_parameter_forgets_witness :
  exists self',
    remove_parameter 1 "b" (sub_S true) = Some self' /\
    find_parameter "b" self' = None /\
    ~ In "b" (animations self').
Proof.
  destruct (remove_parameter_forgets 0 "b" (sub_S true))
    as [self' [Hrun [Hgone [_ [Hout _]]]]].
  - discriminate.
  - reflexivity.
  - exact sub_S_listed.
  - exists self'. repeat split; assumption.
Defined.

(** [remove_parameter('*')] on the module with the parameters [a] and
    [c]. *)
Lemma remove_parameter_all_witness :
  exists self',
    remove_parameter 2 "*" mod_local = Some self' /\
    parameters self' = [].
Proof.
  destruct (remove_parameter_all 0 mod_local) as [self' [Hrun [Hnone _]]].
  - intros [H|[H|[]]]; discriminate H.
  - reflexivity.
  - split; [constructor|intros n []].
  - exists self'. split; assumption.
Defined.

(** A module with the parameters [a] and ['*']. *)
Definition mod_star : module :=
  leaf "M" [int_parameter "a" 3 false; int_parameter "*" 0 false] []
    ["engine"; "M"].

Lemma remove_parameter_star_recurses_witness :
  remove_parameter 1000 "*" mod_star = None.
Proof.
  apply (remove_parameter_star_recurses 1000 mod_star).
  right. left. reflexivity.
Defined.

(** ["S"] as it is before [add_submodule]: it has neither protocol nor
    port.  Under ["M"], which sends to port 9000, it sends as ["M"]
    does, whatever is above ["M"]; under a parent without a port it
    sends nothing, while that parent sends through its own parent. *)
Lemma add_submodule_inherits_witness :
  find_submodule "S" (add_submodule [sub_S false] (mod_M false))
  = Some (adopted (mod_M false) (sub_S false)) /\
  port (adopted (mod_M false) (sub_S false)) = VInt 9000 /\
  (forall grandparent address args eng,
     send (view_of (add_submodule [sub_S false] (mod_M false))) address args
       (adopted (mod_M false) (sub_S false)) eng
     = send grandparent address args (mod_M false) eng) /\
  let mute := leaf "P" [] [] ["engine"; "M"; "P"] in
  forall address args,
    send (view_of (add_submodule [sub_S false] mute)) address args
      (adopted mute (sub_S false)) idle_engine
    = idle_engine /\
    send (view_of (mod_M false)) address args mute idle_engine
    = with_message_queue [VStr "osc" :: VInt 9000 :: address :: args]
        idle_engine.
Proof.
  destruct (add_submodule_inherits (mod_M false) (sub_S false))
    as [Hfind [_ [_ Hsend]]].
  split; [exact Hfind|]. split; [reflexivity|].
  split; [exact (Hsend eq_refl eq_refl)|].
  intros mute address args. split; [|reflexivity].
  destruct (add_submodule_inherits mute (sub_S false)) as [_ [_ [_ Hmute]]].
  exact (Hmute eq_refl eq_refl None address args idle_engine).
Defined.

(** [add_mapping('a', 'z', lambda x: 2 * x, inverse)] on the module
    with the parameters [a] and [c]: there is no [z] yet. *)
Lemma add_mapping_defers_witness :
  add_mapping literal_names passthrough [[VStr "a"]] [[VStr "z"]] double
    (Some double) None (mod_local, idle_engine)
  = Done (with_mappings
            [new_mapping [[VStr "a"]] [[VStr "z"]] double;
             new_mapping [[VStr "z"]] [[VStr "a"]] double] mod_local,
          idle_engine).
Proof.
  apply (add_mapping_defers literal_names passthrough [[VStr "a"]]
           [[VStr "z"]] double (Some double) None mod_local idle_engine).
  - intros p [<-|[<-|[]]]; eexists; reflexivity.
  - exists [VStr "z"]. split; [right; left; reflexivity|reflexivity].
Defined.

End MentatRestFacts.
